(** * Huffman compressor: a shallow embedding of [Compressor.py] and [Node.py]

    The development follows the Python source stage by stage: the frequency
    analyser, the tree builder, the encoding-table builder, the bit packer,
    the frequency-table writer and [compress], which sequences them.

    Conventions of the embedding.
    - A character is an 8-bit [ascii]; a [str] is a [string].  Text files are
      read and written through a fixed single-byte codec, a character per
      byte; reading translates the ends of lines, writing leaves the newline
      as it is.  Characters compare by code point, as Python's [str]
      comparison does.
    - Python [int]s that count things are [nat].
    - A [dict] is an association list in insertion order with unique keys.
    - A raised exception is a value of [exn]; the mutable state ([self], the
      files, the standard output) is threaded explicitly, and survives a
      raised exception, as it does in Python. *)

From Stdlib Require Import List String Ascii Arith PeanoNat NArith ZArith Lia Bool.
From Stdlib Require Import Strings.Byte Permutation Sorted DecimalString DecimalNat.
Import ListNotations.

Local Open Scope string_scope.
Local Open Scope list_scope.
Local Open Scope nat_scope.

(* ------------------------------------------------------------------ *)
(** * Python primitives used by the source *)
(* ------------------------------------------------------------------ *)

Module Py.

(** The exceptions the interpreter can raise in the modelled code.
    [exit(n)] raises [SystemExit n]. *)
Inductive exn : Type :=
| IndexError
| KeyError (key : ascii)
| ValueError
| FileNotFoundError (path : string)
| SystemExit (status : Z).

(** The outcome of a call.  [OutOfFuel] is not a Python outcome: it marks
    that the bound the model puts on the iterations of a [while] loop was
    used up.  [create_tree_fuel_enough] below shows that it never is. *)
Inductive result (A : Type) : Type :=
| Ok (a : A)
| Raise (e : exn)
| OutOfFuel.

Arguments Ok {A} a.
Arguments Raise {A} e.
Arguments OutOfFuel {A}.

Definition rbind {A B : Type} (r : result A) (k : A -> result B) : result B :=
  match r with
  | Ok a => k a
  | Raise e => Raise e
  | OutOfFuel => OutOfFuel
  end.

(** [len(s)] on a [str]. *)
Definition len (s : string) : nat := String.length s.

(** [sorted(l, key=key)]: a stable ascending sort.  An element goes in
    front of the first element whose key is not smaller, so that elements
    with equal keys keep the order they had. *)
Section Sorted.
Context {A : Type} (key : A -> nat).

Fixpoint insert (x : A) (l : list A) : list A :=
  match l with
  | [] => [x]
  | y :: l' => if key x <=? key y then x :: l else y :: insert x l'
  end.

Definition sorted (l : list A) : list A := fold_right insert [] l.
End Sorted.

(** [dict]: association list in insertion order. *)
Section Dict.
Context {K V : Type} (eqb : K -> K -> bool).

Definition dict : Type := list (K * V).

(** [d.get(k)], [None] when the key is absent. *)
Fixpoint get (d : dict) (k : K) : option V :=
  match d with
  | [] => None
  | (k', v) :: d' => if eqb k k' then Some v else get d' k
  end.

(** [d.get(k, default)]. *)
Definition get_default (d : dict) (k : K) (default : V) : V :=
  match get d k with
  | Some v => v
  | None => default
  end.

(** [d[k] = v]: an existing key keeps its position. *)
Fixpoint set (d : dict) (k : K) (v : V) : dict :=
  match d with
  | [] => [(k, v)]
  | (k', v') :: d' => if eqb k k' then (k', v) :: d' else (k', v') :: set d' k v
  end.

(** [dict(items)]. *)
Definition of_items (items : list (K * V)) : dict :=
  fold_left (fun d kv => set d (fst kv) (snd kv)) items [].

Definition keys (d : dict) : list K := map fst d.
End Dict.

Arguments dict K V : clear implicits.

(** [l.remove(x)]: drops the first element equal to [x]; [ValueError] when
    there is none. *)
Section Remove.
Context {A : Type} (eqb : A -> A -> bool).

Fixpoint remove (l : list A) (x : A) : result (list A) :=
  match l with
  | [] => Raise ValueError
  | y :: l' => if eqb y x then Ok l' else rbind (remove l' x) (fun r => Ok (y :: r))
  end.
End Remove.

(** [range(0, stop, step)] for a positive [step]. *)
Definition range0 (stop step : nat) : list nat :=
  map (fun k => k * step) (seq 0 ((stop + step - 1) / step)).

(** [s[i:j]] for [0 <= i <= j]. *)
Definition slice (s : string) (i j : nat) : string := substring i (j - i) s.

(** [s[1:-1]]. *)
Definition slice_1_m1 (s : string) : string := substring 1 (len s - 2) s.

(** [str(n)] for a natural number. *)
Definition str (n : nat) : string := NilEmpty.string_of_uint (Nat.to_uint n).

(** The binary digits of a number, most significant first. *)
Fixpoint bin_pos (p : positive) (acc : string) : string :=
  match p with
  | xH => String "1" acc
  | xO p' => bin_pos p' (String "0" acc)
  | xI p' => bin_pos p' (String "1" acc)
  end.

Definition bin (n : N) : string :=
  match n with
  | N0 => "0"
  | Npos p => bin_pos p EmptyString
  end.

Fixpoint zeros (n : nat) : string :=
  match n with
  | 0 => EmptyString
  | S n' => String "0" (zeros n')
  end.

(** ["{0:08b}".format(n)]: binary, padded with zeros on the left to a width
    of at least 8. *)
Definition format_08b (n : nat) : string :=
  let digits := bin (N.of_nat n) in
  (zeros (8 - len digits) ++ digits)%string.

(** [int(s, 2)] on a string of binary digits, most significant first;
    [ValueError] on the empty string or on any other character.  (Python
    also reads a sign, blanks, underscores and a 0b prefix; the packer
    builds its strings from the digits 0 and 1 alone.) *)
Fixpoint int2_digits (s : string) (acc : N) : result N :=
  match s with
  | EmptyString => Ok acc
  | String c s' =>
      if Ascii.eqb c "0" then int2_digits s' (2 * acc)%N
      else if Ascii.eqb c "1" then int2_digits s' (2 * acc + 1)%N
      else Raise ValueError
  end.

Definition int2 (s : string) : result N :=
  match s with
  | EmptyString => Raise ValueError
  | _ => int2_digits s 0%N
  end.

(** [bytearray.append(v)]: [ValueError] unless [0 <= v < 256]. *)
Definition bytearray_append (b : list byte) (v : N) : result (list byte) :=
  match Byte.of_N v with
  | Some x => Ok (b ++ [x])
  | None => Raise ValueError
  end.

(** What reading in text mode makes of the ends of lines: a carriage return
    followed by a newline, and a carriage return alone, are read as a
    newline. *)
Fixpoint universal_newlines (s : string) : string :=
  match s with
  | EmptyString => EmptyString
  | String c rest =>
      if nat_of_ascii c =? 13 then
        String (ascii_of_nat 10)
               (match rest with
                | String c' rest' =>
                    if nat_of_ascii c' =? 10 then universal_newlines rest'
                    else universal_newlines rest
                | EmptyString => EmptyString
                end)
      else String c (universal_newlines rest)
  end.

(** The text of a file opened with [open(p, "r")]: one character per byte,
    with the ends of lines as above. *)
Definition decode_text (b : list byte) : string :=
  universal_newlines (string_of_list_byte b).

(** The hexadecimal digit of a value below 16, lower case. *)
Definition hex_digit (n : nat) : ascii :=
  nth n (list_ascii_of_string "0123456789abcdef") "?"%char.

(** [c.isprintable()] on the 8-bit range: the controls 0x00-0x1f and
    0x7f-0x9f, the no-break space 0xa0 and the soft hyphen 0xad are not
    printable. *)
Definition isprintable (c : ascii) : bool :=
  let n := nat_of_ascii c in
  (32 <=? n) && negb ((127 <=? n) && (n <=? 160)) && negb (n =? 173).

(** The double quote character. *)
Definition dquote : ascii := ascii_of_nat 34.

(** The newline character, as a one-character string. *)
Definition nl : string := String (ascii_of_nat 10) EmptyString.

(** [repr(c)] of a one-character string: single quotes around the escaped
    character, double quotes around an apostrophe. *)
Definition repr (c : ascii) : string :=
  let n := nat_of_ascii c in
  if Ascii.eqb c "'" then String dquote (String c (String dquote EmptyString))
  else
    let body :=
      if Ascii.eqb c "\" then "\\"
      else if n =? 9 then "\t"
      else if n =? 10 then "\n"
      else if n =? 13 then "\r"
      else if isprintable c then String c EmptyString
      else String "\" (String "x" (String (hex_digit (n / 16))
                                     (String (hex_digit (n mod 16)) EmptyString)))
    in String "'" (body ++ "'")%string.

End Py.

Import Py.

(* ------------------------------------------------------------------ *)
(** * Node.py *)
(* ------------------------------------------------------------------ *)

(** A [Node] is built at two places only: [Node(char, frequency=...)], a
    leaf with no children, and [Node(char=None, frequency=..., left=...,
    right=...)], an internal node with both children.  The two shapes are the
    two constructors.  [code] is the field of that name, the empty string
    until [__merge_nodes] labels the node.  The [parent] back-reference is
    written by [__merge_nodes] and never read; it is left out. *)
Inductive Node : Type :=
| Leaf (char : ascii) (frequency : nat) (code : string)
| Parent (frequency : nat) (left right : Node) (code : string).

Definition frequency (node : Node) : nat :=
  match node with
  | Leaf _ f _ => f
  | Parent f _ _ _ => f
  end.

Definition code (node : Node) : string :=
  match node with
  | Leaf _ _ c => c
  | Parent _ _ _ c => c
  end.

(** [node.code = c]. *)
Definition set_code (node : Node) (c : string) : Node :=
  match node with
  | Leaf ch f _ => Leaf ch f c
  | Parent f l r _ => Parent f l r c
  end.

(** [Node] defines no [__eq__]: for [list.remove] two nodes are equal when
    they are the same object.  The model compares the values.  In
    [__create_tree] the two nodes that [__merge_nodes] removes stand at the
    front of the sorted list ([create_tree_turn_sorted] below), where the
    search ends at once, as it does when objects are compared; and the nodes
    of such a list differ in their characters, hence in their values. *)
Fixpoint Node_eqb (a b : Node) : bool :=
  match a, b with
  | Leaf c1 f1 k1, Leaf c2 f2 k2 => Ascii.eqb c1 c2 && (f1 =? f2) && String.eqb k1 k2
  | Parent f1 l1 r1 k1, Parent f2 l2 r2 k2 =>
      (f1 =? f2) && Node_eqb l1 l2 && Node_eqb r1 r2 && String.eqb k1 k2
  | _, _ => false
  end.

(* ------------------------------------------------------------------ *)
(** * The state of a run *)
(* ------------------------------------------------------------------ *)

(** The fields of a [Compressor] object. *)
Record Compressor : Type := mkCompressor {
  path : string;
  alphabet_frequency : dict ascii nat;
  encoding_table : dict ascii string
}.

(** [Compressor.__init__]. *)
Definition init (path : string) : Compressor :=
  mkCompressor path [] [].

(** What a method can read and change: the object, the files (each a
    sequence of bytes under its path) and what was printed. *)
Record State : Type := mkState {
  self : Compressor;
  files : dict string (list byte);
  stdout : list string
}.

(** A method is a function from the state to an outcome and a state. *)
Definition M (A : Type) : Type := State -> result A * State.

Definition ret {A : Type} (a : A) : M A := fun s => (Ok a, s).

Definition bind {A B : Type} (m : M A) (k : A -> M B) : M B :=
  fun s =>
    match m s with
    | (Ok a, s') => k a s'
    | (Raise e, s') => (Raise e, s')
    | (OutOfFuel, s') => (OutOfFuel, s')
    end.

Definition lift {A : Type} (r : result A) : M A := fun s => (r, s).

Definition raise {A : Type} (e : exn) : M A := lift (Raise e).

Declare Scope method_scope.
Delimit Scope method_scope with method.
Notation "x <- m ;; k" := (bind m (fun x => k))
  (at level 61, m at next level, right associativity) : method_scope.
Notation "m ;; k" := (bind m (fun _ => k))
  (at level 61, right associativity) : method_scope.
Notation "x <-- r ;; k" := (rbind r (fun x => k))
  (at level 61, r at next level, right associativity) : method_scope.
Local Open Scope method_scope.

(** [for x in l: body x]. *)
Fixpoint for_each {A : Type} (l : list A) (body : A -> M unit) : M unit :=
  match l with
  | [] => ret tt
  | x :: l' => body x ;; for_each l' body
  end.

(** [for x in l: acc = body acc x]. *)
Fixpoint for_fold {A B : Type} (l : list A) (acc : B) (body : B -> A -> M B) : M B :=
  match l with
  | [] => ret acc
  | x :: l' => acc' <- body acc x ;; for_fold l' acc' body
  end.

Definition get_self : M Compressor := fun s => (Ok (self s), s).

(** The state after [self.alphabet_frequency = af]. *)
Definition with_alphabet_frequency (s : State) (af : dict ascii nat) : State :=
  mkState (mkCompressor (path (self s)) af (encoding_table (self s)))
          (files s) (stdout s).

(** The state after [self.encoding_table] has become [table]. *)
Definition with_encoding_table (s : State) (table : dict ascii string) : State :=
  mkState (mkCompressor (path (self s)) (alphabet_frequency (self s)) table)
          (files s) (stdout s).

Definition with_files (s : State) (fs : dict string (list byte)) : State :=
  mkState (self s) fs (stdout s).

Definition set_alphabet_frequency (af : dict ascii nat) : M unit :=
  fun s => (Ok tt, with_alphabet_frequency s af).

Definition set_encoding_table (table : dict ascii string) : M unit :=
  fun s => (Ok tt, with_encoding_table s table).

Definition set_files (fs : dict string (list byte)) : M unit :=
  fun s => (Ok tt, with_files s fs).

(** [print(line)]. *)
Definition print (line : string) : M unit :=
  fun s => (Ok tt, mkState (self s) (files s) (stdout s ++ [line])).

(** [exit(status)]. *)
Definition exit {A : Type} (status : Z) : M A := raise (SystemExit status).

(** The text that reading the file under [p] gives, when there is one. *)
Definition file_text (fs : dict string (list byte)) (p : string) : option string :=
  option_map decode_text (get String.eqb fs p).

(** Reading the whole of a file opened with [open(p, "r")]. *)
Definition read_text (p : string) : M string :=
  fun s =>
    match file_text (files s) p with
    | Some text => (Ok text, s)
    | None => (Raise (FileNotFoundError p), s)
    end.

(** [open(p, "w")] and [open(p, "wb")]: the file is created, or emptied. *)
Definition open_write (p : string) : M unit :=
  fun s => set_files (set String.eqb (files s) p []) s.

(** [f.write(b)] on a file opened for writing: the bytes go to its end. *)
Definition write_bytes (p : string) (b : list byte) : M unit :=
  fun s =>
    let old := match get String.eqb (files s) p with Some o => o | None => [] end in
    set_files (set String.eqb (files s) p (old ++ b)) s.

(** [f.write(text)] on a file opened in text mode. *)
Definition write_text (p : string) (text : string) : M unit :=
  write_bytes p (list_byte_of_string text).

(** [d[k]] on a [dict] keyed by characters: [KeyError] when absent. *)
Definition getitem {V : Type} (d : dict ascii V) (k : ascii) : result V :=
  match get Ascii.eqb d k with
  | Some v => Ok v
  | None => Raise (KeyError k)
  end.

(** [s.replace(old, new)] for a non-empty [old]: every occurrence, left to
    right, without overlap.  [skip] counts the characters of a replaced
    occurrence still to be passed over. *)
Fixpoint replace_from (old new : string) (skip : nat) (s : string) : string :=
  match s with
  | EmptyString => EmptyString
  | String c s' =>
      match skip with
      | S k => replace_from old new k s'
      | 0 =>
          if prefix old s then (new ++ replace_from old new (len old - 1) s')%string
          else String c (replace_from old new 0 s')
      end
  end.

Definition replace (s old new : string) : string := replace_from old new 0 s.

(** Modelled from the spec: [read_file] of [utils.py], which is not among
    the sources.  The spec counts raw file reading among the external
    collaborators and has the packer take the original input stream, so
    [read_file(path)] returns the text of the file, as reading it character
    by character does. *)
Definition read_file (p : string) : M string := read_text p.

(* ------------------------------------------------------------------ *)
(** * Compressor.py *)
(* ------------------------------------------------------------------ *)

(** The counting loop of [__create_alphabet_frequency]:
    [alphabet_frequency[char] = alphabet_frequency.get(char, 0) + 1] for each
    character read. *)
Definition count_step (alphabet_frequency : dict ascii nat) (char : ascii)
  : dict ascii nat :=
  set Ascii.eqb alphabet_frequency char
      (get_default Ascii.eqb alphabet_frequency char 0 + 1).

Definition count_characters (content : string) : dict ascii nat :=
  fold_left count_step (list_ascii_of_string content) [].

(** The two sorts that end [__create_alphabet_frequency]: by character, then
    by frequency. *)
Definition sort_alphabet_frequency (af : dict ascii nat) : dict ascii nat :=
  let af := of_items Ascii.eqb (sorted (fun item => nat_of_ascii (fst item)) af) in
  let af := of_items Ascii.eqb (sorted (fun item => snd item) af) in
  af.

Definition create_alphabet_frequency : M (dict ascii nat) :=
  self <- get_self ;;
  content <- read_text (path self) ;;
  ret (sort_alphabet_frequency (count_characters content)).

Definition get_two_smallest_nodes (nodes : list Node) : result (Node * Node) :=
  match nodes with
  | n0 :: n1 :: rest =>
      let start := if frequency n1 <? frequency n0 then (n1, n0) else (n0, n1) in
      Ok (fold_left
            (fun mins node =>
               let '(min_node1, min_node2) := mins in
               if frequency node <? frequency min_node1 then (node, min_node1)
               else if frequency node <? frequency min_node2 then (min_node1, node)
               else (min_node1, min_node2))
            rest start)
  | _ => Raise IndexError
  end.

(** [__merge_nodes] changes the list it is given; the model returns the
    changed list.  The two children carry their labels inside the parent;
    they are looked up in the list as they were before being labelled.
    [list.remove] looks for the object itself, since [Node] has no
    [__eq__]; the model looks for an equal value.  The two coincide where
    the nodes of the list are distinct values and the two nodes to merge are
    taken from the list, as in [__create_tree], whose nodes hold distinct
    characters; they differ for a copy of a listed node and for one object
    standing at two places, which the model cannot tell apart. *)
Definition merge_nodes (nodes : list Node) (min_node1 min_node2 : Node)
  : result (list Node) :=
  let parent := Parent (frequency min_node1 + frequency min_node2)
                       (set_code min_node1 "0") (set_code min_node2 "1")
                       EmptyString in
  nodes <-- remove Node_eqb nodes min_node1 ;;
  nodes <-- remove Node_eqb nodes min_node2 ;;
  Ok (nodes ++ [parent]).

(** The first loop of [__create_tree]: one leaf per key, in the order of the
    keys. *)
Definition create_leaves (af : dict ascii nat) : result (list Node) :=
  fold_left
    (fun acc char =>
       nodes <-- acc ;;
       f <-- getitem af char ;;
       Ok (nodes ++ [Leaf char f EmptyString]))
    (keys af) (Ok []).

(** One turn of the [while] loop of [__create_tree]. *)
Definition create_tree_turn (nodes : list Node) : result (list Node) :=
  let nodes := sorted frequency nodes in
  mins <-- get_two_smallest_nodes nodes ;;
  merge_nodes nodes (fst mins) (snd mins).

(** The [while] loop, for at most [fuel] turns. *)
Fixpoint create_tree_loop (fuel : nat) (nodes : list Node) : result (list Node) :=
  if 1 <? List.length nodes then
    match fuel with
    | 0 => OutOfFuel
    | S fuel' => nodes <-- create_tree_turn nodes ;; create_tree_loop fuel' nodes
    end
  else Ok nodes.

(** Every turn shortens the list by one, so that as many turns as the
    alphabet has characters are more than the loop can take. *)
Definition create_tree (af : dict ascii nat) : result Node :=
  nodes <-- create_leaves af ;;
  nodes <-- create_tree_loop (List.length nodes) nodes ;;
  match nodes with
  | [] => Raise IndexError
  | root :: _ => Ok root
  end.

Fixpoint build_encoding_table (node : Node) (code : string) : M unit :=
  match node with
  | Leaf char _ _ =>
      self <- get_self ;;
      set_encoding_table (set Ascii.eqb (encoding_table self) char code)
  | Parent _ node_left node_right _ =>
      build_encoding_table node_left (code ++ "0") ;;
      build_encoding_table node_right (code ++ "1")
  end.

Definition write_alphabet_frequency (output : string) (af : dict ascii nat) : M unit :=
  open_write output ;;
  write_text output (str (List.length af) ++ nl) ;;
  for_each (keys af)
    (fun char =>
       write_text output (slice_1_m1 (repr char) ++ " ") ;;
       f <- lift (getitem af char) ;;
       write_text output (str f ++ nl)).

Definition pad_encoded_text (encoded_text : string) : string :=
  let extra_padding := 8 - len encoded_text mod 8 in
  let encoded_text :=
    fold_left (fun text _ => (text ++ "0")%string) (seq 0 extra_padding) encoded_text in
  let padded_info := format_08b extra_padding in
  (padded_info ++ encoded_text)%string.

(** The loop of [__encode]: [binary_code += self.encoding_table[char]]. *)
Definition encode_loop (content : string) : M string :=
  for_fold (list_ascii_of_string content) EmptyString
    (fun binary_code char =>
       self <- get_self ;;
       code <- lift (getitem (encoding_table self) char) ;;
       ret (binary_code ++ code)%string).

Definition encode (content : string) : M string :=
  binary_code <- encode_loop content ;;
  ret (pad_encoded_text binary_code).

Definition get_byte_array (text : string) : M (list byte) :=
  (if negb (len text mod 8 =? 0)
   then print "Encoded text not padded properly" ;; exit 0
   else ret tt) ;;
  for_fold (range0 (len text) 8) []
    (fun b i =>
       let byte := slice text i (i + 8) in
       v <- lift (int2 byte) ;;
       lift (bytearray_append b v)).

Definition write_compressed_file (output : string) : M unit :=
  self <- get_self ;;
  file_content <- read_file (path self) ;;
  binary_code <- encode file_content ;;
  open_write output ;;
  b <- get_byte_array binary_code ;;
  write_bytes output b.

Definition get_output_path (entry_path : string) : string * string :=
  let bin_path := replace entry_path ".txt" "_comp.bin" in
  let freq_path := replace entry_path ".txt" "_freq.txt" in
  (bin_path, freq_path).

(** [compress], up to the two files it writes.  The two [print] calls that
    end it report floating-point figures computed from the sizes of the
    files; they change neither the files nor the object. *)
Definition compress : M unit :=
  self <- get_self ;;
  let '(bin_path, freq_path) := get_output_path (path self) in
  af <- create_alphabet_frequency ;;
  set_alphabet_frequency af ;;
  self <- get_self ;;
  tree <- lift (create_tree (alphabet_frequency self)) ;;
  build_encoding_table tree EmptyString ;;
  self <- get_self ;;
  write_alphabet_frequency freq_path (alphabet_frequency self) ;;
  write_compressed_file bin_path.

(** A state with a fresh [Compressor(path)] and one text file under that
    path. *)
Definition fresh (p : string) (content : string) : State :=
  mkState (init p) [(p, list_byte_of_string content)] [].


(* ------------------------------------------------------------------ *)
(** * Notions the properties are stated with *)
(* ------------------------------------------------------------------ *)

(** The name of the class of an exception. *)
Definition class_name (e : exn) : string :=
  match e with
  | IndexError => "IndexError"
  | KeyError _ => "KeyError"
  | ValueError => "ValueError"
  | FileNotFoundError _ => "FileNotFoundError"
  | SystemExit _ => "SystemExit"
  end.

(** Python's class hierarchy: the errors derive from [Exception];
    [SystemExit] does not, it is the request to leave the interpreter. *)
Definition is_Exception (e : exn) : bool :=
  match e with
  | SystemExit _ => false
  | _ => true
  end.

(** The exit status of the interpreter when the outcome is that of the
    whole program: 0 after a normal end, the argument of [exit], 1 after any
    other exception that nothing caught. *)
Definition exit_status {A : Type} (r : result A) : option Z :=
  match r with
  | Ok _ => Some 0%Z
  | Raise (SystemExit status) => Some status
  | Raise _ => Some 1%Z
  | OutOfFuel => None
  end.

(** The characters at the leaves of a tree, left to right. *)
Fixpoint tree_chars (node : Node) : list ascii :=
  match node with
  | Leaf c _ _ => [c]
  | Parent _ l r _ => tree_chars l ++ tree_chars r
  end.

(** The paths from a node to its leaves, each after the path [code] that
    leads to the node: 0 to the left, 1 to the right. *)
Fixpoint leaf_codes (node : Node) (code : string) : list (ascii * string) :=
  match node with
  | Leaf c _ _ => [(c, code)]
  | Parent _ l r _ => leaf_codes l (code ++ "0") ++ leaf_codes r (code ++ "1")
  end.

(** No code of the table is a prefix of the code of another symbol. *)
Definition prefix_free (table : dict ascii string) : Prop :=
  forall c1 k1 c2 k2,
    In (c1, k1) table -> In (c2, k2) table -> c1 <> c2 -> prefix k1 k2 = false.

(** The order a stable sort by [key] leaves: by key, and among equal keys
    the order [R] that held before. *)
Definition key_then {A : Type} (key : A -> nat) (R : A -> A -> Prop) (a b : A) : Prop :=
  key a < key b \/ (key a = key b /\ R a b).

(** The order the two sorts leave: by frequency, and by character among
    equal frequencies. *)
Definition freq_then_char (a b : ascii * nat) : Prop :=
  snd a < snd b \/ (snd a = snd b /\ nat_of_ascii (fst a) < nat_of_ascii (fst b)).

(** The layout of the frequency file, in the words of the specification:
    the count of symbols, then a line per symbol with the escaped symbol, a
    space and the frequency. *)
Definition escaped (c : ascii) : string := slice_1_m1 (repr c).

Definition sidecar_lines (af : dict ascii nat) : list string :=
  str (List.length af)
  :: map (fun item => (escaped (fst item) ++ " " ++ str (snd item))%string) af.

Fixpoint unlines (lines : list string) : string :=
  match lines with
  | [] => EmptyString
  | l :: rest => (l ++ nl ++ unlines rest)%string
  end.

(** A line holds no newline. *)
Fixpoint no_newline (s : string) : bool :=
  match s with
  | EmptyString => true
  | String c s' => negb (nat_of_ascii c =? 10) && no_newline s'
  end.

(** A string of binary digits. *)
Fixpoint is_bits (s : string) : bool :=
  match s with
  | EmptyString => true
  | String c s' => (Ascii.eqb c "0" || Ascii.eqb c "1") && is_bits s'
  end.

(** The number of occurrences of a character in a text. *)
Fixpoint occurrences (c : ascii) (content : string) : nat :=
  match content with
  | EmptyString => 0
  | String x rest => (if Ascii.eqb x c then 1 else 0) + occurrences c rest
  end.

(** The codes of the characters of a text, one after the other, as a table
    gives them. *)
Definition codes_of (table : dict ascii string) (content : string) : string :=
  fold_left (fun binary_code char =>
               (binary_code ++ get_default Ascii.eqb table char EmptyString)%string)
            (list_ascii_of_string content) EmptyString.

(** The bytes of a string of bits, group of 8 after group of 8: the loop of
    the grouping step as a function of the string alone. *)
Definition group_bytes (text : string) : result (list byte) :=
  fold_left (fun acc i =>
               b <-- acc ;;
               v <-- int2 (slice text i (i + 8)) ;;
               bytearray_append b v)
            (range0 (len text) 8) (Ok []).

(** Two states agree when their objects are equal, for the path [p], and
    the files under the paths of [W] hold the same bytes. *)
Definition agree (p : string) (W : list string) (s1 s2 : State) : Prop :=
  self s1 = self s2
  /\ path (self s1) = p
  /\ forall q, In q W -> get String.eqb (files s1) q = get String.eqb (files s2) q.

(** A method respects the agreement when, from two states that agree on
    [W], it ends with the same outcome in two states that still agree on
    [W], and that agree on [W'] when it returned. *)
Definition respects {A : Type} (p : string) (W W' : list string) (m : M A) : Prop :=
  forall s1 s2,
    agree p W s1 s2 ->
    fst (m s1) = fst (m s2)
    /\ agree p W (snd (m s1)) (snd (m s2))
    /\ (forall a, fst (m s1) = Ok a -> agree p W' (snd (m s1)) (snd (m s2))).

(* ------------------------------------------------------------------ *)
(** * Further parts of the source, and the notions of their properties *)
(* ------------------------------------------------------------------ *)

(** [Node.__lt__]: [self.frequency < other.frequency]. *)
Definition Node_lt (self other : Node) : bool :=
  frequency self <? frequency other.

(** [sum(self.alphabet_frequency.values())], the character count of
    [__compute_average_compressed_size_per_char]. *)
Definition number_of_chars (alphabet_frequency : dict ascii nat) : nat :=
  list_sum (map snd alphabet_frequency).

(** [os.path.getsize(p)]: the number of bytes of the file. *)
Definition getsize (p : string) : M nat :=
  fun s =>
    match get String.eqb (files s) p with
    | Some b => (Ok (List.length b), s)
    | None => (Raise (FileNotFoundError p), s)
    end.

(** The entries at the leaves of a tree, left to right. *)
Fixpoint tree_leaves (node : Node) : list (ascii * nat) :=
  match node with
  | Leaf c f _ => [(c, f)]
  | Parent _ l r _ => tree_leaves l ++ tree_leaves r
  end.

(** The longest path from a node to a leaf. *)
Fixpoint tree_height (node : Node) : nat :=
  match node with
  | Leaf _ _ _ => 0
  | Parent _ l r _ => S (Nat.max (tree_height l) (tree_height r))
  end.

(** What [__merge_nodes] promises of every internal node: its frequency is
    the sum of those of its children, the left child carries the label 0 and
    the right child the label 1, and the right child is not less than the
    left one. *)
Fixpoint merged (node : Node) : bool :=
  match node with
  | Leaf _ _ _ => true
  | Parent f l r _ =>
      (f =? frequency l + frequency r)
      && String.eqb (code l) "0" && String.eqb (code r) "1"
      && negb (Node_lt r l)
      && merged l && merged r
  end.

(** The codes that the labels of the nodes spell, from below a node to its
    leaves. *)
Fixpoint label_codes (node : Node) (above : string) : list (ascii * string) :=
  match node with
  | Leaf c _ k => [(c, (above ++ k)%string)]
  | Parent _ l r k => label_codes l (above ++ k) ++ label_codes r (above ++ k)
  end.

(** The bits of a sequence of bytes, eight per byte. *)
Fixpoint expand_bytes (b : list byte) : string :=
  match b with
  | [] => EmptyString
  | x :: rest => (format_08b (N.to_nat (Byte.to_N x)) ++ expand_bytes rest)%string
  end.

(** What the header promises a reader of the payload: the bits between the
    header and the padding it counts. *)
Definition strip_padding (padded : string) : result string :=
  extra <-- int2 (slice padded 0 8) ;;
  Ok (slice padded 8 (len padded - N.to_nat extra)).

(** A character repeated. *)
Fixpoint repeated (c : ascii) (n : nat) : string :=
  match n with
  | 0 => EmptyString
  | S n' => String c (repeated c n')
  end.

(** A string in which no dot is followed by the letter t, and which does
    not end with a dot: no place of it can start an occurrence of the
    extension [.txt], whatever follows the string. *)
Fixpoint no_dot_t (s : string) : bool :=
  match s with
  | EmptyString => true
  | String c s' =>
      (if Ascii.eqb c "."
       then match s' with
            | String d _ => negb (Ascii.eqb d "t")
            | EmptyString => false
            end
       else true)
      && no_dot_t s'
  end.


(** The state in which an object is used again: [Compressor(p)] has run
    once on a file holding [earlier], and the file under [p] now holds
    [content]. *)
Definition reused (p earlier content : string) : State :=
  let s := snd (compress (fresh p earlier)) in
  with_files s (set String.eqb (files s) p (list_byte_of_string content)).

(** The 256 characters. *)
Definition all_chars : list ascii := map ascii_of_nat (seq 0 256).

(** A method keeps to the paths of [W] when it leaves every other file as
    it was, and the path of the object too. *)
Definition keeps_to (W : list string) {A : Type} (m : M A) : Prop :=
  forall s,
    path (self (snd (m s))) = path (self s)
    /\ forall q, ~ In q W ->
                 get String.eqb (files (snd (m s))) q = get String.eqb (files s) q.

(** A method is quiet when it prints nothing and does not end with
    [exit]. *)
Definition quiet {A : Type} (m : M A) : Prop :=
  forall s,
    stdout (snd (m s)) = stdout s
    /\ forall status, fst (m s) <> Raise (SystemExit status).

(* ================================================================== *)
(** * Properties of the primitives *)
(* ================================================================== *)

Section SortedFacts.
Context {A : Type} (key : A -> nat).

Lemma insert_perm (x : A) (l : list A) :
  Permutation (insert key x l) (x :: l).
Proof.
  induction l as [|y l IH]; simpl; [reflexivity|].
  destruct (key x <=? key y); [reflexivity|].
  rewrite IH. apply perm_swap.
Qed.

Lemma sorted_perm (l : list A) : Permutation (sorted key l) l.
Proof.
  induction l as [|x l IH]; simpl; [reflexivity|].
  rewrite insert_perm. now constructor.
Qed.

Lemma sorted_length (l : list A) : List.length (sorted key l) = List.length l.
Proof. apply Permutation_length, sorted_perm. Qed.

Lemma sorted_in (l : list A) (x : A) : In x (sorted key l) <-> In x l.
Proof.
  split; apply Permutation_in; [|symmetry]; apply sorted_perm.
Qed.

Lemma insert_key_then (R : A -> A -> Prop) (x : A) (l : list A) :
  StronglySorted (key_then key R) l ->
  Forall (R x) l ->
  StronglySorted (key_then key R) (insert key x l).
Proof.
  induction l as [|y l IH]; intros Hs Hx; simpl.
  - constructor; constructor.
  - inversion Hs as [|? ? Hs' Hy]; subst.
    inversion Hx as [|? ? Rxy Hx']; subst.
    destruct (Nat.leb_spec (key x) (key y)) as [Hle|Hlt].
    + constructor; [assumption|].
      constructor.
      * unfold key_then. destruct (Nat.eq_dec (key x) (key y)); [right|left]; [tauto|lia].
      * rewrite Forall_forall in *. intros z Hz.
        specialize (Hy z Hz). specialize (Hx' z Hz).
        unfold key_then in *.
        destruct (Nat.eq_dec (key x) (key z)); [right; tauto|left; lia].
    + constructor; [now apply IH|].
      rewrite Forall_forall in *. intros z Hz.
      apply (Permutation_in _ (insert_perm x l)) in Hz.
      destruct Hz as [<-|Hz]; [left; lia|now apply Hy].
Qed.

Lemma sorted_key_then (R : A -> A -> Prop) (l : list A) :
  StronglySorted R l -> StronglySorted (key_then key R) (sorted key l).
Proof.
  induction 1 as [|x l Hs IH Hx]; simpl; [constructor|].
  apply insert_key_then; [assumption|].
  rewrite Forall_forall in *. intros y Hy. apply Hx.
  now apply sorted_in.
Qed.

(** The result is in ascending order of the keys. *)
Lemma sorted_ascending (l : list A) :
  StronglySorted (fun a b => key a <= key b) (sorted key l).
Proof.
  assert (H : StronglySorted (key_then key (fun _ _ => True)) (sorted key l)).
  { induction l as [|x l IH]; simpl; [constructor|].
    apply insert_key_then; [assumption|].
    apply Forall_forall; trivial. }
  revert H. generalize (sorted key l). intros l'.
  induction 1 as [|x l0 Hs IH Hx]; constructor; [assumption|].
  eapply Forall_impl; [|exact Hx].
  unfold key_then. intros; lia.
Qed.

(** The sort is stable: the elements of any one key keep their order. *)
Lemma insert_filter (k : nat) (x : A) (l : list A) :
  filter (fun a => key a =? k) (insert key x l)
  = filter (fun a => key a =? k) (x :: l).
Proof.
  induction l as [|y l IH]; [reflexivity|].
  simpl insert.
  destruct (Nat.leb_spec (key x) (key y)) as [Hle|Hlt]; [reflexivity|].
  simpl in *. rewrite IH.
  destruct (Nat.eqb_spec (key x) k), (Nat.eqb_spec (key y) k); try reflexivity.
  lia.
Qed.

Lemma sorted_stable (k : nat) (l : list A) :
  filter (fun a => key a =? k) (sorted key l) = filter (fun a => key a =? k) l.
Proof.
  induction l as [|x l IH]; [reflexivity|].
  simpl sorted. rewrite insert_filter.
  simpl. now rewrite IH.
Qed.
End SortedFacts.

Section DictFacts.
Context {K V : Type} (eqb : K -> K -> bool).
Hypothesis eqb_eq : forall x y, eqb x y = true <-> x = y.

Lemma eqb_refl (x : K) : eqb x x = true.
Proof. now apply eqb_eq. Qed.

Lemma eqb_neq (x y : K) : x <> y -> eqb x y = false.
Proof.
  intros H. destruct (eqb x y) eqn:E; [|reflexivity].
  now apply eqb_eq in E.
Qed.

Lemma eqb_dec (x y : K) : x = y \/ x <> y.
Proof.
  destruct (eqb x y) eqn:E; [left; now apply eqb_eq|].
  right. intros ->. rewrite eqb_refl in E. discriminate.
Qed.

Lemma in_keys_dec (l : list K) (k : K) : In k l \/ ~ In k l.
Proof.
  induction l as [|x l IH]; simpl; [tauto|].
  destruct (eqb_dec x k); tauto.
Qed.

Lemma get_set_same (d : dict K V) (k : K) (v : V) :
  get eqb (set eqb d k v) k = Some v.
Proof.
  induction d as [|[k' v'] d IH]; simpl.
  - now rewrite eqb_refl.
  - destruct (eqb k k') eqn:E; simpl; rewrite E; [reflexivity|exact IH].
Qed.

Lemma get_set_other (d : dict K V) (k k' : K) (v : V) :
  k <> k' -> get eqb (set eqb d k v) k' = get eqb d k'.
Proof.
  intros Hne. induction d as [|[k0 v0] d IH]; simpl.
  - rewrite eqb_neq; [reflexivity|congruence].
  - destruct (eqb k k0) eqn:E; simpl; [|now rewrite IH].
    apply eqb_eq in E. subst k0.
    rewrite (eqb_neq k' k) by congruence. reflexivity.
Qed.

Lemma get_none (d : dict K V) (k : K) :
  get eqb d k = None <-> ~ In k (keys d).
Proof.
  induction d as [|[k' v'] d IH]; simpl; [tauto|].
  destruct (eqb k k') eqn:E.
  - apply eqb_eq in E. subst. split; [discriminate|tauto].
  - rewrite IH. split; [|tauto].
    intros H [->|H']; [|tauto].
    rewrite eqb_refl in E. discriminate.
Qed.

Lemma get_some_in (d : dict K V) (k : K) (v : V) :
  get eqb d k = Some v -> In (k, v) d.
Proof.
  induction d as [|[k' v'] d IH]; simpl; [discriminate|].
  destruct (eqb k k') eqn:E; [|auto].
  apply eqb_eq in E. subst. intros [= ->]. now left.
Qed.

Lemma get_in (d : dict K V) (k : K) (v : V) :
  NoDup (keys d) -> In (k, v) d -> get eqb d k = Some v.
Proof.
  induction d as [|[k' v'] d IH]; simpl; [tauto|].
  intros Hnd [[= -> ->]|Hin].
  - now rewrite eqb_refl.
  - inversion Hnd as [|? ? Hnotin Hnd']; subst.
    rewrite eqb_neq; [now apply IH|].
    intros ->. apply Hnotin. now apply (in_map fst) in Hin.
Qed.

Lemma set_absent (d : dict K V) (k : K) (v : V) :
  ~ In k (keys d) -> set eqb d k v = d ++ [(k, v)].
Proof.
  induction d as [|[k' v'] d IH]; simpl; [reflexivity|].
  intros H. rewrite eqb_neq by (intros ->; tauto).
  rewrite IH; tauto.
Qed.

Lemma keys_set_present (d : dict K V) (k : K) (v : V) :
  In k (keys d) -> keys (set eqb d k v) = keys d.
Proof.
  induction d as [|[k' v'] d IH]; simpl; [tauto|].
  intros H. destruct (eqb k k') eqn:E; [reflexivity|].
  simpl. f_equal. apply IH. destruct H as [->|H]; [|exact H].
  rewrite eqb_refl in E. discriminate.
Qed.

Lemma set_set (d : dict K V) (k : K) (v w : V) :
  set eqb (set eqb d k v) k w = set eqb d k w.
Proof.
  induction d as [|[k' v'] d IH]; simpl.
  - now rewrite eqb_refl.
  - destruct (eqb k k') eqn:E; simpl; rewrite E; [reflexivity|].
    now rewrite IH.
Qed.

(** Writing items with fresh, distinct keys appends them. *)
Lemma fold_set_fresh (items : list (K * V)) (d : dict K V) :
  NoDup (keys (d ++ items)) ->
  fold_left (fun d kv => set eqb d (fst kv) (snd kv)) items d = d ++ items.
Proof.
  revert d. induction items as [|[k v] items IH]; intros d Hnd; simpl.
  - now rewrite app_nil_r.
  - rewrite set_absent.
    + rewrite IH; rewrite <- app_assoc; [reflexivity|exact Hnd].
    + unfold keys in *. rewrite map_app in Hnd. simpl in Hnd.
      apply NoDup_remove_2 in Hnd. intros H. apply Hnd.
      apply in_or_app. now left.
Qed.

Lemma of_items_nodup (items : list (K * V)) :
  NoDup (keys items) -> of_items eqb items = items.
Proof. intros H. unfold of_items. now rewrite fold_set_fresh. Qed.

(** What a key holds after a run of writes depends on the earlier content
    only when no write was to that key. *)
Lemma get_fold_set_other (items : list (K * V)) (d : dict K V) (k : K) :
  ~ In k (keys items) ->
  get eqb (fold_left (fun d kv => set eqb d (fst kv) (snd kv)) items d) k
  = get eqb d k.
Proof.
  revert d. induction items as [|[k0 v0] items IH]; intros d Hk; simpl; [reflexivity|].
  simpl in Hk. rewrite IH by tauto.
  apply get_set_other. intros ->. tauto.
Qed.

Lemma get_fold_set_written (items : list (K * V)) (d1 d2 : dict K V) (k : K) :
  In k (keys items) ->
  get eqb (fold_left (fun d kv => set eqb d (fst kv) (snd kv)) items d1) k
  = get eqb (fold_left (fun d kv => set eqb d (fst kv) (snd kv)) items d2) k.
Proof.
  revert d1 d2. induction items as [|[k0 v0] items IH]; intros d1 d2 Hk; simpl; [easy|].
  destruct (in_keys_dec (keys items) k) as [Hin|Hout]; [now apply IH|].
  rewrite !get_fold_set_other by assumption.
  destruct Hk as [Hk|Hk]; [|tauto]. simpl in Hk. subst k0.
  now rewrite !get_set_same.
Qed.

Lemma keys_set (d : dict K V) (k : K) (v : V) :
  keys (set eqb d k v) = keys d \/ (~ In k (keys d) /\ keys (set eqb d k v) = keys d ++ [k]).
Proof.
  destruct (in_keys_dec (keys d) k) as [Hin|Hout].
  - left. now apply keys_set_present.
  - right. split; [assumption|].
    rewrite set_absent by assumption. unfold keys. now rewrite map_app.
Qed.

Lemma nodup_keys_set (d : dict K V) (k : K) (v : V) :
  NoDup (keys d) -> NoDup (keys (set eqb d k v)).
Proof.
  intros H. destruct (keys_set d k v) as [->|[Hout ->]]; [assumption|].
  apply NoDup_app; [assumption|repeat constructor; tauto|].
  intros x Hx [<-|[]]. tauto.
Qed.
End DictFacts.

(* ================================================================== *)
(** * The frequency analyser *)
(* ================================================================== *)

Lemma ascii_eqb_eq (x y : ascii) : Ascii.eqb x y = true <-> x = y.
Proof. apply Ascii.eqb_eq. Qed.

Lemma string_eqb_eq (x y : string) : String.eqb x y = true <-> x = y.
Proof. apply String.eqb_eq. Qed.

Lemma count_fold_held (content : string) (af : dict ascii nat) (c : ascii) :
  get_default Ascii.eqb (fold_left count_step (list_ascii_of_string content) af) c 0
  = get_default Ascii.eqb af c 0 + occurrences c content.
Proof.
  revert af. induction content as [|x rest IH]; intros af; simpl; [lia|].
  rewrite IH. unfold count_step at 1. unfold get_default at 1.
  destruct (Ascii.eqb x c) eqn:E.
  - apply ascii_eqb_eq in E. subst x.
    rewrite (get_set_same _ ascii_eqb_eq). lia.
  - rewrite (get_set_other _ ascii_eqb_eq).
    + unfold get_default. lia.
    + intros ->. rewrite Ascii.eqb_refl in E. discriminate.
Qed.

Lemma count_fold_nodup (content : string) (af : dict ascii nat) :
  NoDup (keys af) ->
  NoDup (keys (fold_left count_step (list_ascii_of_string content) af)).
Proof.
  revert af. induction content as [|x rest IH]; intros af H; simpl; [assumption|].
  apply IH. now apply (nodup_keys_set _ ascii_eqb_eq).
Qed.

Lemma in_set_inv (af : dict ascii nat) (k c : ascii) (v f : nat) :
  In (c, f) (set Ascii.eqb af k v) -> In (c, f) af \/ (c = k /\ f = v).
Proof.
  induction af as [|[k0 v0] af IH]; simpl.
  - intros [[= <- <-]|[]]. now right.
  - destruct (Ascii.eqb k k0) eqn:E; simpl.
    + apply ascii_eqb_eq in E. subst k0.
      intros [[= <- <-]|H]; [now right|left; now right].
    + intros [H|H]; [left; now left|].
      destruct (IH H) as [H'|H']; [left; now right|now right].
Qed.

Lemma count_fold_positive (content : string) (af : dict ascii nat) :
  (forall c f, In (c, f) af -> 0 < f) ->
  forall c f, In (c, f) (fold_left count_step (list_ascii_of_string content) af) -> 0 < f.
Proof.
  revert af. induction content as [|x rest IH]; intros af H; simpl; [assumption|].
  apply IH. intros c f Hin. unfold count_step in Hin.
  apply in_set_inv in Hin. destruct Hin as [Hin|[_ ->]]; [eauto|lia].
Qed.

(** The counting loop: one entry per character that occurs, holding the
    number of its occurrences. *)
Lemma count_characters_nodup (content : string) :
  NoDup (keys (count_characters content)).
Proof. apply count_fold_nodup. constructor. Qed.

Lemma count_characters_spec (content : string) (c : ascii) (f : nat) :
  In (c, f) (count_characters content) <-> f = occurrences c content /\ 0 < f.
Proof.
  pose proof (count_fold_held content [] c) as Hheld.
  fold (count_characters content) in Hheld.
  unfold get_default in Hheld. simpl in Hheld.
  split.
  - intros Hin.
    assert (Hpos : 0 < f).
    { apply (count_fold_positive content [] ltac:(simpl; tauto) c f Hin). }
    rewrite (get_in _ ascii_eqb_eq _ _ _ (count_characters_nodup content) Hin) in Hheld.
    lia.
  - intros [-> Hpos].
    destruct (get Ascii.eqb (count_characters content) c) as [n|] eqn:E; [|lia].
    subst n. now apply (get_some_in _ ascii_eqb_eq).
Qed.

Lemma nat_of_ascii_inj (a b : ascii) : nat_of_ascii a = nat_of_ascii b -> a = b.
Proof.
  intros H. rewrite <- (ascii_nat_embedding a), <- (ascii_nat_embedding b).
  now rewrite H.
Qed.

Lemma ascending_nodup_strict {A : Type} (key : A -> nat) (l : list A) :
  StronglySorted (fun a b => key a <= key b) l ->
  NoDup (map key l) ->
  StronglySorted (fun a b => key a < key b) l.
Proof.
  induction 1 as [|x l Hs IH Hx]; intros Hnd; [constructor|].
  simpl in Hnd. inversion Hnd as [|? ? Hnotin Hnd']; subst.
  constructor; [now apply IH|].
  rewrite Forall_forall in *. intros y Hy.
  specialize (Hx y Hy).
  assert (key x <> key y); [|lia].
  intros E. apply Hnotin. rewrite E. now apply in_map.
Qed.

Lemma nodup_char_keys (af : dict ascii nat) :
  NoDup (keys af) -> NoDup (map (fun item => nat_of_ascii (fst item)) af).
Proof.
  unfold keys. induction af as [|[c f] af IH]; simpl; intros H; [constructor|].
  inversion H as [|? ? Hnotin Hnd]; subst.
  constructor; [|now apply IH].
  rewrite in_map_iff. intros [[c' f'] [E Hin]]. simpl in E.
  apply nat_of_ascii_inj in E. subst c'.
  apply Hnotin. now apply (in_map fst) in Hin.
Qed.

(** The two sorts on a dictionary: the conversions back to a dictionary keep
    the order, which is by frequency and then by character. *)
Lemma sort_alphabet_frequency_two_stage (af : dict ascii nat) :
  NoDup (keys af) ->
  sort_alphabet_frequency af
  = sorted (fun item => snd item) (sorted (fun item => nat_of_ascii (fst item)) af).
Proof.
  intros H. unfold sort_alphabet_frequency.
  assert (H1 : NoDup (keys (sorted (fun item : ascii * nat => nat_of_ascii (fst item)) af))).
  { eapply Permutation_NoDup; [|exact H].
    unfold keys. apply Permutation_map. symmetry. apply sorted_perm. }
  rewrite (of_items_nodup _ ascii_eqb_eq _ H1).
  apply (of_items_nodup _ ascii_eqb_eq).
  eapply Permutation_NoDup; [|exact H1].
  unfold keys. apply Permutation_map. symmetry. apply sorted_perm.
Qed.

Lemma sort_alphabet_frequency_perm (af : dict ascii nat) :
  NoDup (keys af) -> Permutation (sort_alphabet_frequency af) af.
Proof.
  intros H. rewrite sort_alphabet_frequency_two_stage by assumption.
  now rewrite !sorted_perm.
Qed.

Lemma sort_alphabet_frequency_order (af : dict ascii nat) :
  NoDup (keys af) -> StronglySorted freq_then_char (sort_alphabet_frequency af).
Proof.
  intros H. rewrite sort_alphabet_frequency_two_stage by assumption.
  apply (sorted_key_then (fun item : ascii * nat => snd item)
           (fun a b => nat_of_ascii (fst a) < nat_of_ascii (fst b))).
  apply (ascending_nodup_strict (fun item : ascii * nat => nat_of_ascii (fst item))).
  - apply sorted_ascending.
  - eapply Permutation_NoDup; [|apply nodup_char_keys; exact H].
    apply Permutation_map. symmetry. apply sorted_perm.
Qed.

(* ================================================================== *)
(** * The tree builder *)
(* ================================================================== *)

Lemma create_leaves_fold (af : dict ascii nat) (items : list (ascii * nat))
      (nodes : list Node) :
  (forall c f, In (c, f) items -> get Ascii.eqb af c = Some f) ->
  fold_left
    (fun acc char =>
       nodes <-- acc ;;
       f <-- getitem af char ;;
       Ok (nodes ++ [Leaf char f EmptyString]))
    (keys items) (Ok nodes)
  = Ok (nodes ++ map (fun item => Leaf (fst item) (snd item) EmptyString) items).
Proof.
  revert nodes. induction items as [|[c f] items IH]; intros nodes H; simpl.
  - now rewrite app_nil_r.
  - unfold getitem at 2. rewrite (H c f) by now left. simpl.
    rewrite IH by (intros; apply H; now right).
    now rewrite <- app_assoc.
Qed.

(** The leaves are created in the order of the dictionary, one per entry. *)
Lemma create_leaves_items (af : dict ascii nat) :
  NoDup (keys af) ->
  create_leaves af = Ok (map (fun item => Leaf (fst item) (snd item) EmptyString) af).
Proof.
  intros H. unfold create_leaves.
  now rewrite (create_leaves_fold af af []) by (intros; now apply (get_in _ ascii_eqb_eq)).
Qed.

Lemma Node_eqb_refl (n : Node) : Node_eqb n n = true.
Proof.
  induction n as [c f k|f l IHl r IHr k]; simpl.
  - now rewrite Ascii.eqb_refl, Nat.eqb_refl, String.eqb_refl.
  - now rewrite Nat.eqb_refl, IHl, IHr, String.eqb_refl.
Qed.

(** On a list in ascending order of frequency the scan keeps the first two
    nodes. *)
Lemma scan_keeps (rest : list Node) (m1 m2 : Node) :
  frequency m1 <= frequency m2 ->
  Forall (fun n => frequency m2 <= frequency n) rest ->
  fold_left
    (fun mins node =>
       let '(min_node1, min_node2) := mins in
       if frequency node <? frequency min_node1 then (node, min_node1)
       else if frequency node <? frequency min_node2 then (min_node1, node)
       else (min_node1, min_node2))
    rest (m1, m2)
  = (m1, m2).
Proof.
  intros H12. induction 1 as [|n rest Hn Hrest IH]; simpl; [reflexivity|].
  destruct (Nat.ltb_spec (frequency n) (frequency m1)); [lia|].
  destruct (Nat.ltb_spec (frequency n) (frequency m2)); [lia|].
  exact IH.
Qed.

Lemma get_two_smallest_nodes_ascending (n0 n1 : Node) (rest : list Node) :
  StronglySorted (fun a b => frequency a <= frequency b) (n0 :: n1 :: rest) ->
  get_two_smallest_nodes (n0 :: n1 :: rest) = Ok (n0, n1).
Proof.
  intros H. inversion H as [|? ? H1 H0]; subst.
  inversion H1 as [|? ? H2 H1']; subst.
  inversion H0 as [|? ? H01 _]; subst.
  unfold get_two_smallest_nodes.
  destruct (Nat.ltb_spec (frequency n1) (frequency n0)); [lia|].
  now rewrite scan_keeps.
Qed.

(** One turn of the loop: the two nodes at the front of the sorted list
    leave it, and their parent goes to its end. *)
Lemma create_tree_turn_sorted (nodes rest : list Node) (n0 n1 : Node) :
  sorted frequency nodes = n0 :: n1 :: rest ->
  create_tree_turn nodes
  = Ok (rest ++ [Parent (frequency n0 + frequency n1)
                        (set_code n0 "0") (set_code n1 "1") EmptyString]).
Proof.
  intros E. unfold create_tree_turn.
  pose proof (sorted_ascending frequency nodes) as Hs. rewrite E in *.
  rewrite (get_two_smallest_nodes_ascending _ _ _ Hs). simpl.
  unfold merge_nodes. simpl.
  rewrite !Node_eqb_refl. simpl.
  rewrite !Node_eqb_refl. reflexivity.
Qed.

Lemma tree_chars_set_code (n : Node) (c : string) :
  tree_chars (set_code n c) = tree_chars n.
Proof. now destruct n. Qed.

(** The loop ends within the turns it is given, on a single tree that holds
    the characters of all the nodes it started from. *)
Lemma create_tree_loop_root (fuel : nat) (nodes : list Node) :
  nodes <> [] ->
  List.length nodes <= S fuel ->
  exists root,
    create_tree_loop fuel nodes = Ok [root]
    /\ Permutation (tree_chars root) (flat_map tree_chars nodes).
Proof.
  revert nodes. induction fuel as [|fuel IH]; intros nodes Hne Hlen.
  - destruct nodes as [|n [|n' nodes]]; [congruence| |simpl in Hlen; lia].
    exists n. simpl. now rewrite app_nil_r.
  - destruct nodes as [|n [|n' nodes]]; [congruence| |].
    + exists n. simpl. now rewrite app_nil_r.
    + remember (n :: n' :: nodes) as l eqn:El.
      assert (Hl : 2 <= List.length l) by (subst l; simpl; lia).
      pose proof (sorted_length frequency l) as Hsl.
      pose proof (sorted_perm frequency l) as Hsp.
      destruct (sorted frequency l) as [|n0 [|n1 rest]] eqn:Es;
        [simpl in Hsl; lia|simpl in Hsl; lia|].
      simpl in Hsl.
      destruct (IH (rest ++ [Parent (frequency n0 + frequency n1)
                                    (set_code n0 "0") (set_code n1 "1") EmptyString]))
        as [root [Hroot Hperm]].
      * destruct rest; discriminate.
      * rewrite length_app. simpl. lia.
      * exists root. split.
        -- unfold create_tree_loop; fold create_tree_loop.
           destruct (Nat.ltb_spec 1 (List.length l)); [|lia].
           rewrite (create_tree_turn_sorted l rest n0 n1 Es). simpl. exact Hroot.
        -- rewrite Hperm. rewrite flat_map_app. simpl.
           rewrite !tree_chars_set_code, app_nil_r.
           rewrite <- Hsp. simpl.
           rewrite Permutation_app_comm. now rewrite app_assoc.
Qed.

Lemma create_tree_empty : create_tree [] = Raise IndexError.
Proof. reflexivity. Qed.

(** On a dictionary that is not empty the builder returns a tree, whose
    leaves hold the keys of the dictionary, each once. *)
Lemma create_tree_root (af : dict ascii nat) :
  NoDup (keys af) ->
  af <> [] ->
  exists root,
    create_tree af = Ok root /\ Permutation (tree_chars root) (keys af).
Proof.
  intros Hnd Hne. unfold create_tree.
  rewrite create_leaves_items by assumption. simpl.
  set (leaves := map (fun item : ascii * nat => Leaf (fst item) (snd item) EmptyString) af).
  destruct (create_tree_loop_root (List.length leaves) leaves) as [root [Hloop Hperm]].
  - subst leaves. destruct af; [congruence|discriminate].
  - lia.
  - exists root. rewrite Hloop. simpl. split; [reflexivity|].
    rewrite Hperm. subst leaves. unfold keys.
    clear. induction af as [|[c f] af IH]; simpl; [reflexivity|].
    now constructor.
Qed.

Lemma create_leaves_ok (af : dict ascii nat) :
  exists nodes, create_leaves af = Ok nodes /\ List.length nodes = List.length af.
Proof.
  unfold create_leaves.
  assert (H : forall (items : list (ascii * nat)) (nodes : list Node),
             (forall c, In c (keys items) -> get Ascii.eqb af c <> None) ->
             exists nodes',
               fold_left
                 (fun acc char =>
                    nodes <-- acc ;;
                    f <-- getitem af char ;;
                    Ok (nodes ++ [Leaf char f EmptyString]))
                 (keys items) (Ok nodes) = Ok nodes'
               /\ List.length nodes' = List.length nodes + List.length items).
  { induction items as [|[c f] items IH]; intros nodes Hin; simpl.
    - exists nodes. split; [reflexivity|lia].
    - unfold getitem at 2.
      destruct (get Ascii.eqb af c) as [f'|] eqn:E.
      + simpl. destruct (IH (nodes ++ [Leaf c f' EmptyString])) as [nodes' [E' Hl]].
        * intros c' Hc'. apply Hin. now right.
        * exists nodes'. split; [exact E'|]. rewrite Hl, length_app. simpl. lia.
      + exfalso. apply (Hin c); [now left|exact E]. }
  destruct (H af []) as [nodes [E Hl]].
  - intros c Hc. now rewrite (get_none _ ascii_eqb_eq).
  - exists nodes. split; [exact E|exact Hl].
Qed.

(** The bound on the turns of the loop is never reached: the builder ends
    with a tree or with the [IndexError] of the empty list. *)
Lemma create_tree_fuel_enough (af : dict ascii nat) :
  (exists root, create_tree af = Ok root) \/ create_tree af = Raise IndexError.
Proof.
  unfold create_tree.
  destruct (create_leaves_ok af) as [nodes [-> Hl]]. simpl.
  destruct nodes as [|n nodes]; [now right|].
  destruct (create_tree_loop_root (List.length (n :: nodes)) (n :: nodes))
    as [root [-> _]]; [discriminate|lia|].
  left. now exists root.
Qed.

(* ================================================================== *)
(** * Strings *)
(* ================================================================== *)

Lemma append_assoc (a b c : string) : ((a ++ b) ++ c = a ++ (b ++ c))%string.
Proof. induction a as [|x a IH]; simpl; [reflexivity|now rewrite IH]. Qed.

Lemma append_nil_r (a : string) : (a ++ EmptyString)%string = a.
Proof. induction a as [|x a IH]; simpl; [reflexivity|now rewrite IH]. Qed.

Lemma length_append (a b : string) :
  String.length (a ++ b) = String.length a + String.length b.
Proof. induction a as [|x a IH]; simpl; [reflexivity|now rewrite IH]. Qed.

Lemma list_byte_of_string_append (a b : string) :
  list_byte_of_string (a ++ b) = list_byte_of_string a ++ list_byte_of_string b.
Proof.
  unfold list_byte_of_string.
  induction a as [|x a IH]; simpl; [reflexivity|now rewrite IH].
Qed.

(** Two paths that part ways are not prefixes of each other. *)
Lemma prefix_fork (code : string) (x y : ascii) (s1 s2 : string) :
  x <> y ->
  prefix (code ++ String x s1) (code ++ String y s2) = false.
Proof.
  intros Hxy. induction code as [|a code IH]; simpl.
  - destruct (ascii_dec x y); [congruence|reflexivity].
  - destruct (ascii_dec a a); [exact IH|congruence].
Qed.

(* ================================================================== *)
(** * The encoding table *)
(* ================================================================== *)

Lemma leaf_codes_keys (node : Node) (code : string) :
  keys (leaf_codes node code) = tree_chars node.
Proof.
  revert code. induction node as [c f k|f l IHl r IHr k]; intros code; simpl; [reflexivity|].
  unfold keys in *. now rewrite map_app, IHl, IHr.
Qed.

Lemma leaf_codes_extend (node : Node) (code : string) (c : ascii) (k : string) :
  In (c, k) (leaf_codes node code) -> exists rest, k = (code ++ rest)%string.
Proof.
  revert code. induction node as [c0 f k0|f l IHl r IHr k0]; intros code; simpl.
  - intros [[= <- <-]|[]]. exists EmptyString. now rewrite append_nil_r.
  - intros H. apply in_app_or in H. destruct H as [H|H].
    + destruct (IHl _ H) as [rest ->]. exists ("0" ++ rest)%string. apply append_assoc.
    + destruct (IHr _ H) as [rest ->]. exists ("1" ++ rest)%string. apply append_assoc.
Qed.

(** The paths to two different characters part ways. *)
Lemma leaf_codes_prefix_free (node : Node) (code : string) :
  prefix_free (leaf_codes node code).
Proof.
  unfold prefix_free. revert code.
  induction node as [c f k|f l IHl r IHr k]; intros code c1 k1 c2 k2; simpl.
  - intros [[= <- <-]|[]] [[= <- <-]|[]]. congruence.
  - intros H1 H2 Hne.
    apply in_app_or in H1. apply in_app_or in H2.
    destruct H1 as [H1|H1], H2 as [H2|H2]; eauto.
    + destruct (leaf_codes_extend _ _ _ _ H1) as [s1 ->].
      destruct (leaf_codes_extend _ _ _ _ H2) as [s2 ->].
      rewrite !append_assoc. simpl. now apply prefix_fork.
    + destruct (leaf_codes_extend _ _ _ _ H1) as [s1 ->].
      destruct (leaf_codes_extend _ _ _ _ H2) as [s2 ->].
      rewrite !append_assoc. simpl. now apply prefix_fork.
Qed.

(** The traversal writes the path of every leaf into the table, left to
    right, and touches nothing else. *)
Lemma build_encoding_table_run (node : Node) (code : string) (s : State) :
  build_encoding_table node code s
  = (Ok tt,
     with_encoding_table s
       (fold_left (fun d kv => set Ascii.eqb d (fst kv) (snd kv))
                  (leaf_codes node code) (encoding_table (self s)))).
Proof.
  revert code s. induction node as [c f k|f l IHl r IHr k]; intros code s; simpl.
  - reflexivity.
  - unfold bind. rewrite IHl, IHr. simpl. now rewrite fold_left_app.
Qed.

(** From an empty table, the table is the list of the paths. *)
Lemma build_encoding_table_fresh (node : Node) (s : State) :
  NoDup (tree_chars node) ->
  encoding_table (self s) = [] ->
  encoding_table (self (snd (build_encoding_table node EmptyString s)))
  = leaf_codes node EmptyString.
Proof.
  intros Hnd He. rewrite build_encoding_table_run. simpl. rewrite He.
  apply (fold_set_fresh _ ascii_eqb_eq). simpl. now rewrite leaf_codes_keys.
Qed.

Lemma count_characters_nonempty (content : string) :
  content <> EmptyString -> count_characters content <> [].
Proof.
  destruct content as [|x rest]; [congruence|]. intros _ E.
  assert (H : In (x, occurrences x (String x rest)) (count_characters (String x rest))).
  { apply count_characters_spec. split; [reflexivity|].
    simpl. rewrite Ascii.eqb_refl. lia. }
  rewrite E in H. exact H.
Qed.

Lemma alphabet_nodup (content : string) :
  NoDup (keys (sort_alphabet_frequency (count_characters content))).
Proof.
  eapply Permutation_NoDup; [|apply count_characters_nodup].
  unfold keys. apply Permutation_map. symmetry.
  apply sort_alphabet_frequency_perm, count_characters_nodup.
Qed.

Lemma alphabet_nonempty (content : string) :
  content <> EmptyString ->
  sort_alphabet_frequency (count_characters content) <> [].
Proof.
  intros H E. apply (count_characters_nonempty content H).
  pose proof (sort_alphabet_frequency_perm _ (count_characters_nodup content)) as P.
  rewrite E in P. now apply Permutation_nil in P.
Qed.

Lemma read_text_run (s : State) (p content : string) :
  file_text (files s) p = Some content ->
  read_text p s = (Ok content, s).
Proof. intros H. unfold read_text. now rewrite H. Qed.

(** Writing under another path leaves the text of a file as it is. *)
Lemma file_text_set_other (fs : dict string (list byte)) (p q : string) (b : list byte) :
  q <> p -> file_text (set String.eqb fs q b) p = file_text fs p.
Proof.
  intros H. unfold file_text. now rewrite (get_set_other _ string_eqb_eq).
Qed.

Lemma create_alphabet_frequency_run (s : State) (content : string) :
  file_text (files s) (path (self s)) = Some content ->
  create_alphabet_frequency s
  = (Ok (sort_alphabet_frequency (count_characters content)), s).
Proof.
  intros H. unfold create_alphabet_frequency, bind, get_self.
  now rewrite (read_text_run s _ content H).
Qed.

(** C6.  The frequency analyser returns a dictionary that holds, for every
    character of the text, the number of its occurrences; its entries come
    in the order left by a sort by character followed by a stable sort by
    frequency, that is by ascending frequency and, among equal frequencies,
    by ascending character; and the tree builder creates its leaves in that
    same order, one per entry. *)
Theorem analyser_two_stage_order (s : State) (content : string) :
  file_text (files s) (path (self s)) = Some content ->
  exists af,
    create_alphabet_frequency s = (Ok af, s)
    /\ (forall c f, In (c, f) af <-> f = occurrences c content /\ 0 < f)
    /\ NoDup (keys af)
    /\ af = sorted (fun item => snd item)
              (sorted (fun item => nat_of_ascii (fst item)) (count_characters content))
    /\ StronglySorted freq_then_char af
    /\ create_leaves af
       = Ok (map (fun item => Leaf (fst item) (snd item) EmptyString) af).
Proof.
  intros H. exists (sort_alphabet_frequency (count_characters content)).
  pose proof (count_characters_nodup content) as Hnd.
  split; [now apply create_alphabet_frequency_run|].
  split.
  { intros c f. rewrite <- count_characters_spec.
    split; apply Permutation_in;
      [|symmetry]; now apply sort_alphabet_frequency_perm. }
  split; [apply alphabet_nodup|].
  split; [now apply sort_alphabet_frequency_two_stage|].
  split; [now apply sort_alphabet_frequency_order|].
  apply create_leaves_items, alphabet_nodup.
Qed.

Lemma analyser_two_stage_order_witness :
  file_text (files (fresh "aaab.txt" "aaab")) (path (self (fresh "aaab.txt" "aaab")))
  = Some "aaab"
  /\ exists af,
    create_alphabet_frequency (fresh "aaab.txt" "aaab") = (Ok af, fresh "aaab.txt" "aaab")
    /\ (forall c f, In (c, f) af <-> f = occurrences c "aaab" /\ 0 < f)
    /\ NoDup (keys af)
    /\ af = sorted (fun item => snd item)
              (sorted (fun item => nat_of_ascii (fst item)) (count_characters "aaab"))
    /\ StronglySorted freq_then_char af
    /\ create_leaves af
       = Ok (map (fun item => Leaf (fst item) (snd item) EmptyString) af).
Proof.
  split; [reflexivity|].
  apply (analyser_two_stage_order (fresh "aaab.txt" "aaab") "aaab").
  reflexivity.
Defined.




(* ================================================================== *)
(** * The bit packer *)
(* ================================================================== *)

Lemma len_zeros (n : nat) : len (zeros n) = n.
Proof. unfold len. induction n as [|n IH]; simpl; congruence. Qed.

(** The padding loop appends as many zeros as it has turns. *)
Lemma padding_loop (n start : nat) (text : string) :
  fold_left (fun t (_ : nat) => (t ++ "0")%string) (seq start n) text
  = (text ++ zeros n)%string.
Proof.
  revert start text. induction n as [|n IH]; intros start text; simpl.
  - now rewrite append_nil_r.
  - rewrite IH, append_assoc. reflexivity.
Qed.

Lemma extra_padding_range (n : nat) : 1 <= 8 - n mod 8 <= 8.
Proof. pose proof (Nat.mod_upper_bound n 8). lia. Qed.

(** The header of a padding count between 1 and 8: eight binary digits,
    most significant first, whose value is the count. *)
Lemma format_08b_header (extra : nat) :
  1 <= extra <= 8 ->
  len (format_08b extra) = 8
  /\ is_bits (format_08b extra) = true
  /\ int2 (format_08b extra) = Ok (N.of_nat extra).
Proof.
  intros H.
  assert (E : extra = 1 \/ extra = 2 \/ extra = 3 \/ extra = 4
              \/ extra = 5 \/ extra = 6 \/ extra = 7 \/ extra = 8) by lia.
  repeat (destruct E as [->|E]); try subst extra; repeat split; reflexivity.
Qed.

Lemma pad_encoded_text_shape (text : string) :
  pad_encoded_text text
  = (format_08b (8 - len text mod 8) ++ text ++ zeros (8 - len text mod 8))%string.
Proof. unfold pad_encoded_text. now rewrite padding_loop. Qed.

Lemma substring_prefix (a b : string) : substring 0 (String.length a) (a ++ b) = a.
Proof.
  induction a as [|x a IH]; simpl; [now destruct b|now rewrite IH].
Qed.

Lemma pad_encoded_text_length (text : string) :
  len (pad_encoded_text text) = 8 + len text + (8 - len text mod 8).
Proof.
  rewrite pad_encoded_text_shape. unfold len at 1.
  rewrite !length_append.
  destruct (format_08b_header _ (extra_padding_range (len text))) as [Hl _].
  unfold len in *. rewrite Hl.
  pose proof (len_zeros (8 - String.length text mod 8)) as Hz. unfold len in Hz.
  rewrite Hz. lia.
Qed.

Lemma pad_encoded_text_aligned (text : string) :
  len (pad_encoded_text text) mod 8 = 0.
Proof.
  rewrite pad_encoded_text_length.
  pose proof (Nat.div_mod_eq (len text) 8) as Hd.
  pose proof (Nat.mod_upper_bound (len text) 8) as Hb.
  replace (8 + len text + (8 - len text mod 8)) with ((len text / 8 + 2) * 8) by lia.
  apply Nat.Div0.mod_mul.
Qed.

(** C4.  The padder appends [extra = 8 - (length mod 8)] zeros to the bit
    string, which makes 8 of them when the length is already a multiple of
    8, and puts in front the header: [extra] written as eight binary digits,
    most significant first. *)
Theorem pad_encoded_text_layout (encoded_text : string) :
  let extra := 8 - len encoded_text mod 8 in
  pad_encoded_text encoded_text
  = (format_08b extra ++ encoded_text ++ zeros extra)%string
  /\ len (zeros extra) = extra
  /\ len (format_08b extra) = 8
  /\ is_bits (format_08b extra) = true
  /\ int2 (format_08b extra) = Ok (N.of_nat extra)
  /\ (len encoded_text mod 8 = 0 ->
      extra = 8
      /\ pad_encoded_text encoded_text = ("00001000" ++ encoded_text ++ "00000000")%string).
Proof.
  intros extra.
  destruct (format_08b_header extra (extra_padding_range (len encoded_text)))
    as [Hl [Hb Hv]].
  split; [apply pad_encoded_text_shape|].
  split; [apply len_zeros|].
  repeat (split; [assumption|]).
  intros H0. subst extra. rewrite pad_encoded_text_shape, H0.
  split; reflexivity.
Qed.

Lemma pad_encoded_text_layout_witness :
  len "10101010" mod 8 = 0
  /\ 8 - len "10101010" mod 8 = 8
  /\ pad_encoded_text "10101010" = ("00001000" ++ "10101010" ++ "00000000")%string.
Proof.
  split; [reflexivity|].
  apply (pad_encoded_text_layout "10101010"). reflexivity.
Defined.

Lemma int2_digits_outcome (s : string) (acc : N) :
  (exists v, int2_digits s acc = Ok v) \/ int2_digits s acc = Raise ValueError.
Proof.
  revert acc. induction s as [|c s IH]; intros acc; simpl; [left; eauto|].
  destruct (Ascii.eqb c "0"); [apply IH|].
  destruct (Ascii.eqb c "1"); [apply IH|now right].
Qed.

Lemma int2_outcome (s : string) :
  (exists v, int2 s = Ok v) \/ int2 s = Raise ValueError.
Proof.
  destruct s as [|c s]; [now right|]. apply int2_digits_outcome.
Qed.

Lemma bytearray_append_outcome (b : list byte) (v : N) :
  (exists b', bytearray_append b v = Ok b') \/ bytearray_append b v = Raise ValueError.
Proof.
  unfold bytearray_append. destruct (Byte.of_N v); [left; eauto|now right].
Qed.

(** The grouping loop prints nothing and leaves the state as it is; it ends
    with the bytes or with a [ValueError]. *)
Lemma byte_loop_outcome (text : string) (l : list nat) (b : list byte) (s : State) :
  exists r,
    for_fold l b
      (fun b i =>
         let byte := slice text i (i + 8) in
         v <- lift (int2 byte) ;;
         lift (bytearray_append b v)) s = (r, s)
    /\ ((exists bytes, r = Ok bytes) \/ r = Raise ValueError).
Proof.
  revert b. induction l as [|i l IH]; intros b; simpl.
  - exists (Ok b). split; [reflexivity|left; eauto].
  - unfold bind at 1. unfold bind at 1. unfold lift at 1.
    destruct (int2_outcome (slice text i (i + 8))) as [[v ->] | ->].
    + unfold lift at 1.
      destruct (bytearray_append_outcome b v) as [[b' ->] | ->]; [apply IH|].
      exists (Raise ValueError). split; [reflexivity|now right].
    + exists (Raise ValueError). split; [reflexivity|now right].
Qed.

Lemma get_byte_array_aligned (text : string) (s : State) :
  len text mod 8 = 0 ->
  get_byte_array text s
  = for_fold (range0 (len text) 8) []
      (fun b i =>
         let byte := slice text i (i + 8) in
         v <- lift (int2 byte) ;;
         lift (bytearray_append b v)) s.
Proof.
  intros H. unfold get_byte_array. rewrite H. reflexivity.
Qed.

(** The guard of the grouping step. *)
Lemma get_byte_array_misaligned (text : string) (s : State) :
  len text mod 8 <> 0 ->
  get_byte_array text s
  = (Raise (SystemExit 0),
     mkState (self s) (files s) (stdout s ++ ["Encoded text not padded properly"])).
Proof.
  intros H. unfold get_byte_array.
  destruct (Nat.eqb_spec (len text mod 8) 0) as [E|_]; [contradiction|].
  reflexivity.
Qed.

Lemma is_bits_append (a b : string) :
  is_bits (a ++ b) = is_bits a && is_bits b.
Proof.
  induction a as [|x a IH]; simpl; [reflexivity|].
  rewrite IH. now rewrite andb_assoc.
Qed.

Lemma is_bits_zeros (n : nat) : is_bits (zeros n) = true.
Proof. induction n as [|n IH]; simpl; [reflexivity|exact IH]. Qed.

Lemma is_bits_substring (s : string) (i m : nat) :
  is_bits s = true -> is_bits (substring i m s) = true.
Proof.
  revert i m. induction s as [|c s IH]; intros i m H.
  - destruct i, m; reflexivity.
  - simpl in H. apply andb_true_iff in H. destruct H as [Hc Hs].
    destruct i as [|i]; [destruct m as [|m]|]; simpl; auto.
    rewrite Hc. simpl. now apply IH.
Qed.

Lemma length_substring (s : string) (i m : nat) :
  i + m <= String.length s -> String.length (substring i m s) = m.
Proof.
  revert i m. induction s as [|c s IH]; intros i m H; simpl in H.
  - assert (i = 0) by lia. assert (m = 0) by lia. subst. reflexivity.
  - destruct i as [|i]; [destruct m as [|m]|]; simpl; [reflexivity| |].
    + f_equal. apply IH. simpl. lia.
    + apply IH. lia.
Qed.

(** The value of a string of binary digits stays below two to the power of
    its length. *)
Lemma int2_digits_bits (s : string) (acc : N) :
  is_bits s = true ->
  exists v,
    int2_digits s acc = Ok v
    /\ (v < (acc + 1) * 2 ^ N.of_nat (String.length s))%N.
Proof.
  revert acc. induction s as [|c s IH]; intros acc H.
  - exists acc. split; [reflexivity|]. simpl. lia.
  - simpl in H. apply andb_true_iff in H. destruct H as [Hc Hs].
    cbn [int2_digits String.length].
    rewrite Nat2N.inj_succ, N.pow_succ_r'.
    destruct (Ascii.eqb c "0").
    + destruct (IH (2 * acc)%N Hs) as [v [E Hv]]. exists v. split; [exact E|]. nia.
    + simpl in Hc. rewrite Hc.
      destruct (IH (2 * acc + 1)%N Hs) as [v [E Hv]]. exists v. split; [exact E|]. nia.
Qed.

Lemma int2_byte (s : string) (b : list byte) :
  is_bits s = true -> String.length s = 8 ->
  exists x, v <-- int2 s ;; bytearray_append b v = Ok (b ++ [x]).
Proof.
  intros Hb Hl. destruct s as [|c s]; [discriminate|].
  unfold int2.
  destruct (int2_digits_bits (String c s) 0 Hb) as [v [-> Hv]]. simpl rbind.
  rewrite Hl in Hv. unfold bytearray_append.
  destruct (Byte.of_N v) eqn:E; [eexists; reflexivity|].
  apply Byte.of_N_None_iff in E. simpl in Hv. lia.
Qed.

Lemma range0_aligned (n : nat) :
  n mod 8 = 0 -> Forall (fun i => i + 8 <= n) (range0 n 8).
Proof.
  intros H. unfold range0. apply Forall_forall. intros i Hi.
  apply in_map_iff in Hi. destruct Hi as [k [<- Hk]].
  apply in_seq in Hk.
  pose proof (Nat.div_mod_eq (n + 8 - 1) 8) as H1.
  pose proof (Nat.mod_upper_bound (n + 8 - 1) 8) as H2.
  pose proof (Nat.div_mod_eq n 8) as H3.
  lia.
Qed.

(** On binary digits cut at multiples of 8 the grouping loop returns one
    byte per group. *)
Lemma byte_loop_bits (text : string) (l : list nat) (b : list byte) (s : State) :
  is_bits text = true ->
  Forall (fun i => i + 8 <= len text) l ->
  exists bytes,
    for_fold l b
      (fun b i =>
         let byte := slice text i (i + 8) in
         v <- lift (int2 byte) ;;
         lift (bytearray_append b v)) s = (Ok bytes, s)
    /\ List.length bytes = List.length b + List.length l.
Proof.
  intros Hb Hl. revert b. induction Hl as [|i l Hi Hl IH]; intros b; simpl.
  - exists b. split; [reflexivity|lia].
  - destruct (int2_byte (slice text i (i + 8)) b) as [x Hx].
    + now apply is_bits_substring.
    + unfold slice. replace (i + 8 - i) with 8 by lia.
      apply length_substring. unfold len in Hi. lia.
    + unfold bind at 1. unfold bind at 1. unfold lift at 1.
      destruct (int2 (slice text i (i + 8))) as [v| |]; try discriminate.
      simpl in Hx. unfold lift at 1. rewrite Hx.
      destruct (IH (b ++ [x])) as [bytes [E Hlen]].
      exists bytes. split; [exact E|].
      rewrite Hlen, length_app. simpl. lia.
Qed.

Lemma get_byte_array_bits (text : string) (s : State) :
  is_bits text = true ->
  len text mod 8 = 0 ->
  exists bytes,
    get_byte_array text s = (Ok bytes, s)
    /\ List.length bytes = List.length (range0 (len text) 8).
Proof.
  intros Hb Ha. rewrite get_byte_array_aligned by assumption.
  destruct (byte_loop_bits text (range0 (len text) 8) [] s Hb (range0_aligned _ Ha))
    as [bytes [E Hl]].
  exists bytes. split; [exact E|exact Hl].
Qed.

Lemma is_bits_pad_encoded_text (text : string) :
  is_bits text = true -> is_bits (pad_encoded_text text) = true.
Proof.
  intros H. rewrite pad_encoded_text_shape, !is_bits_append, H, is_bits_zeros.
  destruct (format_08b_header _ (extra_padding_range (len text))) as [_ [-> _]].
  reflexivity.
Qed.

(** C10.  The output of the padder is [8 + length + extra] characters long,
    with [extra = 8 - (length mod 8)] between 1 and 8; that length is a
    multiple of 8; the header, the first 8 characters, reads as [extra],
    which is not 0; and the grouping step applied to that output never takes
    its misaligned branch: it prints nothing, leaves the state as it is, and
    does not end with [exit]. *)
Theorem pad_encoded_text_aligns (encoded_text : string) (s : State) :
  let extra := 8 - len encoded_text mod 8 in
  len (pad_encoded_text encoded_text) = 8 + len encoded_text + extra
  /\ 1 <= extra <= 8
  /\ len (pad_encoded_text encoded_text) mod 8 = 0
  /\ int2 (slice (pad_encoded_text encoded_text) 0 8) = Ok (N.of_nat extra)
  /\ N.of_nat extra <> 0%N
  /\ exists r,
       get_byte_array (pad_encoded_text encoded_text) s = (r, s)
       /\ forall status, r <> Raise (SystemExit status).
Proof.
  intros extra.
  pose proof (extra_padding_range (len encoded_text)) as Hr.
  destruct (format_08b_header extra Hr) as [Hl [_ Hv]].
  split; [apply pad_encoded_text_length|].
  split; [exact Hr|].
  split; [apply pad_encoded_text_aligned|].
  split.
  { rewrite pad_encoded_text_shape. fold extra. unfold slice.
    replace (8 - 0) with (String.length (format_08b extra)) by exact Hl.
    now rewrite substring_prefix. }
  split; [lia|].
  rewrite get_byte_array_aligned by apply pad_encoded_text_aligned.
  destruct (byte_loop_outcome (pad_encoded_text encoded_text)
              (range0 (len (pad_encoded_text encoded_text)) 8) [] s)
    as [r [E Hout]].
  exists r. split; [exact E|].
  intros status. destruct Hout as [[bytes ->] | ->]; discriminate.
Qed.

(** For a string of binary digits the grouping step returns the bytes of the
    padded string. *)
Lemma get_byte_array_padded (text : string) (s : State) :
  is_bits text = true ->
  exists bytes, get_byte_array (pad_encoded_text text) s = (Ok bytes, s).
Proof.
  intros H.
  destruct (get_byte_array_bits (pad_encoded_text text) s
              (is_bits_pad_encoded_text text H) (pad_encoded_text_aligned text))
    as [bytes [E _]].
  now exists bytes.
Qed.

Lemma group_fold_failed (text : string) (l : list nat) (e : exn) :
  fold_left (fun acc i =>
               b <-- acc ;;
               v <-- int2 (slice text i (i + 8)) ;;
               bytearray_append b v) l (Raise e)
  = Raise e.
Proof. induction l as [|i l IH]; simpl; [reflexivity|exact IH]. Qed.

Lemma group_fold_out_of_fuel (text : string) (l : list nat) :
  fold_left (fun acc i =>
               b <-- acc ;;
               v <-- int2 (slice text i (i + 8)) ;;
               bytearray_append b v) l OutOfFuel
  = OutOfFuel.
Proof. induction l as [|i l IH]; simpl; [reflexivity|exact IH]. Qed.

(** The grouping loop computes [group_bytes] and leaves the state alone. *)
Lemma byte_loop_pure (text : string) (l : list nat) (b : list byte) (s : State) :
  for_fold l b
    (fun b i =>
       let byte := slice text i (i + 8) in
       v <- lift (int2 byte) ;;
       lift (bytearray_append b v)) s
  = (fold_left (fun acc i =>
                  b <-- acc ;;
                  v <-- int2 (slice text i (i + 8)) ;;
                  bytearray_append b v) l (Ok b), s).
Proof.
  revert b. induction l as [|i l IH]; intros b; simpl; [reflexivity|].
  unfold bind at 1. unfold bind at 1. unfold lift at 1.
  destruct (int2 (slice text i (i + 8))) as [v|e|]; simpl.
  - unfold lift at 1.
    destruct (bytearray_append b v) as [b'|e|]; simpl;
      [apply IH|now rewrite group_fold_failed|now rewrite group_fold_out_of_fuel].
  - now rewrite group_fold_failed.
  - now rewrite group_fold_out_of_fuel.
Qed.

Lemma get_byte_array_group (text : string) (s : State) :
  len text mod 8 = 0 -> get_byte_array text s = (group_bytes text, s).
Proof.
  intros H. rewrite get_byte_array_aligned by assumption. apply byte_loop_pure.
Qed.

Lemma group_bytes_padded (text : string) :
  is_bits text = true ->
  exists bytes, group_bytes (pad_encoded_text text) = Ok bytes.
Proof.
  intros H.
  destruct (get_byte_array_padded text (mkState (init EmptyString) [] []) H) as [bytes E].
  rewrite get_byte_array_group in E by apply pad_encoded_text_aligned.
  exists bytes. congruence.
Qed.

(* ================================================================== *)
(** * The encoder *)
(* ================================================================== *)

(** When the table has a code for every character of the text, the loop of
    the encoder returns their concatenation and leaves the state alone. *)
Lemma encode_fold (l : list ascii) (acc : string) (s : State) :
  (forall c, In c l -> get Ascii.eqb (encoding_table (self s)) c <> None) ->
  for_fold l acc
    (fun binary_code char =>
       self <- get_self ;;
       code <- lift (getitem (encoding_table self) char) ;;
       ret (binary_code ++ code)%string) s
  = (Ok (fold_left (fun binary_code char =>
                      (binary_code
                       ++ get_default Ascii.eqb (encoding_table (self s)) char EmptyString)%string)
                   l acc), s).
Proof.
  revert acc. induction l as [|c l IH]; intros acc H; simpl; [reflexivity|].
  unfold bind at 1. unfold bind at 1. unfold get_self at 1.
  unfold bind at 1. unfold lift at 1. unfold getitem at 1. unfold get_default at 2.
  destruct (get Ascii.eqb (encoding_table (self s)) c) as [k|] eqn:E.
  - unfold ret at 1. apply IH. intros c' Hc'. apply H. now right.
  - exfalso. apply (H c); [now left|exact E].
Qed.

Lemma encode_run (content : string) (s : State) :
  (forall c, In c (list_ascii_of_string content) ->
             get Ascii.eqb (encoding_table (self s)) c <> None) ->
  encode content s
  = (Ok (pad_encoded_text (codes_of (encoding_table (self s)) content)), s).
Proof.
  intros H. unfold encode, bind, encode_loop.
  now rewrite encode_fold by assumption.
Qed.

(** The first character without a code stops the encoder with a
    [KeyError]. *)
Lemma encode_missing (c : ascii) (rest : string) (s : State) :
  get Ascii.eqb (encoding_table (self s)) c = None ->
  encode (String c rest) s = (Raise (KeyError c), s).
Proof.
  intros H. unfold encode, bind, encode_loop. simpl.
  unfold bind, get_self, lift, getitem. now rewrite H.
Qed.

(** The concatenation depends on the codes of the characters of the text
    only. *)
Lemma codes_fold_agree (t1 t2 : dict ascii string) (l : list ascii) (acc : string) :
  (forall c, In c l -> get Ascii.eqb t1 c = get Ascii.eqb t2 c) ->
  fold_left (fun binary_code char =>
               (binary_code ++ get_default Ascii.eqb t1 char EmptyString)%string) l acc
  = fold_left (fun binary_code char =>
                 (binary_code ++ get_default Ascii.eqb t2 char EmptyString)%string) l acc.
Proof.
  revert acc. induction l as [|c l IH]; intros acc H; simpl; [reflexivity|].
  unfold get_default at 2 4. rewrite (H c) by now left.
  apply IH. intros c' Hc'. apply H. now right.
Qed.

Lemma codes_of_agree (t1 t2 : dict ascii string) (content : string) :
  (forall c, In c (list_ascii_of_string content) ->
             get Ascii.eqb t1 c = get Ascii.eqb t2 c) ->
  codes_of t1 content = codes_of t2 content.
Proof. apply codes_fold_agree. Qed.

Lemma codes_fold_bits (t : dict ascii string) (l : list ascii) (acc : string) :
  (forall c k, In (c, k) t -> is_bits k = true) ->
  is_bits acc = true ->
  is_bits (fold_left (fun binary_code char =>
                        (binary_code ++ get_default Ascii.eqb t char EmptyString)%string)
                     l acc) = true.
Proof.
  intros Ht. revert acc. induction l as [|c l IH]; intros acc Hacc; simpl; [assumption|].
  apply IH. rewrite is_bits_append, Hacc. simpl.
  unfold get_default. destruct (get Ascii.eqb t c) as [k|] eqn:E; [|reflexivity].
  apply (Ht c k). now apply (get_some_in _ ascii_eqb_eq).
Qed.

Lemma leaf_codes_bits (node : Node) (code : string) (c : ascii) (k : string) :
  is_bits code = true -> In (c, k) (leaf_codes node code) -> is_bits k = true.
Proof.
  revert code. induction node as [c0 f k0|f l IHl r IHr k0]; intros code Hc; simpl.
  - intros [[= <- <-]|[]]. assumption.
  - intros H. apply in_app_or in H. destruct H as [H|H].
    + apply (IHl (code ++ "0")%string); [|assumption].
      now rewrite is_bits_append, Hc.
    + apply (IHr (code ++ "1")%string); [|assumption].
      now rewrite is_bits_append, Hc.
Qed.

(* ================================================================== *)
(** * The frequency file *)
(* ================================================================== *)

Lemma open_write_run (p : string) (s : State) :
  open_write p s = (Ok tt, with_files s (set String.eqb (files s) p [])).
Proof. reflexivity. Qed.

(** Writing to a file that is open for writing extends it. *)
Lemma write_bytes_run (p : string) (old b : list byte) (fs : dict string (list byte))
      (s : State) :
  write_bytes p b (with_files s (set String.eqb fs p old))
  = (Ok tt, with_files s (set String.eqb fs p (old ++ b))).
Proof.
  unfold write_bytes, set_files. simpl.
  rewrite (get_set_same _ string_eqb_eq).
  now rewrite (set_set _ string_eqb_eq).
Qed.

Lemma write_text_run (p : string) (old : list byte) (text : string)
      (fs : dict string (list byte)) (s : State) :
  write_text p text (with_files s (set String.eqb fs p old))
  = (Ok tt, with_files s (set String.eqb fs p (old ++ list_byte_of_string text))).
Proof. apply write_bytes_run. Qed.

(** The loop of the writer adds one line per entry. *)
Lemma sidecar_loop (af : dict ascii nat) (output : string) (items : list (ascii * nat))
      (old : list byte) (fs : dict string (list byte)) (s : State) :
  (forall c f, In (c, f) items -> get Ascii.eqb af c = Some f) ->
  for_each (keys items)
    (fun char =>
       write_text output (slice_1_m1 (repr char) ++ " ") ;;
       f <- lift (getitem af char) ;;
       write_text output (str f ++ nl))
    (with_files s (set String.eqb fs output old))
  = (Ok tt,
     with_files s
       (set String.eqb fs output
          (old ++ list_byte_of_string
                    (unlines (map (fun item =>
                                     (escaped (fst item) ++ " " ++ str (snd item))%string)
                                  items))))).
Proof.
  revert old. induction items as [|[c f] items IH]; intros old H; simpl.
  - now rewrite app_nil_r.
  - unfold bind at 1. unfold bind at 1. rewrite write_text_run.
    unfold bind at 1. unfold lift at 1. unfold getitem at 1.
    rewrite (H c f) by now left.
    rewrite write_text_run.
    rewrite IH by (intros; apply H; now right).
    do 3 f_equal. rewrite <- !app_assoc. f_equal.
    rewrite <- !list_byte_of_string_append. f_equal.
    unfold escaped. now rewrite !append_assoc.
Qed.

Lemma write_alphabet_frequency_run (output : string) (af : dict ascii nat) (s : State) :
  NoDup (keys af) ->
  write_alphabet_frequency output af s
  = (Ok tt,
     with_files s
       (set String.eqb (files s) output
          (list_byte_of_string (unlines (sidecar_lines af))))).
Proof.
  intros Hnd. unfold write_alphabet_frequency.
  unfold bind at 1. rewrite open_write_run.
  unfold bind at 1. rewrite write_text_run.
  rewrite (sidecar_loop af output af) by (intros; now apply (get_in _ ascii_eqb_eq)).
  simpl. do 3 f_equal.
  rewrite <- list_byte_of_string_append. f_equal.
  now rewrite append_assoc.
Qed.

Lemma no_newline_append (a b : string) :
  no_newline (a ++ b) = no_newline a && no_newline b.
Proof.
  induction a as [|x a IH]; simpl; [reflexivity|].
  rewrite IH. now rewrite andb_assoc.
Qed.

Lemma no_newline_uint (d : Decimal.uint) :
  no_newline (NilEmpty.string_of_uint d) = true.
Proof. induction d; simpl; auto. Qed.

Lemma no_newline_str (n : nat) : no_newline (str n) = true.
Proof. apply no_newline_uint. Qed.

(** An escaped character holds no newline: the newline itself is written as
    a backslash and the letter n. *)
Lemma no_newline_escaped (c : ascii) : no_newline (escaped c) = true.
Proof.
  destruct c as [[] [] [] [] [] [] [] []]; reflexivity.
Qed.

(** C8.  The writer leaves under the output path a text made of the lines of
    [sidecar_lines], each ended by a newline and none holding one: the
    decimal count of the entries first, then for every entry, in the order
    of the dictionary, the escaped character, a space and the decimal
    frequency. *)
Theorem sidecar_layout (output : string) (af : dict ascii nat) (s : State) :
  NoDup (keys af) ->
  write_alphabet_frequency output af s
  = (Ok tt,
     with_files s
       (set String.eqb (files s) output
          (list_byte_of_string (unlines (sidecar_lines af)))))
  /\ sidecar_lines af
     = str (List.length af)
       :: map (fun item => (slice_1_m1 (repr (fst item)) ++ " " ++ str (snd item))%string) af
  /\ Forall (fun line => no_newline line = true) (sidecar_lines af).
Proof.
  intros Hnd. split; [now apply write_alphabet_frequency_run|].
  split; [reflexivity|].
  unfold sidecar_lines. constructor; [apply no_newline_str|].
  apply Forall_forall. intros line Hline.
  apply in_map_iff in Hline. destruct Hline as [[c f] [<- _]]. cbn [fst snd].
  now rewrite !no_newline_append, no_newline_escaped, no_newline_str.
Qed.

Lemma sidecar_layout_witness :
  NoDup (keys [("b"%char, 1); ("a"%char, 3)])
  /\ write_alphabet_frequency "aaab_freq.txt" [("b"%char, 1); ("a"%char, 3)]
       (fresh "aaab.txt" "aaab")
     = (Ok tt,
        with_files (fresh "aaab.txt" "aaab")
          (set String.eqb (files (fresh "aaab.txt" "aaab")) "aaab_freq.txt"
             (list_byte_of_string
                (unlines (sidecar_lines [("b"%char, 1); ("a"%char, 3)])))))
  /\ sidecar_lines [("b"%char, 1); ("a"%char, 3)] = ["2"; "b 1"; "a 3"]
  /\ Forall (fun line => no_newline line = true)
            (sidecar_lines [("b"%char, 1); ("a"%char, 3)]).
Proof.
  assert (H : NoDup (keys [("b"%char, 1); ("a"%char, 3)])).
  { repeat constructor; simpl; intuition discriminate. }
  split; [exact H|].
  destruct (sidecar_layout "aaab_freq.txt" [("b"%char, 1); ("a"%char, 3)]
              (fresh "aaab.txt" "aaab") H) as [H1 [H2 H3]].
  split; [exact H1|]. split; [reflexivity|exact H3].
Defined.

(* ================================================================== *)
(** * The whole run *)
(* ================================================================== *)

Lemma occurrences_in (c : ascii) (content : string) :
  In c (list_ascii_of_string content) -> 0 < occurrences c content.
Proof.
  induction content as [|x rest IH]; simpl; [tauto|].
  intros [->|H]; [rewrite Ascii.eqb_refl; lia|].
  specialize (IH H). lia.
Qed.

Lemma alphabet_covers (content : string) (c : ascii) :
  In c (list_ascii_of_string content) ->
  In c (keys (sort_alphabet_frequency (count_characters content))).
Proof.
  intros H. apply occurrences_in in H.
  assert (Hin : In (c, occurrences c content) (count_characters content)).
  { apply count_characters_spec. split; [reflexivity|assumption]. }
  apply (Permutation_in _ (Permutation_sym
           (sort_alphabet_frequency_perm _ (count_characters_nodup content)))) in Hin.
  now apply (in_map fst) in Hin.
Qed.

(** After the traversal the table gives every character of the tree its
    path, whatever the table held before. *)
Lemma table_lookup (tree : Node) (table0 : dict ascii string) (c : ascii) :
  NoDup (tree_chars tree) ->
  In c (tree_chars tree) ->
  get Ascii.eqb
      (fold_left (fun d kv => set Ascii.eqb d (fst kv) (snd kv))
                 (leaf_codes tree EmptyString) table0) c
  = get Ascii.eqb (leaf_codes tree EmptyString) c
  /\ get Ascii.eqb (leaf_codes tree EmptyString) c <> None.
Proof.
  intros Hnd Hin. split.
  - rewrite (get_fold_set_written _ ascii_eqb_eq _ table0 [])
      by now rewrite leaf_codes_keys.
    rewrite (fold_set_fresh _ ascii_eqb_eq); [reflexivity|].
    simpl. now rewrite leaf_codes_keys.
  - rewrite (get_none _ ascii_eqb_eq). rewrite leaf_codes_keys. tauto.
Qed.

(** A run on a text that is not empty, when the frequency file is not the
    input file: the run ends normally; the object holds the frequencies and
    the table; the frequency file and the payload are written. *)
Lemma compress_run (s : State) (content : string) :
  file_text (files s) (path (self s)) = Some content ->
  content <> EmptyString ->
  snd (get_output_path (path (self s))) <> path (self s) ->
  exists tree bytes,
    create_tree (sort_alphabet_frequency (count_characters content)) = Ok tree
    /\ group_bytes (pad_encoded_text (codes_of (leaf_codes tree EmptyString) content))
       = Ok bytes
    /\ compress s
       = (Ok tt,
          with_files
            (with_encoding_table
               (with_alphabet_frequency s (sort_alphabet_frequency (count_characters content)))
               (fold_left (fun d kv => set Ascii.eqb d (fst kv) (snd kv))
                          (leaf_codes tree EmptyString) (encoding_table (self s))))
            (set String.eqb
               (set String.eqb (files s) (snd (get_output_path (path (self s))))
                    (list_byte_of_string
                       (unlines (sidecar_lines
                                   (sort_alphabet_frequency (count_characters content))))))
               (fst (get_output_path (path (self s)))) bytes)).
Proof.
  intros Hfile Hne Halias.
  set (af := sort_alphabet_frequency (count_characters content)) in *.
  destruct (create_tree_root af (alphabet_nodup content) (alphabet_nonempty content Hne))
    as [tree [Htree Hperm]].
  assert (Hnd : NoDup (tree_chars tree)).
  { eapply Permutation_NoDup; [symmetry; exact Hperm|apply alphabet_nodup]. }
  assert (Hcover : forall c, In c (list_ascii_of_string content) -> In c (tree_chars tree)).
  { intros c Hc. apply (Permutation_in _ (Permutation_sym Hperm)).
    now apply alphabet_covers. }
  set (table := fold_left (fun d kv => set Ascii.eqb d (fst kv) (snd kv))
                          (leaf_codes tree EmptyString) (encoding_table (self s))).
  assert (Hcodes : codes_of table content = codes_of (leaf_codes tree EmptyString) content).
  { apply codes_of_agree. intros c Hc. now apply table_lookup; [|apply Hcover]. }
  assert (Hbits : is_bits (codes_of (leaf_codes tree EmptyString) content) = true).
  { apply codes_fold_bits; [|reflexivity].
    intros c k. now apply leaf_codes_bits. }
  destruct (group_bytes_padded _ Hbits) as [bytes Hbytes].
  exists tree, bytes. split; [exact Htree|]. split; [exact Hbytes|].
  unfold compress. unfold bind at 1. unfold get_self at 1.
  destruct (get_output_path (path (self s))) as [bin_path freq_path] eqn:Epaths.
  simpl in Halias. simpl fst. simpl snd.
  unfold bind at 1. rewrite (create_alphabet_frequency_run s content Hfile). fold af.
  unfold bind at 1. unfold set_alphabet_frequency at 1.
  unfold bind at 1. unfold get_self at 1.
  unfold bind at 1. unfold lift at 1.
  simpl alphabet_frequency. rewrite Htree.
  unfold bind at 1. rewrite build_encoding_table_run.
  simpl encoding_table. fold table.
  unfold bind at 1. unfold get_self at 1.
  simpl alphabet_frequency.
  unfold bind at 1. rewrite write_alphabet_frequency_run by apply alphabet_nodup.
  simpl files.
  unfold write_compressed_file.
  unfold bind at 1. unfold get_self at 1.
  unfold bind at 1. unfold read_file.
  rewrite (read_text_run _ _ content).
  2:{ simpl. rewrite file_text_set_other by assumption. exact Hfile. }
  unfold bind at 1. rewrite encode_run.
  2:{ intros c Hc. simpl. fold table.
      destruct (table_lookup tree (encoding_table (self s)) c Hnd (Hcover c Hc)) as [E1 E2].
      fold table in E1. now rewrite E1. }
  simpl encoding_table. fold table. rewrite Hcodes.
  unfold bind at 1. rewrite open_write_run.
  unfold bind at 1.
  rewrite get_byte_array_group by apply pad_encoded_text_aligned.
  rewrite Hbytes.
  simpl files.
  match goal with
  | |- write_bytes ?p ?b (with_files ?st (set _ ?fs ?p ?old)) = _ =>
      rewrite (write_bytes_run p old b fs st)
  end.
  reflexivity.
Qed.

(** A run on an empty file: the analyser returns the empty dictionary, the
    tree builder indexes an empty list, and the run ends there. *)
Lemma compress_empty (s : State) :
  file_text (files s) (path (self s)) = Some EmptyString ->
  compress s = (Raise IndexError, with_alphabet_frequency s []).
Proof.
  intros Hfile. unfold compress. unfold bind at 1. unfold get_self at 1.
  destruct (get_output_path (path (self s))) as [bin_path freq_path].
  unfold bind at 1.
  rewrite (create_alphabet_frequency_run s EmptyString Hfile).
  reflexivity.
Qed.

(** C2, as the code has it.  On the empty input the analyser returns a
    dictionary without entries and the tree builder fails at [nodes[0]] with
    the interpreter's [IndexError]; [compress] does not catch it, and ends
    with it before it has written anything: the files are as they were, with
    no frequency file and no payload, and nothing was printed. *)
Theorem empty_input_index_error (s : State) :
  file_text (files s) (path (self s)) = Some EmptyString ->
  create_alphabet_frequency s = (Ok [], s)
  /\ create_tree [] = Raise IndexError
  /\ compress s = (Raise IndexError, with_alphabet_frequency s [])
  /\ files (snd (compress s)) = files s
  /\ stdout (snd (compress s)) = stdout s.
Proof.
  intros Hfile.
  split; [apply (create_alphabet_frequency_run s EmptyString Hfile)|].
  split; [reflexivity|].
  rewrite (compress_empty s Hfile). repeat split.
Qed.

Lemma empty_input_index_error_witness :
  file_text (files (fresh "empty.txt" EmptyString))
            (path (self (fresh "empty.txt" EmptyString))) = Some EmptyString
  /\ create_alphabet_frequency (fresh "empty.txt" EmptyString)
     = (Ok [], fresh "empty.txt" EmptyString)
  /\ create_tree [] = Raise IndexError
  /\ compress (fresh "empty.txt" EmptyString)
     = (Raise IndexError, with_alphabet_frequency (fresh "empty.txt" EmptyString) [])
  /\ files (snd (compress (fresh "empty.txt" EmptyString)))
     = files (fresh "empty.txt" EmptyString)
  /\ stdout (snd (compress (fresh "empty.txt" EmptyString)))
     = stdout (fresh "empty.txt" EmptyString).
Proof.
  split; [reflexivity|].
  apply (empty_input_index_error (fresh "empty.txt" EmptyString)). reflexivity.
Defined.

(** C2, as the specification states it, fails: what the tree builder raises
    on the empty dictionary is not an error of a class [EmptyAlphabet]. *)
Lemma empty_alphabet_not_signalled :
  ~ (exists e, create_tree [] = Raise e /\ class_name e = "EmptyAlphabet").
Proof.
  intros [e [H Hname]]. rewrite create_tree_empty in H.
  injection H as <-. discriminate.
Qed.

(** C3, as the code has it.  When the length of the bit string is not a
    multiple of 8 the grouping step prints its message and calls [exit(0)]:
    it ends with [SystemExit] and status 0, returns no bytes, and leaves the
    files as they are. *)
Theorem misaligned_guard (text : string) (s : State) :
  len text mod 8 <> 0 ->
  get_byte_array text s
  = (Raise (SystemExit 0),
     mkState (self s) (files s) (stdout s ++ ["Encoded text not padded properly"]))
  /\ files (snd (get_byte_array text s)) = files s.
Proof.
  intros H. rewrite (get_byte_array_misaligned text s H). split; reflexivity.
Qed.

Lemma misaligned_guard_witness :
  len "1" mod 8 <> 0
  /\ get_byte_array "1" (fresh "a.txt" "a")
     = (Raise (SystemExit 0),
        mkState (self (fresh "a.txt" "a")) (files (fresh "a.txt" "a"))
                (stdout (fresh "a.txt" "a") ++ ["Encoded text not padded properly"]))
  /\ files (snd (get_byte_array "1" (fresh "a.txt" "a"))) = files (fresh "a.txt" "a").
Proof.
  split; [discriminate|].
  apply (misaligned_guard "1" (fresh "a.txt" "a")). discriminate.
Defined.

(** C3, as the specification states it, fails: on a bit string of length 1
    the outcome is not an error, that is an exception of a class derived
    from [Exception]; it is the request to leave the interpreter, with the
    exit status of a successful run. *)
Lemma misaligned_not_an_error :
  ~ (exists e, fst (get_byte_array "1" (fresh "a.txt" "a")) = Raise e
               /\ is_Exception e = true)
  /\ exit_status (fst (get_byte_array "1" (fresh "a.txt" "a"))) = Some 0%Z.
Proof.
  split; [|reflexivity].
  intros [e [H He]]. vm_compute in H. injection H as <-. discriminate.
Qed.

(** C1, on the code.  A dictionary with a single character makes a tree that
    is a single leaf, and the traversal, which starts with the empty code,
    gives that character the empty code.  For the text zzzz the table holds
    the empty code for z, the encoded text is empty, and the payload is the
    header 8 and a byte of padding. *)
Theorem single_symbol_code :
  (forall (c : ascii) (f : nat) (s : State),
      create_tree [(c, f)] = Ok (Leaf c f EmptyString)
      /\ encoding_table
           (self (snd (build_encoding_table (Leaf c f EmptyString) EmptyString
                                            (with_encoding_table s []))))
         = [(c, EmptyString)])
  /\ fst (compress (fresh "z.txt" "zzzz")) = Ok tt
  /\ alphabet_frequency (self (snd (compress (fresh "z.txt" "zzzz")))) = [("z"%char, 4)]
  /\ encoding_table (self (snd (compress (fresh "z.txt" "zzzz"))))
     = [("z"%char, EmptyString)]
  /\ get String.eqb (files (snd (compress (fresh "z.txt" "zzzz")))) "z_comp.bin"
     = Some [Byte.x08; Byte.x00].
Proof.
  split.
  - intros c f s. split; [|reflexivity].
    unfold create_tree, create_leaves. simpl.
    unfold getitem. simpl. now rewrite Ascii.eqb_refl.
  - repeat split; vm_compute; reflexivity.
Qed.


(* ================================================================== *)
(** * What a run depends on *)
(* ================================================================== *)

Lemma agree_weaken (p : string) (W W' : list string) (s1 s2 : State) :
  incl W W' -> agree p W' s1 s2 -> agree p W s1 s2.
Proof.
  intros Hincl [Hself [Hpath Hfiles]]. repeat split; auto.
Qed.

Lemma respects_ret {A : Type} (p : string) (W : list string) (a : A) :
  respects p W W (ret a).
Proof. intros s1 s2 H. simpl. auto. Qed.

Lemma respects_lift {A : Type} (p : string) (W : list string) (r : result A) :
  respects p W W (lift r).
Proof. intros s1 s2 H. simpl. auto. Qed.

Lemma respects_bind {A B : Type} (p : string) (W W' W'' : list string)
      (m : M A) (k : A -> M B) :
  incl W W' ->
  respects p W W' m ->
  (forall a, respects p W' W'' (k a)) ->
  respects p W W'' (bind m k).
Proof.
  intros Hincl Hm Hk s1 s2 H.
  destruct (Hm s1 s2 H) as [Hout [Hpres Hpost]].
  unfold bind.
  destruct (m s1) as [r1 t1], (m s2) as [r2 t2]. simpl in *. subst r2.
  destruct r1 as [a|e|]; simpl; auto.
  - destruct (Hk a t1 t2 (Hpost a eq_refl)) as [Hout' [Hpres' Hpost']].
    split; [assumption|]. split; [|assumption].
    now apply (agree_weaken p W W').
  - repeat split; try apply Hpres. discriminate.
  - repeat split; try apply Hpres. discriminate.
Qed.

(** A method that starts by reading [self] sees an object for the path
    [p]. *)
Lemma respects_self {A : Type} (p : string) (W W' : list string)
      (k : Compressor -> M A) :
  (forall c, path c = p -> respects p W W' (k c)) ->
  respects p W W' (bind get_self k).
Proof.
  intros Hk s1 s2 H. unfold bind, get_self.
  destruct H as [Hself [Hpath Hfiles]].
  assert (H : agree p W s1 s2) by (repeat split; assumption).
  destruct (Hk (self s1) Hpath s1 s2 H) as [Hout [Hpres Hpost]].
  rewrite <- Hself. auto.
Qed.

Lemma respects_set_alphabet_frequency (p : string) (W : list string)
      (af : dict ascii nat) :
  respects p W W (set_alphabet_frequency af).
Proof.
  intros s1 s2 [Hself [Hpath Hfiles]]. simpl.
  assert (H : agree p W (with_alphabet_frequency s1 af) (with_alphabet_frequency s2 af)).
  { unfold agree. simpl. split; [now rewrite Hself|]. split; assumption. }
  auto.
Qed.

Lemma respects_set_encoding_table (p : string) (W : list string)
      (table : dict ascii string) :
  respects p W W (set_encoding_table table).
Proof.
  intros s1 s2 [Hself [Hpath Hfiles]]. simpl.
  assert (H : agree p W (with_encoding_table s1 table) (with_encoding_table s2 table)).
  { unfold agree. simpl. split; [now rewrite Hself|]. split; assumption. }
  auto.
Qed.

Lemma respects_print (p : string) (W : list string) (line : string) :
  respects p W W (print line).
Proof.
  intros s1 s2 [Hself [Hpath Hfiles]]. simpl.
  assert (H : agree p W (mkState (self s1) (files s1) (stdout s1 ++ [line]))
                        (mkState (self s2) (files s2) (stdout s2 ++ [line]))).
  { unfold agree. simpl. auto. }
  auto.
Qed.

Lemma respects_read_text (p : string) (W : list string) (q : string) :
  In q W -> respects p W W (read_text q).
Proof.
  intros Hq s1 s2 H. unfold read_text, file_text.
  destruct H as [Hself [Hpath Hfiles]].
  assert (H : agree p W s1 s2) by (repeat split; assumption).
  rewrite (Hfiles q Hq).
  destruct (get String.eqb (files s2) q); simpl; auto.
Qed.

Lemma get_set (fs : dict string (list byte)) (q q' : string) (b : list byte) :
  get String.eqb (set String.eqb fs q b) q'
  = if String.eqb q q' then Some b else get String.eqb fs q'.
Proof.
  destruct (String.eqb q q') eqn:E.
  - apply string_eqb_eq in E. subst q'. apply (get_set_same _ string_eqb_eq).
  - apply (get_set_other _ string_eqb_eq).
    intros ->. rewrite String.eqb_refl in E. discriminate.
Qed.

(** Opening a file for writing brings it into agreement. *)
Lemma respects_open_write (p : string) (W : list string) (q : string) :
  respects p W (q :: W) (open_write q).
Proof.
  intros s1 s2 [Hself [Hpath Hfiles]]. unfold open_write, set_files. simpl.
  split; [reflexivity|].
  split; [|intros _ _].
  - unfold agree. simpl. repeat split; auto.
    intros q' Hq'. rewrite !get_set. now rewrite (Hfiles q' Hq').
  - unfold agree. simpl. repeat split; auto.
    intros q' Hq'. rewrite !get_set.
    destruct (String.eqb q q') eqn:E; [reflexivity|].
    destruct Hq' as [->|Hq']; [now rewrite String.eqb_refl in E|auto].
Qed.

Lemma respects_write_bytes (p : string) (W : list string) (q : string) (b : list byte) :
  In q W -> respects p W W (write_bytes q b).
Proof.
  intros Hq s1 s2 [Hself [Hpath Hfiles]]. unfold write_bytes, set_files. simpl.
  assert (H : agree p W
                (with_files s1
                   (set String.eqb (files s1) q
                      (match get String.eqb (files s1) q with
                       | Some o => o
                       | None => []
                       end ++ b)))
                (with_files s2
                   (set String.eqb (files s2) q
                      (match get String.eqb (files s2) q with
                       | Some o => o
                       | None => []
                       end ++ b)))).
  { unfold agree. simpl. repeat split; auto.
    intros q' Hq'. rewrite !get_set. rewrite (Hfiles q Hq).
    now rewrite (Hfiles q' Hq'). }
  auto.
Qed.

Lemma respects_for_each {A : Type} (p : string) (W : list string)
      (l : list A) (body : A -> M unit) :
  (forall x, respects p W W (body x)) ->
  respects p W W (for_each l body).
Proof.
  intros Hbody. induction l as [|x l IH]; simpl.
  - apply respects_ret.
  - apply (respects_bind p W W W); [apply incl_refl|apply Hbody|intros _; exact IH].
Qed.

Lemma respects_for_fold {A B : Type} (p : string) (W : list string)
      (l : list A) (acc : B) (body : B -> A -> M B) :
  (forall acc x, respects p W W (body acc x)) ->
  respects p W W (for_fold l acc body).
Proof.
  intros Hbody. revert acc. induction l as [|x l IH]; intros acc; simpl.
  - apply respects_ret.
  - apply (respects_bind p W W W); [apply incl_refl|apply Hbody|intros acc'; apply IH].
Qed.

Lemma respects_create_alphabet_frequency (p : string) (W : list string) :
  In p W -> respects p W W create_alphabet_frequency.
Proof.
  intros Hp. unfold create_alphabet_frequency.
  apply respects_self. intros c <-.
  apply (respects_bind _ W W W); [apply incl_refl|now apply respects_read_text|].
  intros content. apply respects_ret.
Qed.

Lemma respects_build_encoding_table (p : string) (W : list string)
      (node : Node) (code : string) :
  respects p W W (build_encoding_table node code).
Proof.
  revert code. induction node as [c f k|f l IHl r IHr k]; intros code; simpl.
  - apply respects_self. intros obj _. apply respects_set_encoding_table.
  - apply (respects_bind p W W W); [apply incl_refl|apply IHl|intros _; apply IHr].
Qed.

Lemma respects_write_alphabet_frequency (p : string) (W : list string)
      (output : string) (af : dict ascii nat) :
  respects p W (output :: W) (write_alphabet_frequency output af).
Proof.
  unfold write_alphabet_frequency.
  apply (respects_bind p W (output :: W) (output :: W));
    [apply incl_tl, incl_refl|apply respects_open_write|intros _].
  apply (respects_bind p _ (output :: W) (output :: W));
    [apply incl_refl|apply respects_write_bytes; now left|intros _].
  apply respects_for_each. intros char.
  apply (respects_bind p _ (output :: W) (output :: W));
    [apply incl_refl|apply respects_write_bytes; now left|intros _].
  apply (respects_bind p _ (output :: W) (output :: W));
    [apply incl_refl|apply respects_lift|intros f].
  apply respects_write_bytes. now left.
Qed.

Lemma respects_encode (p : string) (W : list string) (content : string) :
  respects p W W (encode content).
Proof.
  unfold encode, encode_loop.
  apply (respects_bind p W W W); [apply incl_refl| |intros b; apply respects_ret].
  apply respects_for_fold. intros acc char.
  apply respects_self. intros obj _.
  apply (respects_bind p W W W); [apply incl_refl|apply respects_lift|].
  intros k. apply respects_ret.
Qed.

Lemma respects_get_byte_array (p : string) (W : list string) (text : string) :
  respects p W W (get_byte_array text).
Proof.
  unfold get_byte_array.
  apply (respects_bind p W W W); [apply incl_refl| |intros _].
  - destruct (negb (len text mod 8 =? 0)); [|apply respects_ret].
    apply (respects_bind p W W W); [apply incl_refl|apply respects_print|intros _].
    apply respects_lift.
  - apply respects_for_fold. intros b i.
    apply (respects_bind p W W W); [apply incl_refl|apply respects_lift|intros v].
    apply respects_lift.
Qed.

Lemma respects_write_compressed_file (p : string) (W : list string) (output : string) :
  In p W -> respects p W (output :: W) (write_compressed_file output).
Proof.
  intros Hp. unfold write_compressed_file.
  apply respects_self. intros obj <-.
  apply (respects_bind _ W W _); [apply incl_refl|now apply respects_read_text|].
  intros file_content.
  apply (respects_bind _ W W _); [apply incl_refl|apply respects_encode|].
  intros binary_code.
  apply (respects_bind _ W (output :: W) _);
    [apply incl_tl, incl_refl|apply respects_open_write|intros _].
  apply (respects_bind _ _ (output :: W) _);
    [apply incl_refl|apply respects_get_byte_array|intros b].
  apply respects_write_bytes. now left.
Qed.

(** The outcome of a run, and the two files it writes, depend only on the
    object and on the bytes of the input file. *)
Lemma respects_compress (p : string) :
  respects p [p]
           [fst (get_output_path p); snd (get_output_path p); p]
           compress.
Proof.
  unfold compress.
  apply respects_self. intros obj Hobj. rewrite Hobj. clear obj Hobj.
  destruct (get_output_path p) as [bin_path freq_path]. simpl fst. simpl snd.
  apply (respects_bind p [p] [p] _);
    [apply incl_refl|apply respects_create_alphabet_frequency; now left|intros af].
  apply (respects_bind p [p] [p] _);
    [apply incl_refl|apply respects_set_alphabet_frequency|intros _].
  apply respects_self. intros obj1 _.
  apply (respects_bind p [p] [p] _); [apply incl_refl|apply respects_lift|intros tree].
  apply (respects_bind p [p] [p] _);
    [apply incl_refl|apply respects_build_encoding_table|intros _].
  apply respects_self. intros obj2 _.
  apply (respects_bind p [p] [freq_path; p] _);
    [apply incl_tl, incl_refl|apply respects_write_alphabet_frequency|intros _].
  apply respects_write_compressed_file. right. now left.
Qed.

(** A run on the object another run left behind. *)
Lemma compress_again (s1 s2 : State) (content : string) :
  path (self s1) = path (self s2) ->
  file_text (files s1) (path (self s1)) = Some content ->
  file_text (files s2) (path (self s2)) = Some content ->
  snd (get_output_path (path (self s1))) <> path (self s1) ->
  fst (compress s1) = fst (compress s2)
  /\ (content <> EmptyString ->
      exists payload sidecar,
        fst (compress s1) = Ok tt
        /\ get String.eqb (files (snd (compress s1))) (fst (get_output_path (path (self s1))))
           = Some payload
        /\ get String.eqb (files (snd (compress s2))) (fst (get_output_path (path (self s2))))
           = Some payload
        /\ get String.eqb (files (snd (compress s1))) (snd (get_output_path (path (self s1))))
           = Some sidecar
        /\ get String.eqb (files (snd (compress s2))) (snd (get_output_path (path (self s2))))
           = Some sidecar).
Proof.
  intros Hpath H1 H2 Halias.
  destruct content as [|x rest].
  - rewrite (compress_empty s1 H1), (compress_empty s2 H2).
    split; [reflexivity|congruence].
  - assert (Hne : String x rest <> EmptyString) by discriminate.
    destruct (compress_run s1 _ H1 Hne Halias) as [tree1 [bytes1 [Ht1 [Hb1 E1]]]].
    rewrite Hpath in Halias.
    destruct (compress_run s2 _ H2 Hne Halias) as [tree2 [bytes2 [Ht2 [Hb2 E2]]]].
    rewrite Ht1 in Ht2. injection Ht2 as <-.
    rewrite Hb1 in Hb2. injection Hb2 as <-.
    rewrite <- Hpath in E2 |- *.
    set (bin := fst (get_output_path (path (self s1)))) in *.
    set (freq := snd (get_output_path (path (self s1)))) in *.
    set (text := list_byte_of_string (unlines _)) in *.
    rewrite E1, E2. cbn [fst snd files with_files].
    split; [reflexivity|]. intros _.
    exists bytes1.
    exists (if String.eqb freq bin then bytes1 else text).
    rewrite !(get_set_same _ string_eqb_eq).
    assert (Hfreq : forall fs : dict string (list byte),
               get String.eqb (set String.eqb (set String.eqb fs freq text) bin bytes1) freq
               = Some (if String.eqb freq bin then bytes1 else text)).
    { intros fs. rewrite !get_set. rewrite String.eqb_refl.
      rewrite (String.eqb_sym bin freq). now destruct (String.eqb freq bin). }
    rewrite !Hfreq. repeat split.
Qed.

(** C9, as the code has it.  Two runs end with the same outcome and leave
    the same bytes under the payload path and under the path of the
    frequency file, in two cases.  First, for
    two objects in the same state, as two new ones for the same path are,
    and the same bytes in the input file: whatever the other files hold and
    whatever was printed, the outcomes are equal, and when the runs return
    the two files are equal.  Second, for two objects in any state, as an
    object and itself after an earlier run are, whose input file reads as
    the same text and is not the frequency file: the outcomes are equal, and
    on a text that is not empty both runs return and both files are written
    and equal. *)
Theorem compress_deterministic :
  (forall s1 s2 : State,
      self s1 = self s2 ->
      get String.eqb (files s1) (path (self s1)) = get String.eqb (files s2) (path (self s2)) ->
      fst (compress s1) = fst (compress s2)
      /\ (fst (compress s1) = Ok tt ->
          get String.eqb (files (snd (compress s1))) (fst (get_output_path (path (self s1))))
          = get String.eqb (files (snd (compress s2))) (fst (get_output_path (path (self s2))))
          /\ get String.eqb (files (snd (compress s1))) (snd (get_output_path (path (self s1))))
             = get String.eqb (files (snd (compress s2)))
                   (snd (get_output_path (path (self s2))))))
  /\ (forall (s1 s2 : State) (content : string),
         path (self s1) = path (self s2) ->
         file_text (files s1) (path (self s1)) = Some content ->
         file_text (files s2) (path (self s2)) = Some content ->
         snd (get_output_path (path (self s1))) <> path (self s1) ->
         fst (compress s1) = fst (compress s2)
         /\ (content <> EmptyString ->
             exists payload sidecar,
               fst (compress s1) = Ok tt
               /\ get String.eqb (files (snd (compress s1)))
                      (fst (get_output_path (path (self s1)))) = Some payload
               /\ get String.eqb (files (snd (compress s2)))
                      (fst (get_output_path (path (self s2)))) = Some payload
               /\ get String.eqb (files (snd (compress s1)))
                      (snd (get_output_path (path (self s1)))) = Some sidecar
               /\ get String.eqb (files (snd (compress s2)))
                      (snd (get_output_path (path (self s2)))) = Some sidecar)).
Proof.
  split; [|exact compress_again].
  intros s1 s2 Hself Hfile.
  assert (H : agree (path (self s1)) [path (self s1)] s1 s2).
  { unfold agree. split; [assumption|]. split; [reflexivity|].
    intros q [<-|[]]. now rewrite Hfile, Hself. }
  destruct (respects_compress (path (self s1)) s1 s2 H) as [Hout [_ Hpost]].
  split; [assumption|].
  intros Hok. destruct (Hpost tt Hok) as [_ [_ Hfiles]].
  rewrite <- Hself.
  split; apply Hfiles; simpl; auto.
Qed.

(** Two new objects among different files, and a second run on the object
    the first run left behind. *)
Lemma compress_deterministic_witness :
  (fst (compress (fresh "e.txt" "abracadabra"))
   = fst (compress (mkState (init "e.txt")
                            [("e_comp.bin", [Byte.x00]);
                             ("e.txt", list_byte_of_string "abracadabra")]
                            ["earlier output"]))
   /\ get String.eqb (files (snd (compress (fresh "e.txt" "abracadabra")))) "e_comp.bin"
      = get String.eqb
          (files (snd (compress (mkState (init "e.txt")
                                         [("e_comp.bin", [Byte.x00]);
                                          ("e.txt", list_byte_of_string "abracadabra")]
                                         ["earlier output"]))))
          "e_comp.bin")
  /\ (fst (compress (fresh "e.txt" "abracadabra"))
      = fst (compress (snd (compress (fresh "e.txt" "abracadabra"))))
      /\ exists payload sidecar,
           get String.eqb (files (snd (compress (fresh "e.txt" "abracadabra"))))
               "e_comp.bin" = Some payload
           /\ get String.eqb
                (files (snd (compress (snd (compress (fresh "e.txt" "abracadabra"))))))
                "e_comp.bin" = Some payload
           /\ get String.eqb (files (snd (compress (fresh "e.txt" "abracadabra"))))
                  "e_freq.txt" = Some sidecar
           /\ get String.eqb
                (files (snd (compress (snd (compress (fresh "e.txt" "abracadabra"))))))
                "e_freq.txt" = Some sidecar).
Proof.
  destruct compress_deterministic as [Hnew Hagain].
  split.
  - destruct (Hnew (fresh "e.txt" "abracadabra")
                   (mkState (init "e.txt")
                            [("e_comp.bin", [Byte.x00]);
                             ("e.txt", list_byte_of_string "abracadabra")]
                            ["earlier output"])
                   eq_refl eq_refl) as [Hout Hfiles].
    split; [exact Hout|].
    apply (Hfiles eq_refl).
  - assert (Halias : snd (get_output_path (path (self (fresh "e.txt" "abracadabra"))))
                     <> path (self (fresh "e.txt" "abracadabra"))).
    { vm_compute. discriminate. }
    destruct (Hagain (fresh "e.txt" "abracadabra")
                     (snd (compress (fresh "e.txt" "abracadabra")))
                     "abracadabra" eq_refl eq_refl eq_refl Halias) as [Hout Hfiles].
    split; [exact Hout|].
    destruct Hfiles as [payload [sidecar [_ H]]]; [discriminate|].
    exists payload, sidecar. exact H.
Defined.

(** C9, as the specification states it, fails: two runs on the same content
    can end differently when the path has no [.txt], so that both output
    paths are the path of the input, and one of the objects has run before.
    Under the path notes, holding aaab, a new object stops with the
    [KeyError] of the character 2 of the frequency file, which it left in
    place of the text; an object that ran before on a text with the
    characters of that frequency file returns, and left a payload there.
    Both started from the same files. *)
Lemma compress_reused_object_differs :
  path (self (reused "notes" ("2 13ab" ++ nl) "aaab")) = path (self (fresh "notes" "aaab"))
  /\ files (reused "notes" ("2 13ab" ++ nl) "aaab") = files (fresh "notes" "aaab")
  /\ get_output_path "notes" = ("notes"%string, "notes"%string)
  /\ fst (compress (fresh "notes" "aaab")) = Raise (KeyError "2")
  /\ fst (compress (reused "notes" ("2 13ab" ++ nl) "aaab")) = Ok tt
  /\ get String.eqb (files (snd (compress (fresh "notes" "aaab")))) "notes"
     <> get String.eqb (files (snd (compress (reused "notes" ("2 13ab" ++ nl) "aaab"))))
            "notes".
Proof.
  split; [reflexivity|].
  split; [vm_compute; reflexivity|].
  split; [vm_compute; reflexivity|].
  split; [vm_compute; reflexivity|].
  split; [vm_compute; reflexivity|].
  vm_compute. discriminate.
Qed.

(* ================================================================== *)
(** * The scan and the merge *)
(* ================================================================== *)

Lemma Node_eqb_eq (a b : Node) : Node_eqb a b = true <-> a = b.
Proof.
  split; [|intros ->; apply Node_eqb_refl].
  revert b. induction a as [c f k|f l IHl r IHr k]; intros [c' f' k'|f' l' r' k']; simpl;
    try discriminate.
  - rewrite !andb_true_iff. intros [[Hc Hf] Hk].
    apply ascii_eqb_eq in Hc. apply Nat.eqb_eq in Hf. apply string_eqb_eq in Hk.
    now subst.
  - rewrite !andb_true_iff. intros [[[Hf Hl] Hr] Hk].
    apply Nat.eqb_eq in Hf. apply string_eqb_eq in Hk.
    apply IHl in Hl. apply IHr in Hr. now subst.
Qed.

Lemma in_nodes_dec (l : list Node) (x : Node) : In x l \/ ~ In x l.
Proof.
  induction l as [|y l IH]; simpl; [tauto|].
  destruct (Node_eqb y x) eqn:E.
  - apply Node_eqb_eq in E. tauto.
  - assert (y <> x) by (intros ->; now rewrite Node_eqb_refl in E). tauto.
Qed.

Lemma remove_absent (l : list Node) (x : Node) :
  ~ In x l -> remove Node_eqb l x = Raise ValueError.
Proof.
  induction l as [|y l IH]; simpl; [reflexivity|].
  intros H. destruct (Node_eqb y x) eqn:E.
  - apply Node_eqb_eq in E. subst. tauto.
  - rewrite IH by tauto. reflexivity.
Qed.

Lemma remove_present (l : list Node) (x : Node) :
  In x l ->
  exists l', remove Node_eqb l x = Ok l' /\ Permutation l (x :: l').
Proof.
  induction l as [|y l IH]; simpl; [tauto|].
  intros H. destruct (Node_eqb y x) eqn:E.
  - apply Node_eqb_eq in E. subst. now exists l.
  - destruct H as [->|H]; [now rewrite Node_eqb_refl in E|].
    destruct (IH H) as [l' [-> P]]. simpl.
    exists (y :: l'). split; [reflexivity|].
    rewrite P. apply perm_swap.
Qed.

(** What the scan keeps: the two nodes it holds come in ascending order of
    frequency and no node seen so far has a smaller frequency than the
    second. *)
Lemma scan_minimal (rest others : list Node) (m1 m2 : Node) :
  frequency m1 <= frequency m2 ->
  Forall (fun n => frequency m2 <= frequency n) others ->
  exists a b others',
    fold_left
      (fun mins node =>
         let '(min_node1, min_node2) := mins in
         if frequency node <? frequency min_node1 then (node, min_node1)
         else if frequency node <? frequency min_node2 then (min_node1, node)
         else (min_node1, min_node2))
      rest (m1, m2) = (a, b)
    /\ Permutation (a :: b :: others') (m1 :: m2 :: others ++ rest)
    /\ frequency a <= frequency b
    /\ Forall (fun n => frequency b <= frequency n) others'.
Proof.
  revert others m1 m2. induction rest as [|n rest IH]; intros others m1 m2 H12 Hothers; simpl.
  - exists m1, m2, others. rewrite app_nil_r. auto.
  - destruct (Nat.ltb_spec (frequency n) (frequency m1)) as [H1|H1].
    + destruct (IH (m2 :: others) n m1) as [a [b [others' [E [P [Hab Ho]]]]]].
      * lia.
      * constructor; [assumption|].
        eapply Forall_impl; [|exact Hothers]. simpl. intros; lia.
      * exists a, b, others'. repeat split; try assumption.
        rewrite P. simpl.
        transitivity (m1 :: n :: m2 :: others ++ rest); [apply perm_swap|].
        constructor.
        transitivity (m2 :: n :: others ++ rest); [apply perm_swap|].
        constructor. apply Permutation_middle.
    + destruct (Nat.ltb_spec (frequency n) (frequency m2)) as [H2|H2].
      * destruct (IH (m2 :: others) m1 n) as [a [b [others' [E [P [Hab Ho]]]]]].
        -- lia.
        -- constructor; [lia|].
           eapply Forall_impl; [|exact Hothers]. simpl. intros; lia.
        -- exists a, b, others'. repeat split; try assumption.
           rewrite P. simpl. constructor.
           transitivity (m2 :: n :: others ++ rest); [apply perm_swap|].
           constructor. apply Permutation_middle.
      * destruct (IH (n :: others) m1 m2) as [a [b [others' [E [P [Hab Ho]]]]]].
        -- lia.
        -- constructor; assumption.
        -- exists a, b, others'. repeat split; try assumption.
           rewrite P. simpl. do 2 constructor. apply Permutation_middle.
Qed.

(** X1.  On any list of at least two nodes the scan returns two nodes of the
    list, at two places of it, in ascending order of frequency, and no other
    node of the list has a smaller frequency than the second of them. *)
Theorem get_two_smallest_nodes_minimal (nodes : list Node) :
  2 <= List.length nodes ->
  exists min_node1 min_node2 others,
    get_two_smallest_nodes nodes = Ok (min_node1, min_node2)
    /\ Permutation nodes (min_node1 :: min_node2 :: others)
    /\ frequency min_node1 <= frequency min_node2
    /\ Forall (fun n => frequency min_node2 <= frequency n) others.
Proof.
  intros Hlen. destruct nodes as [|n0 [|n1 rest]]; simpl in Hlen; try lia.
  unfold get_two_smallest_nodes.
  destruct (Nat.ltb_spec (frequency n1) (frequency n0)) as [H|H].
  - destruct (scan_minimal rest [] n1 n0) as [a [b [others [E [P [Hab Ho]]]]]];
      [lia|constructor|].
    exists a, b, others. rewrite E. repeat split; try assumption.
    rewrite P. simpl. apply perm_swap.
  - destruct (scan_minimal rest [] n0 n1) as [a [b [others [E [P [Hab Ho]]]]]];
      [lia|constructor|].
    exists a, b, others. rewrite E. repeat split; try assumption.
    now rewrite P.
Qed.

Lemma get_two_smallest_nodes_minimal_witness :
  2 <= List.length [Leaf "a" 5 EmptyString; Leaf "b" 2 EmptyString; Leaf "c" 7 EmptyString;
                    Leaf "d" 1 EmptyString]
  /\ exists min_node1 min_node2 others,
       get_two_smallest_nodes
         [Leaf "a" 5 EmptyString; Leaf "b" 2 EmptyString; Leaf "c" 7 EmptyString;
          Leaf "d" 1 EmptyString]
       = Ok (min_node1, min_node2)
       /\ Permutation [Leaf "a" 5 EmptyString; Leaf "b" 2 EmptyString;
                       Leaf "c" 7 EmptyString; Leaf "d" 1 EmptyString]
                      (min_node1 :: min_node2 :: others)
       /\ frequency min_node1 <= frequency min_node2
       /\ Forall (fun n => frequency min_node2 <= frequency n) others.
Proof.
  split; [simpl; lia|].
  apply get_two_smallest_nodes_minimal. simpl. lia.
Defined.

(** X2.  The scan fails with [IndexError] exactly on the lists of fewer than
    two nodes. *)
Theorem get_two_smallest_nodes_index_error (nodes : list Node) :
  get_two_smallest_nodes nodes = Raise IndexError <-> List.length nodes < 2.
Proof.
  destruct nodes as [|n0 [|n1 rest]]; simpl.
  - split; [lia|reflexivity].
  - split; [lia|reflexivity].
  - split; [discriminate|lia].
Qed.

Lemma get_two_smallest_nodes_index_error_witness :
  List.length [Leaf "a" 1 EmptyString] < 2
  /\ get_two_smallest_nodes [Leaf "a" 1 EmptyString] = Raise IndexError.
Proof.
  split; [simpl; lia|].
  apply (get_two_smallest_nodes_index_error [Leaf "a" 1 EmptyString]). simpl. lia.
Defined.

(** X3.  When two nodes have the same frequency the scan keeps the one that
    comes first: on a list in ascending order of frequency, as the sort
    before it leaves, it returns the first two nodes, in their order. *)
Theorem get_two_smallest_nodes_after_sort (nodes : list Node) :
  2 <= List.length nodes ->
  exists n0 n1 rest,
    sorted frequency nodes = n0 :: n1 :: rest
    /\ get_two_smallest_nodes (sorted frequency nodes) = Ok (n0, n1).
Proof.
  intros Hlen.
  pose proof (sorted_length frequency nodes) as Hsl.
  pose proof (sorted_ascending frequency nodes) as Hs.
  destruct (sorted frequency nodes) as [|n0 [|n1 rest]]; simpl in Hsl; try lia.
  exists n0, n1, rest. split; [reflexivity|].
  now apply get_two_smallest_nodes_ascending.
Qed.

Lemma get_two_smallest_nodes_after_sort_witness :
  2 <= List.length [Leaf "a" 2 EmptyString; Leaf "b" 1 EmptyString; Leaf "c" 1 EmptyString]
  /\ exists n0 n1 rest,
       sorted frequency
              [Leaf "a" 2 EmptyString; Leaf "b" 1 EmptyString; Leaf "c" 1 EmptyString]
       = n0 :: n1 :: rest
       /\ get_two_smallest_nodes
            (sorted frequency
                    [Leaf "a" 2 EmptyString; Leaf "b" 1 EmptyString; Leaf "c" 1 EmptyString])
          = Ok (n0, n1).
Proof.
  split; [simpl; lia|].
  apply get_two_smallest_nodes_after_sort. simpl. lia.
Defined.

Lemma filter_absent (l : list Node) (x : Node) :
  ~ In x l -> filter (fun n => negb (Node_eqb n x)) l = l.
Proof.
  induction l as [|y l IH]; simpl; [reflexivity|].
  intros H. destruct (Node_eqb y x) eqn:E.
  - apply Node_eqb_eq in E. subst. tauto.
  - simpl. rewrite IH by tauto. reflexivity.
Qed.

(** In a list of distinct nodes, removing a node leaves the others in their
    order. *)
Lemma remove_nodup (l : list Node) (x : Node) :
  NoDup l -> In x l ->
  remove Node_eqb l x = Ok (filter (fun n => negb (Node_eqb n x)) l).
Proof.
  induction l as [|y l IH]; simpl; [tauto|].
  intros Hnd Hin. inversion Hnd as [|? ? Hy Hl]; subst.
  destruct (Node_eqb y x) eqn:E; simpl.
  - apply Node_eqb_eq in E. subst. now rewrite filter_absent.
  - destruct Hin as [->|Hin]; [now rewrite Node_eqb_refl in E|].
    now rewrite IH.
Qed.

(** The two nodes that the scan returns stand at two places of the list. *)
Lemma scan_members (nodes : list Node) (a b : Node) :
  get_two_smallest_nodes nodes = Ok (a, b) ->
  exists others, Permutation nodes (a :: b :: others).
Proof.
  destruct nodes as [|n0 [|n1 rest]]; [discriminate|discriminate|].
  unfold get_two_smallest_nodes.
  destruct (Nat.ltb_spec (frequency n1) (frequency n0)) as [H|H].
  - destruct (scan_minimal rest [] n1 n0) as [a' [b' [others [E [P _]]]]];
      [lia|constructor|].
    rewrite E. intros [= <- <-]. exists others. rewrite P. simpl. apply perm_swap.
  - destruct (scan_minimal rest [] n0 n1) as [a' [b' [others [E [P _]]]]];
      [lia|constructor|].
    rewrite E. intros [= <- <-]. exists others. now rewrite P.
Qed.

(** X4.  One turn of the tree builder, on a list of distinct nodes: the two
    nodes that the scan returns are two different nodes, and merging them
    takes exactly these two out of the list, keeps the others in their
    order, and puts at the end a parent whose frequency is the sum of
    theirs, with the first node to the left, labelled 0, and the second to
    the right, labelled 1.  The nodes of such a list are distinct objects
    and the scan returns two of them, so that removing the object, as
    [list.remove] does, and removing the equal value take out the same
    elements. *)
Theorem merge_nodes_after_scan (nodes : list Node) (min_node1 min_node2 : Node) :
  NoDup nodes ->
  get_two_smallest_nodes nodes = Ok (min_node1, min_node2) ->
  min_node1 <> min_node2
  /\ merge_nodes nodes min_node1 min_node2
     = Ok (filter (fun n => negb (Node_eqb n min_node1 || Node_eqb n min_node2)) nodes
           ++ [Parent (frequency min_node1 + frequency min_node2)
                      (set_code min_node1 "0") (set_code min_node2 "1")
                      EmptyString]).
Proof.
  intros Hnd Hscan.
  destruct (scan_members nodes _ _ Hscan) as [others P].
  assert (Hnd' : NoDup (min_node1 :: min_node2 :: others)).
  { eapply Permutation_NoDup; [exact P|exact Hnd]. }
  assert (Hne : min_node1 <> min_node2).
  { inversion Hnd' as [|? ? H1 _]; subst. intros ->. apply H1. now left. }
  assert (H1 : In min_node1 nodes).
  { apply (Permutation_in _ (Permutation_sym P)). now left. }
  assert (H2 : In min_node2 nodes).
  { apply (Permutation_in _ (Permutation_sym P)). right. now left. }
  split; [exact Hne|].
  unfold merge_nodes.
  rewrite (remove_nodup nodes min_node1 Hnd H1). cbn [rbind].
  rewrite remove_nodup.
  - cbn [rbind]. do 2 f_equal.
    clear. induction nodes as [|n nodes IH]; simpl; [reflexivity|].
    destruct (Node_eqb n min_node1); simpl; [exact IH|].
    destruct (Node_eqb n min_node2); simpl; now rewrite IH.
  - now apply NoDup_filter.
  - apply filter_In. split; [exact H2|].
    destruct (Node_eqb min_node2 min_node1) eqn:E; [|reflexivity].
    apply Node_eqb_eq in E. congruence.
Qed.

Lemma merge_nodes_after_scan_witness :
  NoDup [Leaf "a" 3 EmptyString; Leaf "b" 1 EmptyString; Leaf "c" 2 EmptyString]
  /\ get_two_smallest_nodes
       [Leaf "a" 3 EmptyString; Leaf "b" 1 EmptyString; Leaf "c" 2 EmptyString]
     = Ok (Leaf "b" 1 EmptyString, Leaf "c" 2 EmptyString)
  /\ Leaf "b" 1 EmptyString <> Leaf "c" 2 EmptyString
  /\ merge_nodes [Leaf "a" 3 EmptyString; Leaf "b" 1 EmptyString; Leaf "c" 2 EmptyString]
                 (Leaf "b" 1 EmptyString) (Leaf "c" 2 EmptyString)
     = Ok (filter (fun n => negb (Node_eqb n (Leaf "b" 1 EmptyString)
                                 || Node_eqb n (Leaf "c" 2 EmptyString)))
                  [Leaf "a" 3 EmptyString; Leaf "b" 1 EmptyString; Leaf "c" 2 EmptyString]
           ++ [Parent (frequency (Leaf "b" 1 EmptyString)
                       + frequency (Leaf "c" 2 EmptyString))
                      (set_code (Leaf "b" 1 EmptyString) "0")
                      (set_code (Leaf "c" 2 EmptyString) "1")
                      EmptyString]).
Proof.
  assert (Hnd : NoDup [Leaf "a" 3 EmptyString; Leaf "b" 1 EmptyString;
                       Leaf "c" 2 EmptyString]).
  { repeat constructor; simpl; intuition discriminate. }
  split; [exact Hnd|]. split; [reflexivity|].
  apply (merge_nodes_after_scan _ _ _ Hnd eq_refl).
Defined.

(** X5.  Merging a node that is not in the list fails with the [ValueError]
    of [list.remove], whether it is the first or the second of the two. *)
Theorem merge_nodes_absent (nodes : list Node) (min_node1 min_node2 : Node) :
  ~ In min_node1 nodes \/ ~ In min_node2 nodes ->
  merge_nodes nodes min_node1 min_node2 = Raise ValueError.
Proof.
  intros H. unfold merge_nodes.
  destruct (in_nodes_dec nodes min_node1) as [Hin|Hout]; [|now rewrite remove_absent].
  destruct H as [H|H2]; [contradiction|].
  destruct (remove_present nodes min_node1 Hin) as [l1 [-> P1]]. simpl.
  rewrite remove_absent; [reflexivity|].
  intros Hin2. apply H2.
  apply (Permutation_in _ (Permutation_sym P1)). now right.
Qed.

Lemma merge_nodes_absent_witness :
  (~ In (Leaf "z" 9 EmptyString) [Leaf "a" 3 EmptyString; Leaf "b" 1 EmptyString]
   \/ ~ In (Leaf "a" 3 EmptyString) [Leaf "a" 3 EmptyString; Leaf "b" 1 EmptyString])
  /\ merge_nodes [Leaf "a" 3 EmptyString; Leaf "b" 1 EmptyString]
                 (Leaf "z" 9 EmptyString) (Leaf "a" 3 EmptyString)
     = Raise ValueError.
Proof.
  assert (H : ~ In (Leaf "z" 9 EmptyString)
                [Leaf "a" 3 EmptyString; Leaf "b" 1 EmptyString]).
  { simpl. intros [E|[E|[]]]; discriminate. }
  split; [left; exact H|].
  apply merge_nodes_absent. left. exact H.
Defined.

(* ================================================================== *)
(** * The shape of the tree *)
(* ================================================================== *)

Lemma merged_set_code (n : Node) (k : string) : merged (set_code n k) = merged n.
Proof. now destruct n. Qed.

Lemma frequency_set_code (n : Node) (k : string) : frequency (set_code n k) = frequency n.
Proof. now destruct n. Qed.

Lemma code_set_code (n : Node) (k : string) : code (set_code n k) = k.
Proof. now destruct n. Qed.

Lemma tree_leaves_set_code (n : Node) (k : string) :
  tree_leaves (set_code n k) = tree_leaves n.
Proof. now destruct n. Qed.

Lemma tree_leaves_chars (n : Node) : map fst (tree_leaves n) = tree_chars n.
Proof.
  induction n as [c f k|f l IHl r IHr k]; simpl; [reflexivity|].
  now rewrite map_app, IHl, IHr.
Qed.

(** The loop, with what it keeps: every node of the working list is
    [merged] and carries no label yet, and the leaves of the list stay the
    same. *)
Lemma create_tree_loop_merged (fuel : nat) (nodes : list Node) :
  nodes <> [] ->
  List.length nodes <= S fuel ->
  Forall (fun n => merged n = true /\ code n = EmptyString) nodes ->
  exists root,
    create_tree_loop fuel nodes = Ok [root]
    /\ merged root = true
    /\ code root = EmptyString
    /\ Permutation (tree_leaves root) (flat_map tree_leaves nodes).
Proof.
  revert nodes. induction fuel as [|fuel IH]; intros nodes Hne Hlen Hall.
  - destruct nodes as [|n [|n' nodes]]; [congruence| |simpl in Hlen; lia].
    exists n. inversion Hall as [|? ? [Hm Hc] _]; subst.
    simpl. rewrite app_nil_r. auto.
  - destruct nodes as [|n [|n' nodes]]; [congruence| |].
    + exists n. inversion Hall as [|? ? [Hm Hc] _]; subst.
      simpl. rewrite app_nil_r. auto.
    + remember (n :: n' :: nodes) as l eqn:El.
      assert (Hl : 2 <= List.length l) by (subst l; simpl; lia).
      pose proof (sorted_length frequency l) as Hsl.
      pose proof (sorted_perm frequency l) as Hsp.
      pose proof (sorted_ascending frequency l) as Hasc.
      assert (Hall' : Forall (fun n => merged n = true /\ code n = EmptyString)
                             (sorted frequency l)).
      { apply Forall_forall. intros x Hx. rewrite Forall_forall in Hall.
        apply Hall. now apply (sorted_in frequency). }
      destruct (sorted frequency l) as [|n0 [|n1 rest]] eqn:Es;
        [simpl in Hsl; lia|simpl in Hsl; lia|].
      simpl in Hsl.
      destruct (Forall_inv Hall') as [Hm0 Hc0].
      destruct (Forall_inv (Forall_inv_tail Hall')) as [Hm1 Hc1].
      pose proof (Forall_inv_tail (Forall_inv_tail Hall')) as Hrest.
      assert (Hle01 : frequency n0 <= frequency n1).
      { apply StronglySorted_inv in Hasc. destruct Hasc as [_ Hle].
        exact (Forall_inv Hle). }
      destruct (IH (rest ++ [Parent (frequency n0 + frequency n1)
                                    (set_code n0 "0") (set_code n1 "1") EmptyString]))
        as [root [Hroot [Hm [Hc Hperm]]]].
      * destruct rest; discriminate.
      * rewrite length_app. simpl. lia.
      * apply Forall_app. split; [assumption|].
        constructor; [|constructor]. split; [|reflexivity].
        simpl. rewrite !frequency_set_code, !code_set_code, !merged_set_code.
        rewrite Nat.eqb_refl, Hm0, Hm1. simpl.
        unfold Node_lt. rewrite !frequency_set_code.
        destruct (Nat.ltb_spec (frequency n1) (frequency n0)); [lia|reflexivity].
      * exists root. split; [|split; [assumption|split; [assumption|]]].
        -- unfold create_tree_loop; fold create_tree_loop.
           destruct (Nat.ltb_spec 1 (List.length l)); [|lia].
           rewrite (create_tree_turn_sorted l rest n0 n1 Es). simpl. exact Hroot.
        -- rewrite Hperm. rewrite flat_map_app. simpl.
           rewrite !tree_leaves_set_code, app_nil_r.
           rewrite <- Hsp. simpl.
           rewrite Permutation_app_comm. now rewrite app_assoc.
Qed.

Lemma create_tree_merged (af : dict ascii nat) :
  NoDup (keys af) ->
  af <> [] ->
  exists root,
    create_tree af = Ok root
    /\ merged root = true
    /\ code root = EmptyString
    /\ Permutation (tree_leaves root) af.
Proof.
  intros Hnd Hne. unfold create_tree.
  rewrite create_leaves_items by assumption. simpl.
  set (leaves := map (fun item : ascii * nat => Leaf (fst item) (snd item) EmptyString) af).
  destruct (create_tree_loop_merged (List.length leaves) leaves)
    as [root [Hloop [Hm [Hc Hperm]]]].
  - subst leaves. destruct af; [congruence|discriminate].
  - lia.
  - subst leaves. apply Forall_forall. intros x Hx.
    apply in_map_iff in Hx. destruct Hx as [item [<- _]]. auto.
  - exists root. rewrite Hloop. simpl. repeat split; try assumption.
    rewrite Hperm. subst leaves.
    clear. induction af as [|[c f] af IH]; simpl; [reflexivity|].
    now constructor.
Qed.

Lemma merged_frequency (n : Node) :
  merged n = true -> frequency n = list_sum (map snd (tree_leaves n)).
Proof.
  induction n as [c f k|f l IHl r IHr k]; simpl; [lia|].
  rewrite !andb_true_iff. intros [[[[[Hf _] _] _] Hl] Hr].
  apply Nat.eqb_eq in Hf.
  rewrite map_app, list_sum_app, <- IHl, <- IHr by assumption. exact Hf.
Qed.

Lemma number_of_chars_set (af : dict ascii nat) (c : ascii) :
  number_of_chars (count_step af c) = S (number_of_chars af).
Proof.
  unfold count_step, number_of_chars, get_default.
  induction af as [|[k v] af IH]; simpl; [reflexivity|].
  destruct (Ascii.eqb c k) eqn:E; simpl.
  - lia.
  - rewrite IH. lia.
Qed.

Lemma number_of_chars_count (content : string) (af : dict ascii nat) :
  number_of_chars (fold_left count_step (list_ascii_of_string content) af)
  = number_of_chars af + String.length content.
Proof.
  revert af. induction content as [|x rest IH]; intros af; simpl; [lia|].
  rewrite IH, number_of_chars_set. lia.
Qed.

Lemma number_of_chars_perm (a b : dict ascii nat) :
  Permutation a b -> number_of_chars a = number_of_chars b.
Proof.
  unfold number_of_chars. induction 1; simpl; lia.
Qed.

Lemma number_of_chars_alphabet (content : string) :
  number_of_chars (sort_alphabet_frequency (count_characters content))
  = String.length content.
Proof.
  rewrite (number_of_chars_perm _ _
             (sort_alphabet_frequency_perm _ (count_characters_nodup content))).
  unfold count_characters. now rewrite number_of_chars_count.
Qed.

(** X6.  The frequencies of the dictionary that the analyser returns add up
    to the number of characters of the text: the character count of
    [__compute_average_compressed_size_per_char] is the length of the
    text. *)
Theorem number_of_chars_is_length (s : State) (content : string) :
  file_text (files s) (path (self s)) = Some content ->
  exists af,
    create_alphabet_frequency s = (Ok af, s)
    /\ number_of_chars af = len content.
Proof.
  intros H. exists (sort_alphabet_frequency (count_characters content)).
  split; [now apply create_alphabet_frequency_run|].
  apply number_of_chars_alphabet.
Qed.

Lemma number_of_chars_is_length_witness :
  file_text (files (fresh "m.txt" "mississippi")) (path (self (fresh "m.txt" "mississippi")))
  = Some "mississippi"
  /\ exists af,
       create_alphabet_frequency (fresh "m.txt" "mississippi")
       = (Ok af, fresh "m.txt" "mississippi")
       /\ number_of_chars af = len "mississippi".
Proof.
  split; [reflexivity|].
  apply (number_of_chars_is_length (fresh "m.txt" "mississippi") "mississippi").
  reflexivity.
Defined.

(** X7.  For a text that is not empty the leaves of the tree are the entries
    of the frequency dictionary, each once with its frequency, and the
    frequency of the root is the number of characters of the text. *)
Theorem root_frequency_is_length (content : string) :
  content <> EmptyString ->
  exists root,
    create_tree (sort_alphabet_frequency (count_characters content)) = Ok root
    /\ Permutation (tree_leaves root) (sort_alphabet_frequency (count_characters content))
    /\ frequency root = len content.
Proof.
  intros Hne.
  destruct (create_tree_merged _ (alphabet_nodup content) (alphabet_nonempty content Hne))
    as [root [Htree [Hm [_ Hperm]]]].
  exists root. repeat split; try assumption.
  rewrite (merged_frequency root Hm).
  fold (number_of_chars (tree_leaves root)).
  rewrite (number_of_chars_perm _ _ Hperm).
  apply number_of_chars_alphabet.
Qed.

Lemma root_frequency_is_length_witness :
  "abracadabra" <> EmptyString
  /\ exists root,
       create_tree (sort_alphabet_frequency (count_characters "abracadabra")) = Ok root
       /\ Permutation (tree_leaves root)
                      (sort_alphabet_frequency (count_characters "abracadabra"))
       /\ frequency root = len "abracadabra".
Proof.
  split; [discriminate|].
  apply (root_frequency_is_length "abracadabra"). discriminate.
Defined.

(** X8.  In the tree of a dictionary that is not empty every internal node
    has the sum of the frequencies of its two children as its frequency, its
    left child is labelled 0 and its right child 1, and its right child is
    not less than its left child by [Node.__lt__]; the root carries no
    label. *)
Theorem create_tree_is_merged (af : dict ascii nat) :
  NoDup (keys af) ->
  af <> [] ->
  exists root,
    create_tree af = Ok root
    /\ merged root = true
    /\ code root = EmptyString.
Proof.
  intros Hnd Hne.
  destruct (create_tree_merged af Hnd Hne) as [root [Htree [Hm [Hc _]]]].
  exists root. auto.
Qed.

Lemma create_tree_is_merged_witness :
  NoDup (keys [("c"%char, 1); ("d"%char, 1); ("b"%char, 2); ("a"%char, 5)])
  /\ [("c"%char, 1); ("d"%char, 1); ("b"%char, 2); ("a"%char, 5)] <> []
  /\ exists root,
       create_tree [("c"%char, 1); ("d"%char, 1); ("b"%char, 2); ("a"%char, 5)] = Ok root
       /\ merged root = true
       /\ code root = EmptyString.
Proof.
  assert (Hnd : NoDup (keys [("c"%char, 1); ("d"%char, 1); ("b"%char, 2); ("a"%char, 5)])).
  { repeat constructor; simpl; intuition discriminate. }
  split; [exact Hnd|]. split; [discriminate|].
  apply (create_tree_is_merged _ Hnd). discriminate.
Defined.

(* ================================================================== *)
(** * The codes of the table *)
(* ================================================================== *)

Lemma label_codes_merged (n : Node) (above : string) :
  merged n = true -> label_codes n above = leaf_codes n (above ++ code n).
Proof.
  revert above. induction n as [c f k|f l IHl r IHr k]; intros above; simpl; [reflexivity|].
  rewrite !andb_true_iff. intros [[[[[_ Hl0] Hr1] _] Hl] Hr].
  apply string_eqb_eq in Hl0. apply string_eqb_eq in Hr1.
  now rewrite IHl, IHr, Hl0, Hr1 by assumption.
Qed.

(** X9.  The labels that [__merge_nodes] writes on the nodes spell the codes
    of the table: in a new object the table holds, for every leaf, the
    labels met on the way from the root down to it. *)
Theorem labels_spell_codes (af : dict ascii nat) (s : State) :
  NoDup (keys af) ->
  af <> [] ->
  exists root,
    create_tree af = Ok root
    /\ encoding_table
         (self (snd (build_encoding_table root EmptyString (with_encoding_table s []))))
       = label_codes root EmptyString.
Proof.
  intros Hnd Hne.
  destruct (create_tree_merged af Hnd Hne) as [root [Htree [Hm [Hc Hperm]]]].
  exists root. split; [assumption|].
  rewrite build_encoding_table_fresh; [|
    rewrite <- tree_leaves_chars;
    apply (Permutation_NoDup (Permutation_map fst (Permutation_sym Hperm))); exact Hnd
    |reflexivity].
  rewrite (label_codes_merged root EmptyString Hm), Hc. reflexivity.
Qed.

Lemma labels_spell_codes_witness :
  NoDup (keys [("c"%char, 1); ("d"%char, 1); ("b"%char, 2); ("a"%char, 5)])
  /\ [("c"%char, 1); ("d"%char, 1); ("b"%char, 2); ("a"%char, 5)] <> []
  /\ exists root,
       create_tree [("c"%char, 1); ("d"%char, 1); ("b"%char, 2); ("a"%char, 5)] = Ok root
       /\ encoding_table
            (self (snd (build_encoding_table root EmptyString
                          (with_encoding_table (fresh "e.txt" "abracadabra") []))))
          = label_codes root EmptyString.
Proof.
  assert (Hnd : NoDup (keys [("c"%char, 1); ("d"%char, 1); ("b"%char, 2); ("a"%char, 5)])).
  { repeat constructor; simpl; intuition discriminate. }
  split; [exact Hnd|]. split; [discriminate|].
  apply (labels_spell_codes _ (fresh "e.txt" "abracadabra") Hnd). discriminate.
Defined.

Lemma leaf_codes_length (n : Node) (above : string) (c : ascii) (k : string) :
  In (c, k) (leaf_codes n above) ->
  String.length k <= String.length above + tree_height n.
Proof.
  revert above. induction n as [c0 f k0|f l IHl r IHr k0]; intros above; simpl.
  - intros [[= <- <-]|[]]. lia.
  - intros H. apply in_app_or in H. destruct H as [H|H].
    + apply IHl in H. rewrite length_append in H. simpl in H. lia.
    + apply IHr in H. rewrite length_append in H. simpl in H. lia.
Qed.

Lemma tree_leaves_nonempty (n : Node) : 1 <= List.length (tree_leaves n).
Proof.
  induction n as [c f k|f l IHl r IHr k]; simpl; [lia|].
  rewrite length_app. lia.
Qed.

Lemma tree_height_leaves (n : Node) : S (tree_height n) <= List.length (tree_leaves n).
Proof.
  induction n as [c f k|f l IHl r IHr k]; simpl; [lia|].
  rewrite length_app.
  pose proof (tree_leaves_nonempty l). pose proof (tree_leaves_nonempty r). lia.
Qed.

Lemma leaf_codes_parent_nonempty (f : nat) (l r : Node) (k0 : string) (c : ascii) (k : string) :
  In (c, k) (leaf_codes (Parent f l r k0) EmptyString) -> 1 <= String.length k.
Proof.
  simpl. intros H. apply in_app_or in H.
  destruct H as [H|H]; apply leaf_codes_extend in H; destruct H as [rest ->];
    simpl; lia.
Qed.

(** The table of a new object for a dictionary of at least two
    characters. *)
Lemma table_two_symbols (af : dict ascii nat) (s : State) :
  NoDup (keys af) ->
  2 <= List.length af ->
  exists root,
    create_tree af = Ok root
    /\ NoDup (tree_chars root)
    /\ Permutation (tree_chars root) (keys af)
    /\ encoding_table
         (self (snd (build_encoding_table root EmptyString (with_encoding_table s []))))
       = leaf_codes root EmptyString
    /\ forall c k, In (c, k) (leaf_codes root EmptyString) ->
                   1 <= String.length k <= List.length af - 1.
Proof.
  intros Hnd Hlen.
  destruct (create_tree_merged af Hnd) as [root [Htree [Hm [Hc Hperm]]]].
  { destruct af; [simpl in Hlen; lia|discriminate]. }
  assert (Hchars : Permutation (tree_chars root) (keys af)).
  { rewrite <- tree_leaves_chars. now apply Permutation_map. }
  assert (Hndr : NoDup (tree_chars root)).
  { apply (Permutation_NoDup (Permutation_sym Hchars)). exact Hnd. }
  exists root. split; [assumption|]. split; [assumption|]. split; [assumption|].
  split; [now apply build_encoding_table_fresh|].
  intros c k Hin.
  pose proof (Permutation_length Hperm) as Hl.
  pose proof (tree_height_leaves root) as Hh.
  split.
  - destruct root as [c0 f0 k0|f0 l r k0]; [simpl in Hl; lia|].
    now apply (leaf_codes_parent_nonempty f0 l r k0 c).
  - apply leaf_codes_length in Hin. simpl in Hin. lia.
Qed.

(** X10.  With at least two characters in the dictionary every code of the
    table of a new object has at least one bit, and at most one bit less
    than there are characters. *)
Theorem code_lengths (af : dict ascii nat) (s : State) :
  NoDup (keys af) ->
  2 <= List.length af ->
  exists root,
    create_tree af = Ok root
    /\ forall c k,
         In (c, k) (encoding_table
                      (self (snd (build_encoding_table root EmptyString
                                    (with_encoding_table s [])))))
         -> 1 <= len k <= List.length af - 1.
Proof.
  intros Hnd Hlen.
  destruct (table_two_symbols af s Hnd Hlen) as [root [Htree [_ [_ [Htable Hcodes]]]]].
  exists root. split; [assumption|].
  intros c k Hin. rewrite Htable in Hin. now apply (Hcodes c).
Qed.

Lemma code_lengths_witness :
  NoDup (keys [("c"%char, 1); ("d"%char, 1); ("b"%char, 2); ("a"%char, 5)])
  /\ 2 <= List.length [("c"%char, 1); ("d"%char, 1); ("b"%char, 2); ("a"%char, 5)]
  /\ exists root,
       create_tree [("c"%char, 1); ("d"%char, 1); ("b"%char, 2); ("a"%char, 5)] = Ok root
       /\ forall c k,
            In (c, k) (encoding_table
                         (self (snd (build_encoding_table root EmptyString
                                       (with_encoding_table (fresh "e.txt" "abracadabra")
                                                            [])))))
            -> 1 <= len k
               <= List.length [("c"%char, 1); ("d"%char, 1); ("b"%char, 2); ("a"%char, 5)] - 1.
Proof.
  assert (Hnd : NoDup (keys [("c"%char, 1); ("d"%char, 1); ("b"%char, 2); ("a"%char, 5)])).
  { repeat constructor; simpl; intuition discriminate. }
  assert (Hlen : 2 <= List.length [("c"%char, 1); ("d"%char, 1); ("b"%char, 2);
                                   ("a"%char, 5)]) by (simpl; lia).
  split; [exact Hnd|]. split; [exact Hlen|].
  apply (code_lengths _ (fresh "e.txt" "abracadabra") Hnd Hlen).
Defined.

(* ================================================================== *)
(** * What the payload keeps *)
(* ================================================================== *)

Lemma codes_fold_acc (t : dict ascii string) (l : list ascii) (acc : string) :
  fold_left (fun binary_code char =>
               (binary_code ++ get_default Ascii.eqb t char EmptyString)%string) l acc
  = (acc ++ fold_left (fun binary_code char =>
                         (binary_code ++ get_default Ascii.eqb t char EmptyString)%string)
                      l EmptyString)%string.
Proof.
  revert acc. induction l as [|c l IH]; intros acc; simpl.
  - now rewrite append_nil_r.
  - rewrite IH. rewrite (IH (get_default Ascii.eqb t c EmptyString)).
    now rewrite append_assoc.
Qed.

Lemma codes_of_cons (t : dict ascii string) (c : ascii) (rest : string) :
  codes_of t (String c rest)
  = (get_default Ascii.eqb t c EmptyString ++ codes_of t rest)%string.
Proof. unfold codes_of. simpl. now rewrite codes_fold_acc. Qed.

Lemma append_eq_prefix (a b x y : string) :
  (a ++ x)%string = (b ++ y)%string -> prefix a b = true \/ prefix b a = true.
Proof.
  revert b. induction a as [|c a IH]; intros b H.
  - left. now destruct b.
  - destruct b as [|d b]; [right; reflexivity|].
    simpl in H. injection H as -> H.
    destruct (IH b H) as [P|P]; [left|right]; simpl;
      destruct (ascii_dec d d); congruence.
Qed.

Lemma append_cancel_l (a x y : string) : (a ++ x)%string = (a ++ y)%string -> x = y.
Proof.
  induction a as [|c a IH]; simpl; [auto|]. intros H. injection H as H. auto.
Qed.

(** With codes that are not empty and of which none is a prefix of that of
    another character, two texts with the same bits are the same text. *)
Lemma codes_of_injective (t : dict ascii string) (t1 t2 : string) :
  NoDup (keys t) ->
  prefix_free t ->
  (forall c k, In (c, k) t -> 1 <= String.length k) ->
  (forall c, In c (list_ascii_of_string t1) -> In c (keys t)) ->
  (forall c, In c (list_ascii_of_string t2) -> In c (keys t)) ->
  codes_of t t1 = codes_of t t2 ->
  t1 = t2.
Proof.
  intros Hnd Hpf Hlen.
  assert (Hcode : forall c, In c (keys t) ->
                            exists k, get Ascii.eqb t c = Some k /\ In (c, k) t).
  { intros c Hc. destruct (get Ascii.eqb t c) as [k|] eqn:E.
    - exists k. split; [reflexivity|]. now apply (get_some_in _ ascii_eqb_eq).
    - apply (get_none _ ascii_eqb_eq) in E. contradiction. }
  revert t2. induction t1 as [|c1 r1 IH]; intros t2 H1 H2 E.
  - destruct t2 as [|c2 r2]; [reflexivity|].
    exfalso. rewrite codes_of_cons in E.
    destruct (Hcode c2 (H2 c2 (or_introl eq_refl))) as [k [Hk Hin]].
    unfold get_default in E. rewrite Hk in E.
    specialize (Hlen c2 k Hin). destruct k; simpl in *; [lia|discriminate].
  - destruct (Hcode c1 (H1 c1 (or_introl eq_refl))) as [k1 [Hk1 Hin1]].
    destruct t2 as [|c2 r2].
    + exfalso. rewrite codes_of_cons in E. unfold get_default in E. rewrite Hk1 in E.
      specialize (Hlen c1 k1 Hin1). destruct k1; simpl in *; [lia|discriminate].
    + destruct (Hcode c2 (H2 c2 (or_introl eq_refl))) as [k2 [Hk2 Hin2]].
      rewrite !codes_of_cons in E. unfold get_default in E. rewrite Hk1, Hk2 in E.
      assert (Hc : c1 = c2).
      { destruct (ascii_dec c1 c2) as [|Hne]; [assumption|]. exfalso.
        destruct (append_eq_prefix _ _ _ _ E) as [P|P].
        - rewrite (Hpf c1 k1 c2 k2 Hin1 Hin2 Hne) in P. discriminate.
        - rewrite (Hpf c2 k2 c1 k1 Hin2 Hin1) in P by congruence. discriminate. }
      subst c2. rewrite Hk1 in Hk2. injection Hk2 as <-.
      apply append_cancel_l in E. f_equal.
      apply IH; [| |assumption]; intros c Hc; [apply H1|apply H2]; now right.
Qed.

(** X11.  With at least two characters in the dictionary the codes of the
    table of a new object can be told apart in a stream: two texts over the
    characters of the dictionary that are encoded to the same bits are the
    same text. *)
Theorem encoding_is_injective (af : dict ascii nat) (s : State) (text1 text2 : string) :
  NoDup (keys af) ->
  2 <= List.length af ->
  (forall c, In c (list_ascii_of_string text1) -> In c (keys af)) ->
  (forall c, In c (list_ascii_of_string text2) -> In c (keys af)) ->
  exists root,
    create_tree af = Ok root
    /\ (fst (encode_loop text1 (snd (build_encoding_table root EmptyString
                                       (with_encoding_table s []))))
        = fst (encode_loop text2 (snd (build_encoding_table root EmptyString
                                         (with_encoding_table s []))))
        -> text1 = text2).
Proof.
  intros Hnd Hlen H1 H2.
  destruct (table_two_symbols af s Hnd Hlen)
    as [root [Htree [Hndr [Hchars [Htable Hcodes]]]]].
  exists root. split; [assumption|].
  set (s' := snd (build_encoding_table root EmptyString (with_encoding_table s []))) in *.
  assert (Hkeys : forall c, In c (keys af) -> In c (keys (encoding_table (self s')))).
  { intros c Hc. rewrite Htable, leaf_codes_keys.
    now apply (Permutation_in _ (Permutation_sym Hchars)). }
  assert (Hrun : forall text,
             (forall c, In c (list_ascii_of_string text) -> In c (keys af)) ->
             fst (encode_loop text s') = Ok (codes_of (encoding_table (self s')) text)).
  { intros text Ht. unfold encode_loop. rewrite encode_fold; [reflexivity|].
    intros c Hc. rewrite (get_none _ ascii_eqb_eq). intros Hout.
    apply Hout, Hkeys, Ht, Hc. }
  rewrite (Hrun text1 H1), (Hrun text2 H2). intros [= E].
  apply (codes_of_injective (encoding_table (self s')) text1 text2); try assumption.
  - rewrite Htable, leaf_codes_keys. assumption.
  - rewrite Htable. apply leaf_codes_prefix_free.
  - rewrite Htable. intros c k Hin. now apply (Hcodes c k).
  - intros c Hc. now apply Hkeys, H1.
  - intros c Hc. now apply Hkeys, H2.
Qed.

Lemma encoding_is_injective_witness :
  NoDup (keys [("b"%char, 1); ("a"%char, 3)])
  /\ 2 <= List.length [("b"%char, 1); ("a"%char, 3)]
  /\ (forall c, In c (list_ascii_of_string "aaab") -> In c (keys [("b"%char, 1); ("a"%char, 3)]))
  /\ (forall c, In c (list_ascii_of_string "abab") -> In c (keys [("b"%char, 1); ("a"%char, 3)]))
  /\ exists root,
       create_tree [("b"%char, 1); ("a"%char, 3)] = Ok root
       /\ (fst (encode_loop "aaab"
                  (snd (build_encoding_table root EmptyString
                          (with_encoding_table (fresh "aaab.txt" "aaab") []))))
           = fst (encode_loop "abab"
                    (snd (build_encoding_table root EmptyString
                            (with_encoding_table (fresh "aaab.txt" "aaab") []))))
           -> "aaab" = "abab").
Proof.
  assert (Hnd : NoDup (keys [("b"%char, 1); ("a"%char, 3)])).
  { repeat constructor; simpl; intuition discriminate. }
  assert (Hlen : 2 <= List.length [("b"%char, 1); ("a"%char, 3)]) by (simpl; lia).
  assert (H1 : forall c, In c (list_ascii_of_string "aaab") ->
                         In c (keys [("b"%char, 1); ("a"%char, 3)])).
  { simpl. intuition. }
  assert (H2 : forall c, In c (list_ascii_of_string "abab") ->
                         In c (keys [("b"%char, 1); ("a"%char, 3)])).
  { simpl. intuition. }
  split; [exact Hnd|]. split; [exact Hlen|]. split; [exact H1|]. split; [exact H2|].
  apply (encoding_is_injective _ (fresh "aaab.txt" "aaab") "aaab" "abab" Hnd Hlen H1 H2).
Defined.

Lemma substring_middle (a b c : string) :
  substring (String.length a) (String.length b) (a ++ b ++ c) = b.
Proof.
  induction a as [|x a IH]; simpl; [apply substring_prefix|exact IH].
Qed.

Lemma substring_split (s : string) (i a b : nat) :
  substring i (a + b) s = (substring i a s ++ substring (i + a) b s)%string.
Proof.
  revert i a b. induction s as [|c s IH]; intros i a b.
  - destruct i, a, b; reflexivity.
  - destruct i as [|i]; simpl.
    + destruct a as [|a]; simpl; [reflexivity|].
      f_equal. apply (IH 0).
    + apply IH.
Qed.

Lemma substring_zero (s : string) (i : nat) : substring i 0 s = EmptyString.
Proof.
  revert i. induction s as [|c s IH]; intros [|i]; simpl; auto.
Qed.

Lemma substring_all (s : string) : substring 0 (String.length s) s = s.
Proof. induction s as [|c s IH]; simpl; [reflexivity|now rewrite IH]. Qed.

Lemma strip_padding_inverse (encoded_text : string) :
  strip_padding (pad_encoded_text encoded_text) = Ok encoded_text.
Proof.
  unfold strip_padding.
  pose proof (extra_padding_range (len encoded_text)) as Hr.
  destruct (format_08b_header _ Hr) as [Hl [_ Hv]].
  pose proof (pad_encoded_text_length encoded_text) as Hlen.
  rewrite pad_encoded_text_shape in *.
  set (extra := 8 - len encoded_text mod 8) in *.
  assert (Hhead : slice (format_08b extra ++ encoded_text ++ zeros extra) 0 8
                  = format_08b extra).
  { unfold slice. replace (8 - 0) with (String.length (format_08b extra)) by exact Hl.
    apply substring_prefix. }
  rewrite Hhead, Hv. simpl rbind. rewrite Nat2N.id, Hlen.
  unfold slice.
  replace (8 + len encoded_text + extra - extra - 8) with (String.length encoded_text)
    by (unfold len; lia).
  replace 8 with (String.length (format_08b extra)) at 1 by exact Hl.
  now rewrite substring_middle.
Qed.

(** X12.  The header and the padding can be taken off again: reading the
    first eight characters of the padded string as the number of padding
    bits and cutting the string between the header and that many characters
    from its end gives back the string that was padded. *)
Theorem strip_padding_pad (encoded_text : string) :
  strip_padding (pad_encoded_text encoded_text) = Ok encoded_text.
Proof. apply strip_padding_inverse. Qed.

Lemma is_bits_cons (c : ascii) (s : string) :
  is_bits (String c s) = true -> (c = "0"%char \/ c = "1"%char) /\ is_bits s = true.
Proof.
  simpl. rewrite andb_true_iff, orb_true_iff. intros [[H|H] Hs]; apply ascii_eqb_eq in H; auto.
Qed.

(** A group of eight binary digits is the binary form of its byte. *)
Lemma chunk_round_trip (s : string) (b : list byte) :
  is_bits s = true ->
  String.length s = 8 ->
  exists x,
    v <-- int2 s ;; bytearray_append b v = Ok (b ++ [x])
    /\ format_08b (N.to_nat (Byte.to_N x)) = s.
Proof.
  intros Hb Hl.
  do 8 (destruct s as [|? s]; [discriminate Hl|];
        apply is_bits_cons in Hb; destruct Hb as [[-> | ->] Hb]).
  all: destruct s; [|discriminate Hl].
  all: eexists; split; reflexivity.
Qed.

Lemma group_fold_round_trip (text : string) (m j : nat) (b : list byte) :
  is_bits text = true ->
  8 * (j + m) <= String.length text ->
  exists bytes,
    fold_left (fun acc i =>
                 b <-- acc ;;
                 v <-- int2 (slice text i (i + 8)) ;;
                 bytearray_append b v)
              (map (fun k => k * 8) (seq j m)) (Ok b)
    = Ok (b ++ bytes)
    /\ expand_bytes bytes = substring (8 * j) (8 * m) text
    /\ List.length bytes = m.
Proof.
  intros Hb. revert j b. induction m as [|m IH]; intros j b Hlen; simpl seq; simpl map.
  - exists []. rewrite app_nil_r.
    split; [reflexivity|]. split; [|reflexivity].
    replace (8 * 0) with 0 by lia. now rewrite substring_zero.
  - simpl fold_left.
    destruct (chunk_round_trip (slice text (j * 8) (j * 8 + 8)) b) as [x [Hx Hfmt]].
    + now apply is_bits_substring.
    + unfold slice. replace (j * 8 + 8 - j * 8) with 8 by lia.
      apply length_substring. lia.
    + simpl rbind at 1. rewrite Hx.
      destruct (IH (S j) (b ++ [x])) as [bytes [E [Hexp Hcount]]]; [lia|].
      exists (x :: bytes). rewrite E, <- app_assoc. simpl app.
      split; [reflexivity|]. split; [|simpl; lia].
      simpl expand_bytes. rewrite Hfmt, Hexp. unfold slice.
      replace (j * 8 + 8 - j * 8) with 8 by lia.
      replace (8 * S m) with (8 + 8 * m) by lia.
      rewrite substring_split.
      replace (j * 8) with (8 * j) by lia.
      replace (8 * S j) with (8 * j + 8) by lia. reflexivity.
Qed.

Lemma range0_multiple (n : nat) :
  n mod 8 = 0 -> range0 n 8 = map (fun k => k * 8) (seq 0 (n / 8)).
Proof.
  intros H. unfold range0. do 2 f_equal.
  pose proof (Nat.div_mod_eq n 8) as H1.
  symmetry. apply (Nat.div_unique (n + 8 - 1) 8 (n / 8) 7); lia.
Qed.

Lemma group_bytes_round_trip (text : string) :
  is_bits text = true ->
  len text mod 8 = 0 ->
  exists bytes,
    group_bytes text = Ok bytes
    /\ expand_bytes bytes = text
    /\ List.length bytes = len text / 8.
Proof.
  intros Hb Ha. unfold group_bytes. rewrite range0_multiple by assumption.
  pose proof (Nat.div_mod_eq (len text) 8) as Hd.
  destruct (group_fold_round_trip text (len text / 8) 0 [] Hb) as [bytes [E [Hexp Hcount]]].
  { unfold len in *. lia. }
  exists bytes. split; [exact E|]. split; [|exact Hcount].
  rewrite Hexp. replace (8 * (len text / 8)) with (String.length text) by (unfold len in *; lia).
  apply substring_all.
Qed.

(** X13.  Grouping loses nothing: for a string of binary digits whose length
    is a multiple of 8 the grouping step returns one byte for every eight
    digits, and the binary forms of these bytes, eight digits each, one
    after the other, are the string. *)
Theorem get_byte_array_round_trip (text : string) (s : State) :
  is_bits text = true ->
  len text mod 8 = 0 ->
  exists bytes,
    get_byte_array text s = (Ok bytes, s)
    /\ expand_bytes bytes = text
    /\ List.length bytes = len text / 8.
Proof.
  intros Hb Ha.
  destruct (group_bytes_round_trip text Hb Ha) as [bytes [E H]].
  exists bytes. split; [|exact H].
  rewrite get_byte_array_group by assumption. now rewrite E.
Qed.

Lemma get_byte_array_round_trip_witness :
  is_bits "0000010011100000" = true
  /\ len "0000010011100000" mod 8 = 0
  /\ exists bytes,
       get_byte_array "0000010011100000" (fresh "aaab.txt" "aaab")
       = (Ok bytes, fresh "aaab.txt" "aaab")
       /\ expand_bytes bytes = "0000010011100000"
       /\ List.length bytes = len "0000010011100000" / 8.
Proof.
  split; [reflexivity|]. split; [reflexivity|].
  apply (get_byte_array_round_trip "0000010011100000" (fresh "aaab.txt" "aaab"));
    reflexivity.
Defined.

Lemma padded_bytes_count (n : nat) : (8 + n + (8 - n mod 8)) / 8 = n / 8 + 2.
Proof.
  pose proof (Nat.div_mod_eq n 8) as Hd.
  pose proof (Nat.mod_upper_bound n 8) as Hb.
  symmetry. apply (Nat.div_unique _ 8 (n / 8 + 2) 0); lia.
Qed.

(** What a run leaves, in terms of the table it leaves in the object. *)
Lemma compress_payload (s : State) (content : string) :
  file_text (files s) (path (self s)) = Some content ->
  content <> EmptyString ->
  snd (get_output_path (path (self s))) <> path (self s) ->
  exists tree payload,
    create_tree (sort_alphabet_frequency (count_characters content)) = Ok tree
    /\ fst (compress s) = Ok tt
    /\ alphabet_frequency (self (snd (compress s)))
       = sort_alphabet_frequency (count_characters content)
    /\ get String.eqb (files (snd (compress s))) (fst (get_output_path (path (self s))))
       = Some payload
    /\ codes_of (encoding_table (self (snd (compress s)))) content
       = codes_of (leaf_codes tree EmptyString) content
    /\ is_bits (codes_of (leaf_codes tree EmptyString) content) = true
    /\ expand_bytes payload
       = pad_encoded_text (codes_of (leaf_codes tree EmptyString) content)
    /\ List.length payload
       = len (pad_encoded_text (codes_of (leaf_codes tree EmptyString) content)) / 8.
Proof.
  intros Hfile Hne Halias.
  destruct (compress_run s content Hfile Hne Halias) as [tree [bytes [Htree [Hbytes E]]]].
  destruct (create_tree_root _ (alphabet_nodup content) (alphabet_nonempty content Hne))
    as [tree' [Htree' Hperm]].
  rewrite Htree in Htree'. injection Htree' as <-.
  assert (Hnd : NoDup (tree_chars tree)).
  { eapply Permutation_NoDup; [symmetry; exact Hperm|apply alphabet_nodup]. }
  assert (Hcodes : codes_of (fold_left (fun d kv => set Ascii.eqb d (fst kv) (snd kv))
                                       (leaf_codes tree EmptyString)
                                       (encoding_table (self s))) content
                   = codes_of (leaf_codes tree EmptyString) content).
  { apply codes_of_agree. intros c Hc. apply table_lookup; [assumption|].
    apply (Permutation_in _ (Permutation_sym Hperm)). now apply alphabet_covers. }
  assert (Hbits : is_bits (codes_of (leaf_codes tree EmptyString) content) = true).
  { apply codes_fold_bits; [|reflexivity]. intros c k. now apply leaf_codes_bits. }
  destruct (group_bytes_round_trip _ (is_bits_pad_encoded_text _ Hbits)
              (pad_encoded_text_aligned _)) as [bytes' [E' [Hexp Hcount]]].
  rewrite Hbytes in E'. injection E' as <-.
  exists tree, bytes. rewrite E.
  cbn [fst snd files self with_files with_encoding_table with_alphabet_frequency
       encoding_table alphabet_frequency].
  split; [assumption|]. split; [reflexivity|]. split; [reflexivity|].
  split; [apply (get_set_same _ string_eqb_eq)|].
  split; [assumption|]. split; [assumption|]. split; assumption.
Qed.

(** X14.  After a run on a text that is not empty the payload file has two
    bytes more than an eighth, rounded down, of the number of bits that the
    codes of the characters of the text make: a byte for the header and a
    last byte that holds between 1 and 8 bits of padding.  This is the size
    [os.path.getsize] returns for it. *)
Theorem payload_size (s : State) (content : string) :
  file_text (files s) (path (self s)) = Some content ->
  content <> EmptyString ->
  snd (get_output_path (path (self s))) <> path (self s) ->
  fst (getsize (fst (get_output_path (path (self s)))) (snd (compress s)))
  = Ok (len (codes_of (encoding_table (self (snd (compress s)))) content) / 8 + 2).
Proof.
  intros Hfile Hne Halias.
  destruct (compress_payload s content Hfile Hne Halias)
    as [tree [payload [_ [_ [_ [Hget [Hcodes [_ [_ Hcount]]]]]]]]].
  unfold getsize. rewrite Hget. simpl. f_equal.
  rewrite Hcount, Hcodes, pad_encoded_text_length. apply padded_bytes_count.
Qed.

Lemma payload_size_witness :
  file_text (files (fresh "e.txt" "abracadabra")) (path (self (fresh "e.txt" "abracadabra")))
  = Some "abracadabra"
  /\ "abracadabra" <> EmptyString
  /\ snd (get_output_path (path (self (fresh "e.txt" "abracadabra"))))
     <> path (self (fresh "e.txt" "abracadabra"))
  /\ fst (getsize (fst (get_output_path (path (self (fresh "e.txt" "abracadabra")))))
                  (snd (compress (fresh "e.txt" "abracadabra"))))
     = Ok (len (codes_of (encoding_table (self (snd (compress (fresh "e.txt" "abracadabra")))))
                         "abracadabra") / 8 + 2).
Proof.
  assert (Halias : snd (get_output_path (path (self (fresh "e.txt" "abracadabra"))))
                   <> path (self (fresh "e.txt" "abracadabra"))).
  { vm_compute. discriminate. }
  split; [reflexivity|]. split; [discriminate|]. split; [exact Halias|].
  apply (payload_size (fresh "e.txt" "abracadabra") "abracadabra");
    [reflexivity|discriminate|exact Halias].
Defined.

Lemma single_char_text (c : ascii) (text : string) :
  (forall x, In x (list_ascii_of_string text) -> x = c) ->
  text = repeated c (String.length text).
Proof.
  induction text as [|x rest IH]; intros H; simpl; [reflexivity|].
  rewrite (H x) by now left. f_equal. apply IH. intros y Hy. apply H. now right.
Qed.

(** A text whose dictionary has a single entry is that character, as many
    times as the entry says. *)
Lemma single_entry_text (content : string) (c : ascii) (n : nat) :
  sort_alphabet_frequency (count_characters content) = [(c, n)] ->
  content = repeated c n.
Proof.
  intros H.
  pose proof (number_of_chars_alphabet content) as Hn. rewrite H in Hn.
  unfold number_of_chars in Hn. simpl in Hn.
  rewrite (single_char_text c content).
  - f_equal. lia.
  - intros x Hx. apply alphabet_covers in Hx. rewrite H in Hx.
    simpl in Hx. destruct Hx as [<-|[]]. reflexivity.
Qed.

(** Two texts with the same dictionary and the same padded bits are the
    same. *)
Lemma same_bits_same_text (content1 content2 : string) (tree : Node) :
  content1 <> EmptyString ->
  sort_alphabet_frequency (count_characters content1)
  = sort_alphabet_frequency (count_characters content2) ->
  create_tree (sort_alphabet_frequency (count_characters content1)) = Ok tree ->
  pad_encoded_text (codes_of (leaf_codes tree EmptyString) content1)
  = pad_encoded_text (codes_of (leaf_codes tree EmptyString) content2) ->
  content1 = content2.
Proof.
  intros Hne Haf Htree Hpad.
  assert (Hbits : codes_of (leaf_codes tree EmptyString) content1
                  = codes_of (leaf_codes tree EmptyString) content2).
  { pose proof (strip_padding_inverse (codes_of (leaf_codes tree EmptyString) content1)) as H1.
    rewrite Hpad, strip_padding_inverse in H1. congruence. }
  pose proof (alphabet_nodup content1) as Hnd.
  pose proof (alphabet_nonempty content1 Hne) as Hnonempty.
  pose proof (alphabet_covers content1) as Hc1.
  pose proof (alphabet_covers content2) as Hc2.
  rewrite <- Haf in Hc2.
  remember (sort_alphabet_frequency (count_characters content1)) as af eqn:Eaf.
  destruct af as [|[c n] [|e af']]; [congruence| |].
  - rewrite (single_entry_text content1 c n) by (now rewrite Eaf).
    rewrite (single_entry_text content2 c n) by (now rewrite <- Haf). reflexivity.
  - destruct (table_two_symbols ((c, n) :: e :: af') (fresh EmptyString EmptyString) Hnd)
      as [root [Hroot [Hndr [Hchars [_ Hcodes]]]]]; [simpl; lia|].
    rewrite Htree in Hroot. injection Hroot as <-.
    apply (codes_of_injective (leaf_codes tree EmptyString)); try assumption.
    + now rewrite leaf_codes_keys.
    + apply leaf_codes_prefix_free.
    + intros x k Hin. now apply (Hcodes x k).
    + intros x Hx. rewrite leaf_codes_keys.
      apply (Permutation_in _ (Permutation_sym Hchars)). now apply Hc1.
    + intros x Hx. rewrite leaf_codes_keys.
      apply (Permutation_in _ (Permutation_sym Hchars)). now apply Hc2.
Qed.

(** X15.  Where the frequency file is not the input file, compression
    loses nothing: when two runs, each on a text that is not empty and under
    a path whose frequency path is another path, leave the same frequency
    dictionary in their objects and the same bytes in their payload files,
    the two texts they compressed are the same. *)
Theorem compress_lossless (s1 s2 : State) (content1 content2 : string) :
  file_text (files s1) (path (self s1)) = Some content1 ->
  file_text (files s2) (path (self s2)) = Some content2 ->
  content1 <> EmptyString ->
  content2 <> EmptyString ->
  snd (get_output_path (path (self s1))) <> path (self s1) ->
  snd (get_output_path (path (self s2))) <> path (self s2) ->
  alphabet_frequency (self (snd (compress s1))) = alphabet_frequency (self (snd (compress s2))) ->
  get String.eqb (files (snd (compress s1))) (fst (get_output_path (path (self s1))))
  = get String.eqb (files (snd (compress s2))) (fst (get_output_path (path (self s2)))) ->
  content1 = content2.
Proof.
  intros Hf1 Hf2 Hne1 Hne2 Ha1 Ha2 Haf Hpayload.
  destruct (compress_payload s1 content1 Hf1 Hne1 Ha1)
    as [tree1 [p1 [Ht1 [_ [Haf1 [Hg1 [_ [_ [He1 _]]]]]]]]].
  destruct (compress_payload s2 content2 Hf2 Hne2 Ha2)
    as [tree2 [p2 [Ht2 [_ [Haf2 [Hg2 [_ [_ [He2 _]]]]]]]]].
  rewrite Haf1, Haf2 in Haf.
  rewrite Hg1, Hg2 in Hpayload. injection Hpayload as <-.
  rewrite <- Haf, Ht1 in Ht2. injection Ht2 as <-.
  apply (same_bits_same_text content1 content2 tree1 Hne1 Haf Ht1).
  now rewrite <- He1, <- He2.
Qed.

Lemma compress_lossless_witness :
  file_text (files (fresh "a.txt" "abba")) (path (self (fresh "a.txt" "abba"))) = Some "abba"
  /\ file_text (files (fresh "b.txt" "abba")) (path (self (fresh "b.txt" "abba")))
     = Some "abba"
  /\ "abba" <> EmptyString
  /\ snd (get_output_path (path (self (fresh "a.txt" "abba"))))
     <> path (self (fresh "a.txt" "abba"))
  /\ snd (get_output_path (path (self (fresh "b.txt" "abba"))))
     <> path (self (fresh "b.txt" "abba"))
  /\ alphabet_frequency (self (snd (compress (fresh "a.txt" "abba"))))
     = alphabet_frequency (self (snd (compress (fresh "b.txt" "abba"))))
  /\ get String.eqb (files (snd (compress (fresh "a.txt" "abba"))))
         (fst (get_output_path (path (self (fresh "a.txt" "abba")))))
     = get String.eqb (files (snd (compress (fresh "b.txt" "abba"))))
           (fst (get_output_path (path (self (fresh "b.txt" "abba")))))
  /\ "abba" = "abba".
Proof.
  assert (Ha : snd (get_output_path (path (self (fresh "a.txt" "abba"))))
               <> path (self (fresh "a.txt" "abba"))) by (vm_compute; discriminate).
  assert (Hb : snd (get_output_path (path (self (fresh "b.txt" "abba"))))
               <> path (self (fresh "b.txt" "abba"))) by (vm_compute; discriminate).
  assert (Hne : "abba" <> EmptyString) by discriminate.
  split; [reflexivity|]. split; [reflexivity|]. split; [exact Hne|].
  split; [exact Ha|]. split; [exact Hb|]. split; [reflexivity|]. split; [reflexivity|].
  apply (compress_lossless (fresh "a.txt" "abba") (fresh "b.txt" "abba") "abba" "abba"
                           eq_refl eq_refl Hne Hne Ha Hb eq_refl eq_refl).
Defined.

Lemma count_repeated (c : ascii) (n k : nat) :
  fold_left count_step (list_ascii_of_string (repeated c n)) [(c, k)] = [(c, k + n)].
Proof.
  revert k. induction n as [|n IH]; intros k; simpl.
  - now rewrite Nat.add_0_r.
  - unfold count_step at 2. unfold get_default. simpl. rewrite Ascii.eqb_refl.
    rewrite IH. do 2 f_equal. lia.
Qed.

Lemma alphabet_repeated (c : ascii) (n : nat) :
  sort_alphabet_frequency (count_characters (repeated c (S n))) = [(c, S n)].
Proof.
  unfold count_characters. simpl.
  unfold count_step at 2. simpl. rewrite count_repeated. reflexivity.
Qed.

Lemma codes_of_empty_code (c : ascii) (n : nat) :
  codes_of [(c, EmptyString)] (repeated c n) = EmptyString.
Proof.
  induction n as [|n IH]; [reflexivity|].
  simpl repeated. rewrite codes_of_cons, IH.
  unfold get_default. simpl. now rewrite Ascii.eqb_refl.
Qed.

(** X16.  Where the frequency file is not the input file, a text made of
    one character repeated is compressed to the same two bytes however long
    it is: the header 8 and a byte of padding.  The payload of such a text
    does not tell its length; only the frequency dictionary does. *)
Theorem single_symbol_payload (s : State) (c : ascii) (n : nat) :
  file_text (files s) (path (self s)) = Some (repeated c (S n)) ->
  snd (get_output_path (path (self s))) <> path (self s) ->
  fst (compress s) = Ok tt
  /\ alphabet_frequency (self (snd (compress s))) = [(c, S n)]
  /\ get String.eqb (files (snd (compress s))) (fst (get_output_path (path (self s))))
     = Some [Byte.x08; Byte.x00].
Proof.
  intros Hfile Halias.
  destruct (compress_run s (repeated c (S n)) Hfile) as [tree [bytes [Htree [Hbytes E]]]];
    [discriminate|assumption|].
  rewrite alphabet_repeated in *.
  assert (Ht : tree = Leaf c (S n) EmptyString).
  { unfold create_tree, create_leaves in Htree. simpl in Htree.
    unfold getitem in Htree. simpl in Htree. rewrite Ascii.eqb_refl in Htree.
    simpl in Htree. congruence. }
  subst tree. simpl leaf_codes in Hbytes.
  rewrite codes_of_empty_code in Hbytes. vm_compute in Hbytes. injection Hbytes as <-.
  rewrite E. cbn [fst snd files self with_files with_encoding_table
                  with_alphabet_frequency alphabet_frequency].
  split; [reflexivity|]. split; [reflexivity|].
  apply (get_set_same _ string_eqb_eq).
Qed.

Lemma single_symbol_payload_witness :
  file_text (files (fresh "z.txt" "zzzzzzzzzzzz")) (path (self (fresh "z.txt" "zzzzzzzzzzzz")))
  = Some (repeated "z" 12)
  /\ snd (get_output_path (path (self (fresh "z.txt" "zzzzzzzzzzzz"))))
     <> path (self (fresh "z.txt" "zzzzzzzzzzzz"))
  /\ fst (compress (fresh "z.txt" "zzzzzzzzzzzz")) = Ok tt
  /\ alphabet_frequency (self (snd (compress (fresh "z.txt" "zzzzzzzzzzzz"))))
     = [("z"%char, 12)]
  /\ get String.eqb (files (snd (compress (fresh "z.txt" "zzzzzzzzzzzz"))))
         (fst (get_output_path (path (self (fresh "z.txt" "zzzzzzzzzzzz")))))
     = Some [Byte.x08; Byte.x00].
Proof.
  assert (Ha : snd (get_output_path (path (self (fresh "z.txt" "zzzzzzzzzzzz"))))
               <> path (self (fresh "z.txt" "zzzzzzzzzzzz"))) by (vm_compute; discriminate).
  split; [reflexivity|]. split; [exact Ha|].
  apply (single_symbol_payload (fresh "z.txt" "zzzzzzzzzzzz") "z" 11 eq_refl Ha).
Defined.

(* ================================================================== *)
(** * Failures *)
(* ================================================================== *)

Lemma string_of_list_ascii_app (l1 l2 : list ascii) :
  string_of_list_ascii (l1 ++ l2)
  = (string_of_list_ascii l1 ++ string_of_list_ascii l2)%string.
Proof. induction l1 as [|x l1 IH]; simpl; [reflexivity|now rewrite IH]. Qed.

Lemma list_ascii_of_string_append (a b : string) :
  list_ascii_of_string (a ++ b) = list_ascii_of_string a ++ list_ascii_of_string b.
Proof. induction a as [|x a IH]; simpl; [reflexivity|now rewrite IH]. Qed.

(** The loop of the encoder stops at the first character without a code. *)
Lemma encode_fold_missing (l1 l2 : list ascii) (c : ascii) (acc : string) (s : State) :
  (forall x, In x l1 -> get Ascii.eqb (encoding_table (self s)) x <> None) ->
  get Ascii.eqb (encoding_table (self s)) c = None ->
  for_fold (l1 ++ c :: l2) acc
    (fun binary_code char =>
       self <- get_self ;;
       code <- lift (getitem (encoding_table self) char) ;;
       ret (binary_code ++ code)%string) s
  = (Raise (KeyError c), s).
Proof.
  revert acc. induction l1 as [|x l1 IH]; intros acc H1 Hc; simpl.
  - unfold bind, get_self, lift, getitem. now rewrite Hc.
  - unfold bind at 1. unfold bind at 1. unfold get_self at 1.
    unfold bind at 1. unfold lift at 1. unfold getitem at 1.
    destruct (get Ascii.eqb (encoding_table (self s)) x) as [k|] eqn:E.
    + unfold ret at 1. apply IH; [|assumption]. intros y Hy. apply H1. now right.
    + exfalso. apply (H1 x); [now left|exact E].
Qed.

(** X17.  When a character of the input file has no code in the table, the
    payload writer fails with the [KeyError] of the first such character,
    and does so before it opens the payload file: the files are as they
    were. *)
Theorem write_compressed_file_key_error
        (output before after : string) (c : ascii) (s : State) :
  file_text (files s) (path (self s)) = Some (before ++ String c after)%string ->
  (forall x, In x (list_ascii_of_string before) ->
             get Ascii.eqb (encoding_table (self s)) x <> None) ->
  get Ascii.eqb (encoding_table (self s)) c = None ->
  write_compressed_file output s = (Raise (KeyError c), s).
Proof.
  intros Hfile Hbefore Hc. unfold write_compressed_file.
  unfold bind at 1. unfold get_self at 1.
  unfold bind at 1. unfold read_file. rewrite (read_text_run _ _ _ Hfile).
  unfold bind at 1. unfold encode. unfold bind at 1. unfold encode_loop.
  rewrite list_ascii_of_string_append. simpl list_ascii_of_string.
  now rewrite encode_fold_missing.
Qed.

Lemma write_compressed_file_key_error_witness :
  file_text (files (with_encoding_table (fresh "a.txt" "abc") [("a"%char, "0")]))
            (path (self (with_encoding_table (fresh "a.txt" "abc") [("a"%char, "0")])))
  = Some ("a" ++ String "b" "c")%string
  /\ (forall x, In x (list_ascii_of_string "a") ->
                get Ascii.eqb
                    (encoding_table
                       (self (with_encoding_table (fresh "a.txt" "abc") [("a"%char, "0")])))
                    x <> None)
  /\ get Ascii.eqb
         (encoding_table (self (with_encoding_table (fresh "a.txt" "abc") [("a"%char, "0")])))
         "b"%char = None
  /\ write_compressed_file "a_comp.bin"
       (with_encoding_table (fresh "a.txt" "abc") [("a"%char, "0")])
     = (Raise (KeyError "b"), with_encoding_table (fresh "a.txt" "abc") [("a"%char, "0")]).
Proof.
  assert (H : forall x, In x (list_ascii_of_string "a") ->
                        get Ascii.eqb
                            (encoding_table
                               (self (with_encoding_table (fresh "a.txt" "abc")
                                                          [("a"%char, "0")])))
                            x <> None).
  { intros x [<-|[]]. discriminate. }
  split; [reflexivity|]. split; [exact H|]. split; [reflexivity|].
  apply (write_compressed_file_key_error
           "a_comp.bin" "a" "c" "b"%char
           (with_encoding_table (fresh "a.txt" "abc") [("a"%char, "0")]));
    [reflexivity|exact H|reflexivity].
Defined.

(** X18.  Without a file under the path of the object a run fails with
    [FileNotFoundError] at its first step and changes nothing: neither the
    object, nor a file, nor the output. *)
Theorem compress_missing_input (s : State) :
  get String.eqb (files s) (path (self s)) = None ->
  compress s = (Raise (FileNotFoundError (path (self s))), s).
Proof.
  intros H. unfold compress. unfold bind at 1. unfold get_self at 1.
  destruct (get_output_path (path (self s))) as [bin_path freq_path].
  unfold bind at 1. unfold create_alphabet_frequency.
  unfold bind at 1. unfold get_self at 1.
  unfold bind at 1. unfold read_text, file_text. now rewrite H.
Qed.

Lemma compress_missing_input_witness :
  get String.eqb (files (mkState (init "a.txt") [] [])) (path (self (mkState (init "a.txt") [] [])))
  = None
  /\ compress (mkState (init "a.txt") [] [])
     = (Raise (FileNotFoundError (path (self (mkState (init "a.txt") [] [])))),
        mkState (init "a.txt") [] []).
Proof.
  split; [reflexivity|].
  apply (compress_missing_input (mkState (init "a.txt") [] [])). reflexivity.
Defined.

(** X19.  The tree builder ends on every dictionary: with a tree when the
    dictionary has an entry, with [IndexError] when it has none.  The
    removals of [__merge_nodes] never fail in it, and its loop ends. *)
Theorem create_tree_outcome (af : dict ascii nat) :
  (af = [] -> create_tree af = Raise IndexError)
  /\ (af <> [] -> exists root, create_tree af = Ok root).
Proof.
  split.
  - intros ->. reflexivity.
  - intros Hne. unfold create_tree.
    destruct (create_leaves_ok af) as [nodes [-> Hl]]. simpl.
    destruct nodes as [|n nodes]; [destruct af; [congruence|discriminate]|].
    destruct (create_tree_loop_root (List.length (n :: nodes)) (n :: nodes))
      as [root [-> _]]; [discriminate|lia|].
    now exists root.
Qed.

Lemma create_tree_outcome_witness :
  [("b"%char, 1); ("a"%char, 3)] <> []
  /\ exists root, create_tree [("b"%char, 1); ("a"%char, 3)] = Ok root.
Proof.
  split; [discriminate|].
  apply (create_tree_outcome [("b"%char, 1); ("a"%char, 3)]). discriminate.
Defined.

(* ================================================================== *)
(** * The paths of the output *)
(* ================================================================== *)

Lemma prefix_cons (a b : ascii) (s1 s2 : string) :
  prefix (String a s1) (String b s2) = if ascii_dec a b then prefix s1 s2 else false.
Proof. simpl. now destruct (ascii_dec a b). Qed.

Lemma replace_from_no_dot_t (new base rest : string) :
  no_dot_t base = true ->
  replace_from ".txt" new 0 (base ++ rest)
  = (base ++ replace_from ".txt" new 0 rest)%string.
Proof.
  induction base as [|c base IH]; intros H; [reflexivity|].
  simpl in H. apply andb_true_iff in H. destruct H as [Hc Hbase].
  cbn [append replace_from].
  assert (Hp : prefix ".txt" (String c (base ++ rest)) = false).
  { rewrite prefix_cons. destruct (ascii_dec "." c) as [<-|Hne]; [|reflexivity].
    rewrite Ascii.eqb_refl in Hc. destruct base as [|d base]; [discriminate|].
    cbn [append]. rewrite prefix_cons.
    destruct (ascii_dec "t" d) as [<-|]; [discriminate|reflexivity]. }
  rewrite Hp. f_equal. now apply IH.
Qed.

Lemma output_paths_extension (base : string) :
  no_dot_t base = true ->
  get_output_path (base ++ ".txt") = ((base ++ "_comp.bin")%string, (base ++ "_freq.txt")%string)
  /\ (base ++ "_comp.bin")%string <> (base ++ ".txt")%string
  /\ (base ++ "_freq.txt")%string <> (base ++ ".txt")%string
  /\ (base ++ "_comp.bin")%string <> (base ++ "_freq.txt")%string.
Proof.
  intros H. unfold get_output_path, replace.
  rewrite !replace_from_no_dot_t by assumption. simpl.
  split; [reflexivity|].
  repeat split; intros E; apply append_cancel_l in E; discriminate.
Qed.

(** X20.  For a path that ends with the extension [.txt] and has no other
    place where a dot is followed by a t, the payload path and the path of
    the frequency file are the path with [_comp.bin] and [_freq.txt] in
    place of the extension; the three paths are different. *)
Theorem get_output_path_extension (base : string) :
  no_dot_t base = true ->
  get_output_path (base ++ ".txt") = ((base ++ "_comp.bin")%string, (base ++ "_freq.txt")%string)
  /\ (base ++ "_comp.bin")%string <> (base ++ ".txt")%string
  /\ (base ++ "_freq.txt")%string <> (base ++ ".txt")%string
  /\ (base ++ "_comp.bin")%string <> (base ++ "_freq.txt")%string.
Proof. apply output_paths_extension. Qed.

Lemma get_output_path_extension_witness :
  no_dot_t "./tests/alice" = true
  /\ get_output_path ("./tests/alice" ++ ".txt")
     = (("./tests/alice" ++ "_comp.bin")%string, ("./tests/alice" ++ "_freq.txt")%string)
  /\ ("./tests/alice" ++ "_comp.bin")%string <> ("./tests/alice" ++ ".txt")%string
  /\ ("./tests/alice" ++ "_freq.txt")%string <> ("./tests/alice" ++ ".txt")%string
  /\ ("./tests/alice" ++ "_comp.bin")%string <> ("./tests/alice" ++ "_freq.txt")%string.
Proof.
  split; [reflexivity|].
  apply (get_output_path_extension "./tests/alice"). reflexivity.
Defined.

Lemma output_paths_alias (p : string) :
  no_dot_t p = true -> get_output_path p = (p, p).
Proof.
  intros H.
  assert (E : forall new, replace_from ".txt" new 0 p = p).
  { intros new. rewrite <- (append_nil_r p) at 1.
    rewrite replace_from_no_dot_t by assumption. simpl. apply append_nil_r. }
  unfold get_output_path, replace. now rewrite !E.
Qed.

(** X21.  For a path without the extension, in which no dot is followed by
    a t, both output paths are the path of the input itself. *)
Theorem get_output_path_without_extension (p : string) :
  no_dot_t p = true -> get_output_path p = (p, p).
Proof. apply output_paths_alias. Qed.

Lemma get_output_path_without_extension_witness :
  no_dot_t "notes.md" = true /\ get_output_path "notes.md" = ("notes.md", "notes.md").
Proof.
  split; [reflexivity|].
  apply (get_output_path_without_extension "notes.md"). reflexivity.
Defined.

(* ================================================================== *)
(** * What a run never does *)
(* ================================================================== *)

Lemma keeps_to_ret (W : list string) {A : Type} (a : A) : keeps_to W (ret a).
Proof. intros s. simpl. auto. Qed.

Lemma keeps_to_lift (W : list string) {A : Type} (r : result A) : keeps_to W (lift r).
Proof. intros s. simpl. auto. Qed.

Lemma keeps_to_bind (W : list string) {A B : Type} (m : M A) (k : A -> M B) :
  keeps_to W m -> (forall a, keeps_to W (k a)) -> keeps_to W (bind m k).
Proof.
  intros Hm Hk s. unfold bind.
  destruct (Hm s) as [Hp Hf]. destruct (m s) as [[a|e|] s']; simpl in *; auto.
  destruct (Hk a s') as [Hp' Hf']. split; [congruence|].
  intros q Hq. rewrite Hf' by assumption. now apply Hf.
Qed.

Lemma keeps_to_get_self (W : list string) : keeps_to W get_self.
Proof. intros s. simpl. auto. Qed.

Lemma keeps_to_set_alphabet_frequency (W : list string) (af : dict ascii nat) :
  keeps_to W (set_alphabet_frequency af).
Proof. intros s. simpl. auto. Qed.

Lemma keeps_to_set_encoding_table (W : list string) (t : dict ascii string) :
  keeps_to W (set_encoding_table t).
Proof. intros s. simpl. auto. Qed.

Lemma keeps_to_print (W : list string) (line : string) : keeps_to W (print line).
Proof. intros s. simpl. auto. Qed.

Lemma keeps_to_read_text (W : list string) (q : string) : keeps_to W (read_text q).
Proof. intros s. unfold read_text. destruct (file_text (files s) q); simpl; auto. Qed.

Lemma keeps_to_open_write (W : list string) (q : string) :
  In q W -> keeps_to W (open_write q).
Proof.
  intros Hq s. unfold open_write, set_files. simpl. split; [reflexivity|].
  intros q' Hq'. apply (get_set_other _ string_eqb_eq). congruence.
Qed.

Lemma keeps_to_write_bytes (W : list string) (q : string) (b : list byte) :
  In q W -> keeps_to W (write_bytes q b).
Proof.
  intros Hq s. unfold write_bytes, set_files. simpl. split; [reflexivity|].
  intros q' Hq'. apply (get_set_other _ string_eqb_eq). congruence.
Qed.

Lemma keeps_to_for_each (W : list string) {A : Type} (l : list A) (body : A -> M unit) :
  (forall x, keeps_to W (body x)) -> keeps_to W (for_each l body).
Proof.
  intros H. induction l as [|x l IH]; simpl; [apply keeps_to_ret|].
  apply keeps_to_bind; [apply H|intros _; exact IH].
Qed.

Lemma keeps_to_for_fold (W : list string) {A B : Type} (l : list A) (acc : B)
      (body : B -> A -> M B) :
  (forall acc x, keeps_to W (body acc x)) -> keeps_to W (for_fold l acc body).
Proof.
  intros H. revert acc. induction l as [|x l IH]; intros acc; simpl; [apply keeps_to_ret|].
  apply keeps_to_bind; [apply H|intros acc'; apply IH].
Qed.

Lemma keeps_to_build_encoding_table (W : list string) (node : Node) (code : string) :
  keeps_to W (build_encoding_table node code).
Proof.
  revert code. induction node as [c f k|f l IHl r IHr k]; intros code; simpl.
  - apply keeps_to_bind; [apply keeps_to_get_self|intros obj].
    apply keeps_to_set_encoding_table.
  - apply keeps_to_bind; [apply IHl|intros _; apply IHr].
Qed.

Lemma keeps_to_write_alphabet_frequency (W : list string) (output : string)
      (af : dict ascii nat) :
  In output W -> keeps_to W (write_alphabet_frequency output af).
Proof.
  intros H. unfold write_alphabet_frequency.
  apply keeps_to_bind; [now apply keeps_to_open_write|intros _].
  apply keeps_to_bind; [now apply keeps_to_write_bytes|intros _].
  apply keeps_to_for_each. intros char.
  apply keeps_to_bind; [now apply keeps_to_write_bytes|intros _].
  apply keeps_to_bind; [apply keeps_to_lift|intros f].
  now apply keeps_to_write_bytes.
Qed.

Lemma keeps_to_encode (W : list string) (content : string) : keeps_to W (encode content).
Proof.
  unfold encode, encode_loop.
  apply keeps_to_bind; [|intros b; apply keeps_to_ret].
  apply keeps_to_for_fold. intros acc char.
  apply keeps_to_bind; [apply keeps_to_get_self|intros obj].
  apply keeps_to_bind; [apply keeps_to_lift|intros k]. apply keeps_to_ret.
Qed.

Lemma keeps_to_get_byte_array (W : list string) (text : string) :
  keeps_to W (get_byte_array text).
Proof.
  unfold get_byte_array.
  apply keeps_to_bind; [|intros _].
  - destruct (negb (len text mod 8 =? 0)); [|apply keeps_to_ret].
    apply keeps_to_bind; [apply keeps_to_print|intros _]. apply keeps_to_lift.
  - apply keeps_to_for_fold. intros b i.
    apply keeps_to_bind; [apply keeps_to_lift|intros v]. apply keeps_to_lift.
Qed.

Lemma keeps_to_write_compressed_file (W : list string) (output : string) :
  In output W -> keeps_to W (write_compressed_file output).
Proof.
  intros H. unfold write_compressed_file.
  apply keeps_to_bind; [apply keeps_to_get_self|intros obj].
  apply keeps_to_bind; [apply keeps_to_read_text|intros file_content].
  apply keeps_to_bind; [apply keeps_to_encode|intros binary_code].
  apply keeps_to_bind; [now apply keeps_to_open_write|intros _].
  apply keeps_to_bind; [apply keeps_to_get_byte_array|intros b].
  now apply keeps_to_write_bytes.
Qed.

(** X22.  Whatever the state and however the run ends, [compress] changes no
    file other than the two under its output paths, and leaves the path of
    the object as it is. *)
Theorem compress_keeps_to_outputs (s : State) (q : string) :
  q <> fst (get_output_path (path (self s))) ->
  q <> snd (get_output_path (path (self s))) ->
  get String.eqb (files (snd (compress s))) q = get String.eqb (files s) q
  /\ path (self (snd (compress s))) = path (self s).
Proof.
  intros Hbin Hfreq.
  assert (H : keeps_to [fst (get_output_path (path (self s)));
                        snd (get_output_path (path (self s)))]
                       (bind get_self
                             (fun _ =>
                                let '(bin_path, freq_path) := get_output_path (path (self s)) in
                                af <- create_alphabet_frequency ;;
                                set_alphabet_frequency af ;;
                                self <- get_self ;;
                                tree <- lift (create_tree (alphabet_frequency self)) ;;
                                build_encoding_table tree EmptyString ;;
                                self <- get_self ;;
                                write_alphabet_frequency freq_path (alphabet_frequency self) ;;
                                write_compressed_file bin_path))).
  { apply keeps_to_bind; [apply keeps_to_get_self|intros _].
    destruct (get_output_path (path (self s))) as [bin_path freq_path]. simpl fst. simpl snd.
    apply keeps_to_bind;
      [unfold create_alphabet_frequency;
       apply keeps_to_bind; [apply keeps_to_get_self|intros obj];
       apply keeps_to_bind; [apply keeps_to_read_text|intros content];
       apply keeps_to_ret|intros af].
    apply keeps_to_bind; [apply keeps_to_set_alphabet_frequency|intros _].
    apply keeps_to_bind; [apply keeps_to_get_self|intros obj1].
    apply keeps_to_bind; [apply keeps_to_lift|intros tree].
    apply keeps_to_bind; [apply keeps_to_build_encoding_table|intros _].
    apply keeps_to_bind; [apply keeps_to_get_self|intros obj2].
    apply keeps_to_bind;
      [apply keeps_to_write_alphabet_frequency; right; now left|intros _].
    apply keeps_to_write_compressed_file. now left. }
  destruct (H s) as [Hp Hf].
  split; [|exact Hp].
  apply (Hf q). intros [E|[E|[]]]; [apply Hbin|apply Hfreq]; now symmetry.
Qed.

Lemma compress_keeps_to_outputs_witness :
  "notes.md" <> fst (get_output_path
                       (path (self (mkState (init "aaab.txt")
                                            [("notes.md", [Byte.x01]);
                                             ("aaab.txt", list_byte_of_string "aaab")] []))))
  /\ "notes.md" <> snd (get_output_path
                          (path (self (mkState (init "aaab.txt")
                                               [("notes.md", [Byte.x01]);
                                                ("aaab.txt", list_byte_of_string "aaab")]
                                               []))))
  /\ get String.eqb
         (files (snd (compress (mkState (init "aaab.txt")
                                        [("notes.md", [Byte.x01]);
                                         ("aaab.txt", list_byte_of_string "aaab")] []))))
         "notes.md"
     = get String.eqb
           (files (mkState (init "aaab.txt")
                           [("notes.md", [Byte.x01]);
                            ("aaab.txt", list_byte_of_string "aaab")] []))
           "notes.md"
  /\ path (self (snd (compress (mkState (init "aaab.txt")
                                        [("notes.md", [Byte.x01]);
                                         ("aaab.txt", list_byte_of_string "aaab")] []))))
     = path (self (mkState (init "aaab.txt")
                           [("notes.md", [Byte.x01]);
                            ("aaab.txt", list_byte_of_string "aaab")] [])).
Proof.
  assert (H1 : "notes.md"
               <> fst (get_output_path
                         (path (self (mkState (init "aaab.txt")
                                              [("notes.md", [Byte.x01]);
                                               ("aaab.txt", list_byte_of_string "aaab")]
                                              []))))) by (vm_compute; discriminate).
  assert (H2 : "notes.md"
               <> snd (get_output_path
                         (path (self (mkState (init "aaab.txt")
                                              [("notes.md", [Byte.x01]);
                                               ("aaab.txt", list_byte_of_string "aaab")]
                                              []))))) by (vm_compute; discriminate).
  split; [exact H1|]. split; [exact H2|].
  apply (compress_keeps_to_outputs _ "notes.md" H1 H2).
Defined.

Lemma quiet_ret {A : Type} (a : A) : quiet (ret a).
Proof. intros s. simpl. split; [reflexivity|discriminate]. Qed.

Lemma quiet_lift {A : Type} (r : result A) :
  (forall status, r <> Raise (SystemExit status)) -> quiet (lift r).
Proof. intros H s. simpl. auto. Qed.

Lemma quiet_bind_post {A B : Type} (m : M A) (k : A -> M B) (P : A -> Prop) :
  quiet m ->
  (forall s a, fst (m s) = Ok a -> P a) ->
  (forall a, P a -> quiet (k a)) ->
  quiet (bind m k).
Proof.
  intros Hm HP Hk s. unfold bind.
  destruct (Hm s) as [Hout Hexit]. pose proof (HP s) as HPs.
  destruct (m s) as [[a|e|] s']; simpl in *.
  - destruct (Hk a (HPs a eq_refl) s') as [Hout' Hexit'].
    split; [now rewrite Hout'|assumption].
  - split; [assumption|]. intros status E. apply (Hexit status).
    injection E as ->. reflexivity.
  - split; [assumption|discriminate].
Qed.

Lemma quiet_bind {A B : Type} (m : M A) (k : A -> M B) :
  quiet m -> (forall a, quiet (k a)) -> quiet (bind m k).
Proof.
  intros Hm Hk. apply (quiet_bind_post m k (fun _ => True)); auto.
Qed.

Lemma quiet_get_self : quiet get_self.
Proof. intros s. simpl. split; [reflexivity|discriminate]. Qed.

Lemma quiet_set_alphabet_frequency (af : dict ascii nat) : quiet (set_alphabet_frequency af).
Proof. intros s. simpl. split; [reflexivity|discriminate]. Qed.

Lemma quiet_set_encoding_table (t : dict ascii string) : quiet (set_encoding_table t).
Proof. intros s. simpl. split; [reflexivity|discriminate]. Qed.

Lemma quiet_read_text (q : string) : quiet (read_text q).
Proof.
  intros s. unfold read_text. destruct (file_text (files s) q); simpl;
    (split; [reflexivity|discriminate]).
Qed.

Lemma quiet_open_write (q : string) : quiet (open_write q).
Proof. intros s. simpl. split; [reflexivity|discriminate]. Qed.

Lemma quiet_write_bytes (q : string) (b : list byte) : quiet (write_bytes q b).
Proof. intros s. simpl. split; [reflexivity|discriminate]. Qed.

Lemma quiet_for_each {A : Type} (l : list A) (body : A -> M unit) :
  (forall x, quiet (body x)) -> quiet (for_each l body).
Proof.
  intros H. induction l as [|x l IH]; simpl; [apply quiet_ret|].
  apply quiet_bind; [apply H|intros _; exact IH].
Qed.

Lemma quiet_for_fold {A B : Type} (l : list A) (acc : B) (body : B -> A -> M B) :
  (forall acc x, quiet (body acc x)) -> quiet (for_fold l acc body).
Proof.
  intros H. revert acc. induction l as [|x l IH]; intros acc; simpl; [apply quiet_ret|].
  apply quiet_bind; [apply H|intros acc'; apply IH].
Qed.

Lemma quiet_getitem {V : Type} (d : dict ascii V) (k : ascii) : quiet (lift (getitem d k)).
Proof.
  apply quiet_lift. intros status. unfold getitem.
  destruct (get Ascii.eqb d k); discriminate.
Qed.

Lemma quiet_build_encoding_table (node : Node) (code : string) :
  quiet (build_encoding_table node code).
Proof.
  revert code. induction node as [c f k|f l IHl r IHr k]; intros code; simpl.
  - apply quiet_bind; [apply quiet_get_self|intros obj]. apply quiet_set_encoding_table.
  - apply quiet_bind; [apply IHl|intros _; apply IHr].
Qed.

Lemma quiet_write_alphabet_frequency (output : string) (af : dict ascii nat) :
  quiet (write_alphabet_frequency output af).
Proof.
  unfold write_alphabet_frequency.
  apply quiet_bind; [apply quiet_open_write|intros _].
  apply quiet_bind; [apply quiet_write_bytes|intros _].
  apply quiet_for_each. intros char.
  apply quiet_bind; [apply quiet_write_bytes|intros _].
  apply quiet_bind; [apply quiet_getitem|intros f].
  apply quiet_write_bytes.
Qed.

Lemma quiet_encode_loop (content : string) : quiet (encode_loop content).
Proof.
  unfold encode_loop. apply quiet_for_fold. intros acc char.
  apply quiet_bind; [apply quiet_get_self|intros obj].
  apply quiet_bind; [apply quiet_getitem|intros k]. apply quiet_ret.
Qed.

Lemma quiet_encode (content : string) : quiet (encode content).
Proof.
  unfold encode. apply quiet_bind; [apply quiet_encode_loop|intros b; apply quiet_ret].
Qed.

(** What the encoder returns is a padded string. *)
Lemma encode_returns_padded (content : string) (s : State) (text : string) :
  fst (encode content s) = Ok text -> len text mod 8 = 0.
Proof.
  unfold encode, bind.
  destruct (encode_loop content s) as [[b|e|] s']; simpl; try discriminate.
  intros [= <-]. apply pad_encoded_text_aligned.
Qed.

Lemma quiet_get_byte_array_aligned (text : string) :
  len text mod 8 = 0 -> quiet (get_byte_array text).
Proof.
  intros Ha s. rewrite get_byte_array_aligned by assumption.
  revert s. apply quiet_for_fold. intros b i.
  apply quiet_bind.
  - apply quiet_lift. intros status.
    destruct (int2_outcome (slice text i (i + 8))) as [[v ->] | ->]; discriminate.
  - intros v. apply quiet_lift. intros status.
    destruct (bytearray_append_outcome b v) as [[b' ->] | ->]; discriminate.
Qed.

Lemma quiet_write_compressed_file (output : string) : quiet (write_compressed_file output).
Proof.
  unfold write_compressed_file.
  apply quiet_bind; [apply quiet_get_self|intros obj].
  apply quiet_bind; [apply quiet_read_text|intros file_content].
  apply (quiet_bind_post _ _ (fun text => len text mod 8 = 0));
    [apply quiet_encode|apply encode_returns_padded|intros binary_code Ha].
  apply quiet_bind; [apply quiet_open_write|intros _].
  apply quiet_bind; [now apply quiet_get_byte_array_aligned|intros b].
  apply quiet_write_bytes.
Qed.

(** X23.  The guard of the grouping step never fires on what the encoder
    returns: whatever the text, the table and the state, a string returned
    by [__encode] goes through [__get_byte_array] without the message being
    printed and without [exit]. *)
Theorem guard_never_fires_after_encode (content text : string) (s s' : State) :
  fst (encode content s) = Ok text ->
  stdout (snd (get_byte_array text s')) = stdout s'
  /\ forall status, fst (get_byte_array text s') <> Raise (SystemExit status).
Proof.
  intros H. apply encode_returns_padded in H.
  exact (quiet_get_byte_array_aligned text H s').
Qed.

Lemma guard_never_fires_after_encode_witness :
  fst (encode "ab" (with_encoding_table (fresh "ab.txt" "ab")
                      [("a"%char, "0"); ("b"%char, "1")]))
  = Ok "0000011001000000"%string
  /\ stdout (snd (get_byte_array "0000011001000000" (fresh "ab.txt" "ab")))
     = stdout (fresh "ab.txt" "ab")
  /\ forall status,
       fst (get_byte_array "0000011001000000" (fresh "ab.txt" "ab"))
       <> Raise (SystemExit status).
Proof.
  split; [reflexivity|].
  apply (guard_never_fires_after_encode
           "ab" "0000011001000000"
           (with_encoding_table (fresh "ab.txt" "ab") [("a"%char, "0"); ("b"%char, "1")])
           (fresh "ab.txt" "ab")).
  reflexivity.
Defined.

(* ================================================================== *)
(** * What the frequency file keeps *)
(* ================================================================== *)

Lemma in_all_chars (c : ascii) : In c all_chars.
Proof.
  unfold all_chars. rewrite <- (ascii_nat_embedding c).
  apply in_map. apply in_seq. pose proof (nat_ascii_bounded c). lia.
Qed.

(** The escaped form of a character starts that of no other character. *)
Lemma escaped_prefix (a b : ascii) : prefix (escaped a) (escaped b) = true -> a = b.
Proof.
  assert (H : forallb
                (fun x => forallb
                            (fun y => implb (prefix (escaped x) (escaped y)) (Ascii.eqb x y))
                            all_chars)
                all_chars = true) by (vm_compute; reflexivity).
  rewrite forallb_forall in H. specialize (H a (in_all_chars a)).
  rewrite forallb_forall in H. specialize (H b (in_all_chars b)).
  intros P. rewrite P in H. simpl in H. now apply ascii_eqb_eq.
Qed.

Lemma str_injective (n m : nat) : str n = str m -> n = m.
Proof.
  unfold str. intros H.
  assert (E : Nat.to_uint n = Nat.to_uint m).
  { pose proof (NilEmpty.usu (Nat.to_uint n)) as Hn.
    rewrite H, NilEmpty.usu in Hn. congruence. }
  rewrite <- (DecimalNat.Unsigned.of_to n), <- (DecimalNat.Unsigned.of_to m).
  now rewrite E.
Qed.

Lemma sidecar_line_cases (c1 c2 : ascii) (f1 f2 : nat) :
  (escaped c1 ++ " " ++ str f1)%string = (escaped c2 ++ " " ++ str f2)%string ->
  c1 = c2 /\ f1 = f2.
Proof.
  intros H.
  assert (Hc : c1 = c2).
  { destruct (append_eq_prefix _ _ _ _ H) as [P|P].
    - now apply escaped_prefix.
    - symmetry. now apply escaped_prefix. }
  subst c2. split; [reflexivity|].
  apply append_cancel_l in H. simpl in H. injection H as H.
  now apply str_injective.
Qed.

(** X24.  A line of the frequency file tells its entry: two entries with the
    same line, the escaped character, a space and the frequency, are the
    same entry. *)
Theorem sidecar_line_injective (c1 c2 : ascii) (f1 f2 : nat) :
  (slice_1_m1 (repr c1) ++ " " ++ str f1)%string
  = (slice_1_m1 (repr c2) ++ " " ++ str f2)%string ->
  c1 = c2 /\ f1 = f2.
Proof. apply sidecar_line_cases. Qed.

Lemma sidecar_line_injective_witness :
  (slice_1_m1 (repr " ") ++ " " ++ str 12)%string
  = (slice_1_m1 (repr " ") ++ " " ++ str 12)%string
  /\ " "%char = " "%char /\ 12 = 12.
Proof.
  split; [reflexivity|].
  apply (sidecar_line_injective " " " " 12 12). reflexivity.
Defined.

Lemma unlines_cons_injective (l1 l2 x y : string) :
  no_newline l1 = true ->
  no_newline l2 = true ->
  (l1 ++ nl ++ x)%string = (l2 ++ nl ++ y)%string ->
  l1 = l2 /\ x = y.
Proof.
  revert l2. induction l1 as [|a l1 IH]; intros [|b l2] H1 H2 E; simpl in *.
  - injection E as E. auto.
  - injection E as <- E. discriminate H2.
  - injection E as -> E. discriminate H1.
  - injection E as <- E.
    apply andb_true_iff in H1. apply andb_true_iff in H2.
    destruct (IH l2) as [-> ->]; tauto.
Qed.

Lemma unlines_injective (ls1 ls2 : list string) :
  Forall (fun l => no_newline l = true) ls1 ->
  Forall (fun l => no_newline l = true) ls2 ->
  unlines ls1 = unlines ls2 ->
  ls1 = ls2.
Proof.
  intros H1. revert ls2. induction H1 as [|l1 ls1 Hl1 H1 IH]; intros ls2 H2 E.
  - destruct ls2 as [|l2 ls2]; [reflexivity|].
    simpl in E. destruct l2; discriminate E.
  - destruct H2 as [|l2 ls2 Hl2 H2].
    + simpl in E. destruct l1; discriminate E.
    + simpl in E.
      destruct (unlines_cons_injective _ _ _ _ Hl1 Hl2 E) as [-> E'].
      f_equal. now apply IH.
Qed.

Lemma sidecar_lines_no_newline (af : dict ascii nat) :
  Forall (fun line => no_newline line = true) (sidecar_lines af).
Proof.
  unfold sidecar_lines. constructor; [apply no_newline_str|].
  apply Forall_forall. intros line Hline.
  apply in_map_iff in Hline. destruct Hline as [[c f] [<- _]]. cbn [fst snd].
  now rewrite !no_newline_append, no_newline_escaped, no_newline_str.
Qed.

Lemma sidecar_injective (af1 af2 : dict ascii nat) :
  unlines (sidecar_lines af1) = unlines (sidecar_lines af2) -> af1 = af2.
Proof.
  intros H.
  apply unlines_injective in H; try apply sidecar_lines_no_newline.
  unfold sidecar_lines in H. injection H as _ H.
  revert af2 H. induction af1 as [|[c1 f1] af1 IH]; intros [|[c2 f2] af2] H;
    simpl in H; try discriminate; [reflexivity|].
  injection H as Hline H.
  destruct (sidecar_line_cases c1 c2 f1 f2 Hline) as [-> ->].
  f_equal. now apply IH.
Qed.

Lemma list_byte_of_string_injective (a b : string) :
  list_byte_of_string a = list_byte_of_string b -> a = b.
Proof.
  intros H. rewrite <- (string_of_list_byte_of_string a), <- (string_of_list_byte_of_string b).
  now rewrite H.
Qed.

(** X25.  The frequency file tells the frequency dictionary: two
    dictionaries whose frequency files hold the same bytes are the same
    dictionary, entry by entry and in the same order. *)
Theorem frequency_file_determines_dictionary
        (output1 output2 : string) (af1 af2 : dict ascii nat) (s1 s2 : State) :
  NoDup (keys af1) ->
  NoDup (keys af2) ->
  get String.eqb (files (snd (write_alphabet_frequency output1 af1 s1))) output1
  = get String.eqb (files (snd (write_alphabet_frequency output2 af2 s2))) output2 ->
  af1 = af2.
Proof.
  intros H1 H2.
  rewrite !write_alphabet_frequency_run by assumption. simpl.
  rewrite !(get_set_same _ string_eqb_eq). intros [= E].
  apply sidecar_injective. now apply list_byte_of_string_injective.
Qed.

Lemma frequency_file_determines_dictionary_witness :
  NoDup (keys [("b"%char, 1); ("a"%char, 3)])
  /\ get String.eqb
         (files (snd (write_alphabet_frequency "x_freq.txt" [("b"%char, 1); ("a"%char, 3)]
                                               (fresh "x.txt" "aaab"))))
         "x_freq.txt"
     = get String.eqb
           (files (snd (write_alphabet_frequency "y_freq.txt" [("b"%char, 1); ("a"%char, 3)]
                                                 (fresh "y.txt" "abaa"))))
           "y_freq.txt"
  /\ [("b"%char, 1); ("a"%char, 3)] = [("b"%char, 1); ("a"%char, 3)].
Proof.
  assert (Hnd : NoDup (keys [("b"%char, 1); ("a"%char, 3)])).
  { repeat constructor; simpl; intuition discriminate. }
  split; [exact Hnd|]. split; [reflexivity|].
  apply (frequency_file_determines_dictionary
           "x_freq.txt" "y_freq.txt" _ _ (fresh "x.txt" "aaab") (fresh "y.txt" "abaa")
           Hnd Hnd eq_refl).
Defined.

(** The two files a run leaves, for a path with the extension. *)
Lemma compress_files (s : State) (base content : string) :
  path (self s) = (base ++ ".txt")%string ->
  no_dot_t base = true ->
  file_text (files s) (path (self s)) = Some content ->
  content <> EmptyString ->
  exists tree payload,
    create_tree (sort_alphabet_frequency (count_characters content)) = Ok tree
    /\ fst (compress s) = Ok tt
    /\ get String.eqb (files (snd (compress s))) (base ++ "_freq.txt")%string
       = Some (list_byte_of_string
                 (unlines (sidecar_lines (sort_alphabet_frequency (count_characters content)))))
    /\ get String.eqb (files (snd (compress s))) (base ++ "_comp.bin")%string = Some payload
    /\ get String.eqb (files (snd (compress s))) (base ++ ".txt")%string
       = get String.eqb (files s) (base ++ ".txt")%string
    /\ expand_bytes payload
       = pad_encoded_text (codes_of (leaf_codes tree EmptyString) content).
Proof.
  intros Hpath Hbase Hfile Hne.
  destruct (output_paths_extension base Hbase) as [Hpaths [Hbin [Hfreq Hdiff]]].
  assert (Halias : snd (get_output_path (path (self s))) <> path (self s)).
  { rewrite Hpath, Hpaths. exact Hfreq. }
  destruct (compress_run s content Hfile Hne Halias) as [tree [bytes [Htree [Hbytes E]]]].
  destruct (compress_payload s content Hfile Hne Halias)
    as [tree' [payload [Htree' [_ [_ [Hget [_ [_ [Hexp _]]]]]]]]].
  rewrite Htree in Htree'. injection Htree' as <-.
  exists tree, payload.
  split; [assumption|].
  rewrite E in *. cbn [fst snd files with_files] in *.
  rewrite Hpath, Hpaths in Hget. rewrite Hpath, Hpaths.
  cbn [fst snd] in *.
  split; [reflexivity|].
  split; [|split; [exact Hget|split; [|exact Hexp]]].
  - rewrite (get_set_other _ string_eqb_eq) by exact Hdiff.
    apply (get_set_same _ string_eqb_eq).
  - rewrite (get_set_other _ string_eqb_eq) by exact Hbin.
    rewrite (get_set_other _ string_eqb_eq) by exact Hfreq. reflexivity.
Qed.

(** X26.  The two files of a run tell the text: when two runs, on paths with
    the extension [.txt], leave the same bytes in their payload files and
    the same bytes in their frequency files, the two texts they compressed
    are the same.  Each run, on a text that is not empty, also leaves its
    input file as it was. *)
Theorem compress_lossless_files (s1 s2 : State) (base1 base2 content1 content2 : string) :
  path (self s1) = (base1 ++ ".txt")%string ->
  path (self s2) = (base2 ++ ".txt")%string ->
  no_dot_t base1 = true ->
  no_dot_t base2 = true ->
  file_text (files s1) (path (self s1)) = Some content1 ->
  file_text (files s2) (path (self s2)) = Some content2 ->
  content1 <> EmptyString ->
  content2 <> EmptyString ->
  get String.eqb (files (snd (compress s1))) (base1 ++ "_comp.bin")%string
  = get String.eqb (files (snd (compress s2))) (base2 ++ "_comp.bin")%string ->
  get String.eqb (files (snd (compress s1))) (base1 ++ "_freq.txt")%string
  = get String.eqb (files (snd (compress s2))) (base2 ++ "_freq.txt")%string ->
  content1 = content2
  /\ file_text (files (snd (compress s1))) (path (self s1)) = Some content1.
Proof.
  intros Hp1 Hp2 Hb1 Hb2 Hf1 Hf2 Hne1 Hne2 Hpayload Hsidecar.
  destruct (compress_files s1 base1 content1 Hp1 Hb1 Hf1 Hne1)
    as [tree1 [p1 [Ht1 [_ [Hs1 [Hg1 [Hin1 He1]]]]]]].
  destruct (compress_files s2 base2 content2 Hp2 Hb2 Hf2 Hne2)
    as [tree2 [p2 [Ht2 [_ [Hs2 [Hg2 [_ He2]]]]]]].
  split.
  - rewrite Hs1, Hs2 in Hsidecar. injection Hsidecar as Hsidecar.
    apply list_byte_of_string_injective, sidecar_injective in Hsidecar.
    rewrite Hg1, Hg2 in Hpayload. injection Hpayload as <-.
    rewrite <- Hsidecar, Ht1 in Ht2. injection Ht2 as <-.
    apply (same_bits_same_text content1 content2 tree1 Hne1 Hsidecar Ht1).
    now rewrite <- He1, <- He2.
  - unfold file_text in *. rewrite Hp1 in *. now rewrite Hin1.
Qed.

Lemma compress_lossless_files_witness :
  path (self (fresh "a.txt" "abba")) = ("a" ++ ".txt")%string
  /\ path (self (fresh "b.txt" "abba")) = ("b" ++ ".txt")%string
  /\ no_dot_t "a" = true
  /\ no_dot_t "b" = true
  /\ file_text (files (fresh "a.txt" "abba")) (path (self (fresh "a.txt" "abba")))
     = Some "abba"
  /\ file_text (files (fresh "b.txt" "abba")) (path (self (fresh "b.txt" "abba")))
     = Some "abba"
  /\ "abba" <> EmptyString
  /\ get String.eqb (files (snd (compress (fresh "a.txt" "abba")))) ("a" ++ "_comp.bin")%string
     = get String.eqb (files (snd (compress (fresh "b.txt" "abba")))) ("b" ++ "_comp.bin")%string
  /\ get String.eqb (files (snd (compress (fresh "a.txt" "abba")))) ("a" ++ "_freq.txt")%string
     = get String.eqb (files (snd (compress (fresh "b.txt" "abba")))) ("b" ++ "_freq.txt")%string
  /\ "abba" = "abba"
  /\ file_text (files (snd (compress (fresh "a.txt" "abba"))))
               (path (self (fresh "a.txt" "abba")))
     = Some "abba".
Proof.
  assert (Hne : "abba" <> EmptyString) by discriminate.
  do 6 (split; [reflexivity|]). split; [exact Hne|].
  do 2 (split; [reflexivity|]).
  apply (compress_lossless_files (fresh "a.txt" "abba") (fresh "b.txt" "abba")
                                 "a" "b" "abba" "abba"
                                 eq_refl eq_refl eq_refl eq_refl eq_refl eq_refl
                                 Hne Hne eq_refl eq_refl).
Defined.

(* ================================================================== *)
(** * A path without the extension *)
(* ================================================================== *)










